(** * GenPyART: the shape-generation and canvas-state engine

    A shallow embedding of the core of [GenPyART.py] (class
    [GenerativeArtApp]): the per-tick driver [animate], the generator
    [draw_shape], [clear_canvas], [undo_last_shape], [replay_history],
    [set_random_seed], [toggle_pause], the grid overlay ([draw_grid],
    [update_grid], [toggle_grid]) and [add_meme_text], over an explicit
    model of the Tk canvas and of the [root.after] timer queue.  The
    [random] module and the builtin [int] are taken by their
    interfaces.

    Python exceptions do not roll the state back, so a computation is a
    function from the application state to an outcome that carries the
    state reached either way. *)

From Stdlib Require Import ZArith List String Ascii Bool Lia Arith.
From Stdlib Require Import DecimalString HexadecimalString.
Import ListNotations.
Open Scope string_scope.
Open Scope Z_scope.

(* ------------------------------------------------------------------ *)
(** ** Exceptions and the state-and-exception monad                     *)
(* ------------------------------------------------------------------ *)

(** The Python exceptions the modelled code can meet. *)
Inductive exn : Type :=
| ValueError   (* random.randint on an empty range *)
| IndexError   (* random.choice on an empty sequence *)
| NameError.   (* a local read before any assignment *)

Inductive outcome (S A : Type) : Type :=
| Ret (a : A) (s : S)
| Raise (e : exn) (s : S).

Arguments Ret {S A} a s.
Arguments Raise {S A} e s.

Definition M (S A : Type) : Type := S -> outcome S A.

Definition ret {S A} (a : A) : M S A := fun s => Ret a s.

Definition bind {S A B} (c : M S A) (k : A -> M S B) : M S B :=
  fun s => match c s with
           | Ret a s' => k a s'
           | Raise e s' => Raise e s'
           end.

Definition raise {S A} (e : exn) : M S A := fun s => Raise e s.
Definition gets {S A} (f : S -> A) : M S A := fun s => Ret (f s) s.
Definition modify {S} (f : S -> S) : M S unit := fun s => Ret tt (f s).

Declare Scope monad_scope.
Delimit Scope monad_scope with monad.
Notation "x <- c ;; k" := (bind c (fun x => k))
  (at level 61, c at next level, right associativity) : monad_scope.
Notation "c ;;; k" := (bind c (fun _ => k))
  (at level 61, right associativity) : monad_scope.
Open Scope monad_scope.

(** [for x in xs: body x] *)
Fixpoint for_each {S A} (xs : list A) (body : A -> M S unit) : M S unit :=
  match xs with
  | [] => ret tt
  | x :: xs' => body x ;;; for_each xs' body
  end.

(** [for _ in range(n): body] *)
Fixpoint repeat_m {S} (n : nat) (body : M S unit) : M S unit :=
  match n with
  | O => ret tt
  | S n' => body ;;; repeat_m n' body
  end.

(** The state an outcome ends in, and whether it returned. *)
Definition final_state {S A} (o : outcome S A) : S :=
  match o with Ret _ s => s | Raise _ s => s end.

Definition returned {S A} (o : outcome S A) : option A :=
  match o with Ret a _ => Some a | Raise _ _ => None end.

(* ------------------------------------------------------------------ *)
(** ** The [random] module                                              *)
(* ------------------------------------------------------------------ *)

(** The generator behind [random] is the interpreter's, not the
    repository's.  The code relies on its contract only:
    [_randbelow n] yields an integer in [0, n) and a new generator
    state, and [seed v] re-initialises the state from [v]. *)
Class RandomSource (G : Type) : Type := {
  randbelow : Z -> G -> Z * G;
  randbelow_range : forall n g, 0 < n -> 0 <= fst (randbelow n g) < n;
  seed : Z -> G
}.

(** A scripted generator, for running the model on concrete inputs:
    the state is the list of raw draws still to come (0 once it is
    exhausted). *)
Definition scripted_randbelow (n : Z) (g : list Z) : Z * list Z :=
  (hd 0 g mod n, tl g).

Lemma scripted_randbelow_range :
  forall n g, 0 < n -> 0 <= fst (scripted_randbelow n g) < n.
Proof. intros n g Hn. simpl. apply Z.mod_pos_bound. exact Hn. Qed.

#[export] Instance ScriptedRandom : RandomSource (list Z) := {
  randbelow := scripted_randbelow;
  randbelow_range := scripted_randbelow_range;
  seed := fun v => [v; v + 1; v + 2; v + 3; v + 4; v + 5; v + 6; v + 7]
}.

(* ------------------------------------------------------------------ *)
(** ** Strings                                                          *)
(* ------------------------------------------------------------------ *)

(** [sep.join(xs)] *)
Fixpoint join (sep : string) (xs : list string) : string :=
  match xs with
  | [] => EmptyString
  | [x] => x
  | x :: xs' => x ++ sep ++ join sep xs'
  end.

(** [len(s) * "0"]-style left padding to a minimal width. *)
Definition zero_pad (width : nat) (s : string) : string :=
  string_of_list_ascii (repeat "0"%char (width - String.length s)) ++ s.

(** ["#%06x" % n] for a non-negative [n]. *)
Definition hex_color (n : Z) : string :=
  "#" ++ zero_pad 6 (HexadecimalString.NilZero.string_of_uint
                       (N.to_hex_uint (Z.to_N n))).

(** [str(n)] / the f-string rendering of an int. *)
Definition str_of_int (n : Z) : string :=
  DecimalString.NilZero.string_of_int (Z.to_int n).

(** Truthiness of a Python string. *)
Definition nonempty (s : string) : bool :=
  match s with EmptyString => false | _ => true end.

(** The entries of a comma-joined palette string (the reading that
    inverts the [",".join] by which [draw_shape] writes the palette). *)
Fixpoint split_commas (acc : string) (s : string) : list string :=
  match s with
  | EmptyString => [acc]
  | String c s' =>
      if Ascii.eqb c ","%char then acc :: split_commas EmptyString s'
      else split_commas (acc ++ String c EmptyString) s'
  end.

Definition palette_entries (p : string) : list string :=
  if nonempty p then split_commas EmptyString p else [].

(** *** The builtin [int]

    [int(text)] is Python's own and not code of the program: like
    [random] it is taken by its interface.  [py_int text] is the integer
    that [int(text)] returns, [None] when it raises; the empty text is
    refused.  What the program does with either outcome is the subject
    here, not the grammar of numerals. *)
Class IntParser : Type := {
  py_int : string -> option Z;
  py_int_empty : py_int EmptyString = None
}.

(** An instance to run the model with: [int] on ASCII text, as CPython
    reads it.  White space (codes 9 to 13 and 32) is skipped at both
    ends; then come an optional sign and a non-empty run of decimal
    digits in which single underscores may separate digits; more than
    4300 digits are refused (the default limit of CPython from 3.11
    on).  The instance stands for [int] on ASCII
    entries only: text with a character beyond ASCII is refused here,
    whatever [int] does with it. *)
Definition is_space (c : ascii) : bool :=
  let n := nat_of_ascii c in
  ((9 <=? n) && (n <=? 13) || (n =? 32))%nat.

Definition digit_val (c : ascii) : option Z :=
  let n := nat_of_ascii c in
  if ((48 <=? n) && (n <=? 57))%nat then Some (Z.of_nat n - 48) else None.

Fixpoint lstrip (s : list ascii) : list ascii :=
  match s with
  | c :: s' => if is_space c then lstrip s' else s
  | [] => []
  end.

Definition strip (s : list ascii) : list ascii :=
  rev (lstrip (rev (lstrip s))).

(** [after_digit] tells whether the previous character was a digit, so
    that an underscore is legal here; [count] is the number of digits
    read. *)
Fixpoint parse_digits (after_digit : bool) (count : nat) (acc : Z)
  (s : list ascii) : option Z :=
  match s with
  | [] => if after_digit && (count <=? 4300)%nat then Some acc else None
  | c :: s' =>
      match digit_val c with
      | Some d => parse_digits true (S count) (10 * acc + d) s'
      | None =>
          if Ascii.eqb c "_"%char && after_digit
          then match s' with
               | [] => None
               | _ => parse_digits false count acc s'
               end
          else None
      end
  end.

Definition ascii_int (s : string) : option Z :=
  match strip (list_ascii_of_string s) with
  | [] => None
  | c :: rest =>
      if Ascii.eqb c "-"%char
      then option_map Z.opp (parse_digits false 0 0 rest)
      else if Ascii.eqb c "+"%char then parse_digits false 0 0 rest
      else parse_digits false 0 0 (c :: rest)
  end.

Lemma ascii_int_empty : ascii_int EmptyString = None.
Proof. reflexivity. Qed.

#[export] Instance AsciiInt : IntParser := {
  py_int := ascii_int;
  py_int_empty := ascii_int_empty
}.

(* ------------------------------------------------------------------ *)
(** ** The Tk canvas                                                    *)
(* ------------------------------------------------------------------ *)

(** Values of the keyword options given to a canvas call. *)
Inductive optval : Type :=
| VStr (s : string)
| VInt (z : Z)
| VDash (a b : Z)
| VFont (family : string) (size : Z) (style : string).

(** A canvas item: its Tk type name, its coordinate list as handed to
    the creating call, and its options. *)
Record item : Type := mk_item {
  item_type : string;
  item_coords : list Z;
  item_opts : list (string * optval)
}.

(** The display list, bottom-most first, and the next free item id.
    Tk numbers items from 1 and never reuses an id. *)
Record canvas_t : Type := mk_canvas {
  c_items : list (nat * item);
  c_next : nat;
  c_bg : string
}.

Definition canvas_create (ty : string) (coords : list Z)
  (opts : list (string * optval)) (c : canvas_t) : nat * canvas_t :=
  (c_next c,
   mk_canvas (c_items c ++ [(c_next c, mk_item ty coords opts)])%list
             (S (c_next c)) (c_bg c)).

Definition canvas_find (id : nat) (c : canvas_t) : option item :=
  option_map snd (find (fun p => Nat.eqb (fst p) id) (c_items c)).

(** [canvas.delete(id)] *)
Definition canvas_delete (id : nat) (c : canvas_t) : canvas_t :=
  mk_canvas (filter (fun p => negb (Nat.eqb (fst p) id)) (c_items c))
            (c_next c) (c_bg c).

(** [canvas.delete("all")] *)
Definition canvas_delete_all (c : canvas_t) : canvas_t :=
  mk_canvas [] (c_next c) (c_bg c).

Definition optval_is_str (s : string) (v : optval) : bool :=
  match v with VStr s' => String.eqb s s' | _ => false end.

Definition has_tag (tag : string) (it : item) : bool :=
  existsb (fun o => String.eqb (fst o) "tags" && optval_is_str tag (snd o))
          (item_opts it).

(** [canvas.delete(tag)] *)
Definition canvas_delete_tag (tag : string) (c : canvas_t) : canvas_t :=
  mk_canvas (filter (fun p => negb (has_tag tag (snd p))) (c_items c))
            (c_next c) (c_bg c).

(** The coordinate list an item was created with, the empty list for
    an id that is not live. *)
Definition created_coords (id : nat) (c : canvas_t) : list Z :=
  match canvas_find id c with
  | Some it => item_coords it
  | None => []
  end.

(** Tk keeps coordinates as C doubles and [canvas.coords] hands them
    back as Python floats.  Every coordinate here is a whole number, and
    a whole-valued double is written as the integer it equals.
    [round64 z] is the double nearest to the integer [z], ties going to
    the even significand of 53 bits: integers up to [2^53] in magnitude
    are doubles themselves.  Magnitudes from [2^1024] on, where the
    conversion overflows, are outside the model. *)
Definition round64 (z : Z) : Z :=
  if Z.abs z <=? 2 ^ 53 then z
  else
    let m := Z.abs z in
    let sh := Z.log2 m - 52 in
    let q := m / 2 ^ sh in
    let r := m mod 2 ^ sh in
    let half := 2 ^ (sh - 1) in
    let q' := if (half <? r) || ((r =? half) && Z.odd q) then q + 1 else q in
    Z.sgn z * (q' * 2 ^ sh).

(** Tk keeps the bounding box of an oval, a rectangle or an arc with
    its first corner the lower one on each axis; the coordinates of
    lines, polygons and texts stay in the order given. *)
Definition is_box_type (ty : string) : bool :=
  String.eqb ty "oval" || String.eqb ty "rectangle" || String.eqb ty "arc".

Definition tk_stored (ty : string) (coords : list Z) : list Z :=
  if is_box_type ty then
    match coords with
    | [x1; y1; x2; y2] =>
        [Z.min x1 x2; Z.min y1 y2; Z.max x1 x2; Z.max y1 y2]
    | _ => coords
    end
  else coords.

(** [canvas.coords(id)]: the coordinates as Tk holds them, the empty
    list for an id that is not live. *)
Definition canvas_coords (id : nat) (c : canvas_t) : list Z :=
  match canvas_find id c with
  | Some it => tk_stored (item_type it) (map round64 (item_coords it))
  | None => []
  end.

(** [canvas.type(id)]: [None] for an id that is not live. *)
Definition canvas_type (id : nat) (c : canvas_t) : option string :=
  option_map item_type (canvas_find id c).

Definition set_opt (k : string) (v : optval) (it : item) : item :=
  mk_item (item_type it) (item_coords it)
          ((k, v) :: filter (fun o => negb (String.eqb (fst o) k))
                            (item_opts it)).

(** [canvas.itemconfigure(id, k=v)]: nothing happens for a dead id. *)
Definition canvas_itemconfigure (id : nat) (k : string) (v : optval)
  (c : canvas_t) : canvas_t :=
  mk_canvas (map (fun p => if Nat.eqb (fst p) id
                           then (fst p, set_opt k v (snd p)) else p)
                 (c_items c))
            (c_next c) (c_bg c).

(** [canvas.tag_raise(id)]: the item goes to the top of the display list. *)
Definition canvas_tag_raise (id : nat) (c : canvas_t) : canvas_t :=
  mk_canvas (filter (fun p => negb (Nat.eqb (fst p) id)) (c_items c)
             ++ filter (fun p => Nat.eqb (fst p) id) (c_items c))%list
            (c_next c) (c_bg c).

(** [canvas.config(bg=color)] *)
Definition canvas_config_bg (color : string) (c : canvas_t) : canvas_t :=
  mk_canvas (c_items c) (c_next c) color.

(** The number of live primitives. *)
Definition live_count (c : canvas_t) : nat := List.length (c_items c).

(** Every live id is below the next free one. *)
Definition canvas_wf (c : canvas_t) : Prop :=
  Forall (fun p => (fst p < c_next c)%nat) (c_items c).

(* ------------------------------------------------------------------ *)
(** ** Settings, history, timers                                        *)
(* ------------------------------------------------------------------ *)

(** [self.SETTINGS] *)
Record settings : Type := mk_settings {
  animation_speed : Z;
  auto_clear_threshold : Z;
  drawing_mode_key : string;
  burst_count : Z;
  min_shape_size : Z;
  max_shape_size : Z;
  outline_only : bool;
  mirror_drawing : bool;
  grid_overlay : bool;
  bg_color : string;
  custom_palette : string;
  watermark_enabled : bool;
  watermark_text : string;
  meme_text : string;
  meme_font : string;
  meme_font_size : Z;
  random_seed : option Z
}.

Definition set_outline_only (v : bool) (s : settings) : settings :=
  mk_settings (animation_speed s) (auto_clear_threshold s)
    (drawing_mode_key s) (burst_count s) (min_shape_size s)
    (max_shape_size s) v (mirror_drawing s) (grid_overlay s) (bg_color s)
    (custom_palette s) (watermark_enabled s) (watermark_text s)
    (meme_text s) (meme_font s) (meme_font_size s) (random_seed s).

Definition set_mirror_drawing (v : bool) (s : settings) : settings :=
  mk_settings (animation_speed s) (auto_clear_threshold s)
    (drawing_mode_key s) (burst_count s) (min_shape_size s)
    (max_shape_size s) (outline_only s) v (grid_overlay s) (bg_color s)
    (custom_palette s) (watermark_enabled s) (watermark_text s)
    (meme_text s) (meme_font s) (meme_font_size s) (random_seed s).

Definition set_custom_palette (v : string) (s : settings) : settings :=
  mk_settings (animation_speed s) (auto_clear_threshold s)
    (drawing_mode_key s) (burst_count s) (min_shape_size s)
    (max_shape_size s) (outline_only s) (mirror_drawing s) (grid_overlay s)
    (bg_color s) v (watermark_enabled s) (watermark_text s)
    (meme_text s) (meme_font s) (meme_font_size s) (random_seed s).

Definition set_random_seed_key (v : option Z) (s : settings) : settings :=
  mk_settings (animation_speed s) (auto_clear_threshold s)
    (drawing_mode_key s) (burst_count s) (min_shape_size s)
    (max_shape_size s) (outline_only s) (mirror_drawing s) (grid_overlay s)
    (bg_color s) (custom_palette s) (watermark_enabled s) (watermark_text s)
    (meme_text s) (meme_font s) (meme_font_size s) v.

(** One entry of [self.draw_history]: the dict
    [{"type": ..., "items": [...]}], with the key ["mirror_items"]
    present only when the shape was drawn mirrored. *)
Record shape_record : Type := mk_record {
  rec_type : string;
  rec_items : list nat;
  rec_mirror_items : option (list nat)
}.

(** [d.get("mirror_items", [])] *)
Definition get_mirror_items (r : shape_record) : list nat :=
  match rec_mirror_items r with Some l => l | None => [] end.

(** What a [root.after] request will call.  The closure made in
    [replay_history] holds the copied history and its index. *)
Inductive callback : Type :=
| CbAnimate
| CbReplayNext (history_copy : list shape_record) (index : nat).

(** The Tk variables and widgets the engine reads. *)
Record widgets : Type := mk_widgets {
  special_mode : string;
  chaos_mode : bool;
  drawing_mode : string;
  speed_scale : Z;
  seed_entry : string
}.

(* ------------------------------------------------------------------ *)
(** ** The application object                                           *)
(* ------------------------------------------------------------------ *)

Section App.

Context {G : Type} {RS : RandomSource G} {IP : IntParser}.

(** The attributes of [GenerativeArtApp] that the engine touches, with
    the module-level generator of [random] and the pending [root.after]
    requests, oldest first. *)
Record app : Type := mk_app {
  tkvars : widgets;
  CANVAS_WIDTH : Z;
  CANVAS_HEIGHT : Z;
  paused : bool;
  frame_count : Z;
  draw_history : list shape_record;
  meme_text_id : option nat;
  watermark_id : option nat;
  SETTINGS : settings;
  SHAPE_TYPES : list (string * bool);
  canvas : canvas_t;
  status_label : string;
  rng : G;
  after_queue : list (Z * callback)
}.

Definition set_paused (v : bool) (a : app) : app :=
  mk_app (tkvars a) (CANVAS_WIDTH a) (CANVAS_HEIGHT a) v (frame_count a)
    (draw_history a) (meme_text_id a) (watermark_id a) (SETTINGS a)
    (SHAPE_TYPES a) (canvas a) (status_label a) (rng a) (after_queue a).

Definition set_frame_count (v : Z) (a : app) : app :=
  mk_app (tkvars a) (CANVAS_WIDTH a) (CANVAS_HEIGHT a) (paused a) v
    (draw_history a) (meme_text_id a) (watermark_id a) (SETTINGS a)
    (SHAPE_TYPES a) (canvas a) (status_label a) (rng a) (after_queue a).

Definition set_draw_history (v : list shape_record) (a : app) : app :=
  mk_app (tkvars a) (CANVAS_WIDTH a) (CANVAS_HEIGHT a) (paused a)
    (frame_count a) v (meme_text_id a) (watermark_id a) (SETTINGS a)
    (SHAPE_TYPES a) (canvas a) (status_label a) (rng a) (after_queue a).

Definition set_meme_text_id (v : option nat) (a : app) : app :=
  mk_app (tkvars a) (CANVAS_WIDTH a) (CANVAS_HEIGHT a) (paused a)
    (frame_count a) (draw_history a) v (watermark_id a) (SETTINGS a)
    (SHAPE_TYPES a) (canvas a) (status_label a) (rng a) (after_queue a).

Definition set_watermark_id (v : option nat) (a : app) : app :=
  mk_app (tkvars a) (CANVAS_WIDTH a) (CANVAS_HEIGHT a) (paused a)
    (frame_count a) (draw_history a) (meme_text_id a) v (SETTINGS a)
    (SHAPE_TYPES a) (canvas a) (status_label a) (rng a) (after_queue a).

Definition set_SETTINGS (v : settings) (a : app) : app :=
  mk_app (tkvars a) (CANVAS_WIDTH a) (CANVAS_HEIGHT a) (paused a)
    (frame_count a) (draw_history a) (meme_text_id a) (watermark_id a) v
    (SHAPE_TYPES a) (canvas a) (status_label a) (rng a) (after_queue a).

Definition set_canvas (v : canvas_t) (a : app) : app :=
  mk_app (tkvars a) (CANVAS_WIDTH a) (CANVAS_HEIGHT a) (paused a)
    (frame_count a) (draw_history a) (meme_text_id a) (watermark_id a)
    (SETTINGS a) (SHAPE_TYPES a) v (status_label a) (rng a) (after_queue a).

Definition set_status_label (v : string) (a : app) : app :=
  mk_app (tkvars a) (CANVAS_WIDTH a) (CANVAS_HEIGHT a) (paused a)
    (frame_count a) (draw_history a) (meme_text_id a) (watermark_id a)
    (SETTINGS a) (SHAPE_TYPES a) (canvas a) v (rng a) (after_queue a).

Definition set_rng (v : G) (a : app) : app :=
  mk_app (tkvars a) (CANVAS_WIDTH a) (CANVAS_HEIGHT a) (paused a)
    (frame_count a) (draw_history a) (meme_text_id a) (watermark_id a)
    (SETTINGS a) (SHAPE_TYPES a) (canvas a) (status_label a) v
    (after_queue a).

Definition set_after_queue (v : list (Z * callback)) (a : app) : app :=
  mk_app (tkvars a) (CANVAS_WIDTH a) (CANVAS_HEIGHT a) (paused a)
    (frame_count a) (draw_history a) (meme_text_id a) (watermark_id a)
    (SETTINGS a) (SHAPE_TYPES a) (canvas a) (status_label a) (rng a) v.

Definition App (A : Type) : Type := M app A.

(** *** [random] over the application state *)

(** [random.randint(a, b)]: [a + _randbelow(b - a + 1)], and
    [ValueError] when the range is empty. *)
Definition randint (lo hi : Z) : App Z :=
  fun st =>
    if hi <? lo then Raise ValueError st
    else let (r, g') := randbelow (hi - lo + 1) (rng st) in
         Ret (lo + r) (set_rng g' st).

(** [random.choice(seq)]: [seq[_randbelow(len(seq))]], and [IndexError]
    when the sequence is empty. *)
Definition choice {A} (xs : list A) : App A :=
  fun st =>
    match xs with
    | [] => Raise IndexError st
    | _ => let (r, g') := randbelow (Z.of_nat (List.length xs)) (rng st) in
           match nth_error xs (Z.to_nat r) with
           | Some x => Ret x (set_rng g' st)
           | None => Raise IndexError (set_rng g' st)
           end
    end.

(** [random_color()], lines 58-60. *)
Definition random_color : App string :=
  n <- randint 0 16777215 ;; ret (hex_color n).

(** *** Canvas calls and the other small effects *)

Definition create (ty : string) (coords : list Z)
  (opts : list (string * optval)) : App nat :=
  fun st => let (id, c') := canvas_create ty coords opts (canvas st) in
            Ret id (set_canvas c' st).

Definition on_canvas (f : canvas_t -> canvas_t) : App unit :=
  modify (fun st => set_canvas (f (canvas st)) st).

Definition setting {A} (f : settings -> A) : App A :=
  gets (fun st => f (SETTINGS st)).

Definition update_settings (f : settings -> settings) : App unit :=
  modify (fun st => set_SETTINGS (f (SETTINGS st)) st).

(** [self.status_label.config(text=...)] *)
Definition status (text : string) : App unit :=
  modify (set_status_label text).

(** [self.root.after(ms, cb)] *)
Definition root_after (ms : Z) (cb : callback) : App unit :=
  modify (fun st => set_after_queue (after_queue st ++ [(ms, cb)])%list st).

(** [range(0, stop, step)] for a positive step. *)
Definition range_step (stop step : Z) : list Z :=
  map (fun k => step * Z.of_nat k)
      (seq 0 (Z.to_nat ((stop + step - 1) / step))).

Definition grid_opts : list (string * optval) :=
  [("fill", VStr "#333333"); ("dash", VDash 2 4); ("tags", VStr "grid")].

(** [draw_grid], lines 150-156. *)
Definition draw_grid : App unit :=
  g <- setting grid_overlay ;;
  if g then
    w <- gets CANVAS_WIDTH ;;
    h <- gets CANVAS_HEIGHT ;;
    for_each (range_step w 50)
      (fun x => create "line" [x; 0; x; h] grid_opts ;;; ret tt) ;;;
    for_each (range_step h 50)
      (fun y => create "line" [0; y; w; y] grid_opts ;;; ret tt)
  else ret tt.

(** [update_grid], lines 193-195. *)
Definition update_grid : App unit :=
  on_canvas (canvas_delete_tag "grid") ;;; draw_grid.

Definition create_meme_text : App unit :=
  w <- gets CANVAS_WIDTH ;;
  h <- gets CANVAS_HEIGHT ;;
  t <- setting meme_text ;;
  f <- setting meme_font ;;
  fs <- setting meme_font_size ;;
  id <- create "text" [w / 2; h - 50]
          [("text", VStr t); ("fill", VStr "white");
           ("font", VFont f fs "bold")] ;;
  modify (set_meme_text_id (Some id)).

Definition create_watermark : App unit :=
  w <- gets CANVAS_WIDTH ;;
  h <- gets CANVAS_HEIGHT ;;
  t <- setting watermark_text ;;
  id <- create "text" [w - 80; h - 20]
          [("text", VStr t); ("fill", VStr "#888888");
           ("font", VFont "Arial" 8 "italic")] ;;
  modify (set_watermark_id (Some id)).

(** [clear_canvas], lines 892-906. *)
Definition clear_canvas : App unit :=
  on_canvas canvas_delete_all ;;;
  modify (set_draw_history []) ;;;
  modify (set_frame_count 0) ;;;
  update_grid ;;;
  mt <- setting meme_text ;;
  (if nonempty mt then create_meme_text else ret tt) ;;;
  we <- setting watermark_enabled ;;
  (if we then create_watermark else ret tt).

(** *** [draw_shape], lines 790-884 *)

(** The locals of one run of [draw_shape] that the properties speak of.
    The Python function returns [None]; the model hands them back so
    that a statement can name the sampled values. *)
Record draw_locals : Type := mk_locals {
  loc_shape_type : string;
  loc_size : Z;
  loc_x : Z;
  loc_y : Z;
  loc_color : string;
  loc_outline_flag : bool;
  loc_record : shape_record
}.

(** Lines 791-797: UltraRandom overwrites three settings first. *)
Definition ultra_random : App unit :=
  sm <- gets (fun st => special_mode (tkvars st)) ;;
  if String.eqb sm "UltraRandom" then
    o <- choice [true; false] ;;
    update_settings (set_outline_only o) ;;;
    m <- choice [true; false] ;;
    update_settings (set_mirror_drawing m) ;;;
    b <- choice [true; false] ;;
    if (b : bool) then
      c1 <- randint 0 16777215 ;;
      c2 <- randint 0 16777215 ;;
      c3 <- randint 0 16777215 ;;
      update_settings
        (set_custom_palette
           (join "," [hex_color c1; hex_color c2; hex_color c3]))
    else update_settings (set_custom_palette EmptyString)
  else ret tt.

(** Line 798. *)
Definition available_shapes (shape_types : list (string * bool))
  : list string :=
  map fst (filter snd shape_types).

(** Line 799: [random.choice(available_shapes) if available_shapes
    else "circle"]. *)
Definition choose_shape_type : App string :=
  av <- gets (fun st => available_shapes (SHAPE_TYPES st)) ;;
  match av with
  | [] => ret "circle"
  | _ => choice av
  end.

(** Keyword options of the filled and of the outline-only variants
    (ovals, rectangles and polygons share them). *)
Definition style_opts (outline_flag : bool) (color : string)
  : list (string * optval) :=
  if outline_flag
  then [("outline", VStr color); ("width", VInt 2); ("fill", VStr EmptyString)]
  else [("fill", VStr color); ("outline", VStr color)].

Definition arc_style_opts (outline_flag : bool) (color : string)
  : list (string * optval) :=
  if outline_flag
  then [("outline", VStr color); ("style", VStr "arc"); ("width", VInt 2)]
  else [("fill", VStr color); ("outline", VStr color)].

(** Lines 808-850: the [if]/[elif] chain on the shape type.  It yields
    the record's ["items"] list and [width_line], a local that only the
    line branch assigns. *)
Definition draw_primary (shape_type : string) (size x y : Z)
  (color : string) (outline_flag : bool) : App (list nat * option Z) :=
  if String.eqb shape_type "circle" then
    let r := size in
    id <- create "oval" [x - r; y - r; x + r; y + r]
            (style_opts outline_flag color) ;;
    ret ([id], None)
  else if String.eqb shape_type "line" then
    x2 <- (w <- gets CANVAS_WIDTH ;; randint 0 w) ;;
    y2 <- (h <- gets CANVAS_HEIGHT ;; randint 0 h) ;;
    width_line <- randint 1 5 ;;
    id <- create "line" [x; y; x2; y2]
            [("fill", VStr color); ("width", VInt width_line)] ;;
    ret ([id], Some width_line)
  else if String.eqb shape_type "arc" then
    let x1 := x in let y1 := y in
    let x2 := x + size in let y2 := y + size in
    start_angle <- randint 0 360 ;;
    extent_angle <- randint 30 180 ;;
    id <- create "arc" [x1; y1; x2; y2]
            (("start", VInt start_angle) :: ("extent", VInt extent_angle)
             :: arc_style_opts outline_flag color) ;;
    ret ([id], None)
  else if String.eqb shape_type "rectangle" then
    let x1 := x in let y1 := y in
    let x2 := x + size in let y2 := y + size in
    id <- create "rectangle" [x1; y1; x2; y2]
            (style_opts outline_flag color) ;;
    ret ([id], None)
  else if String.eqb shape_type "triangle" then
    dx2 <- randint (- size) size ;;
    dy2 <- randint (- size) size ;;
    dx3 <- randint (- size) size ;;
    dy3 <- randint (- size) size ;;
    let x2 := x + dx2 in let y2 := y + dy2 in
    let x3 := x + dx3 in let y3 := y + dy3 in
    id <- create "polygon" [x; y; x2; y2; x3; y3]
            (style_opts outline_flag color) ;;
    ret ([id], None)
  else ret ([], None).

(** The Tk item types of the five shapes. *)
Definition shape_kinds : list string :=
  ["oval"; "line"; "arc"; "rectangle"; "polygon"].

(** The Tk item type that the branch of a shape type creates, [None]
    for a name outside the five branches. *)
Definition primary_kind (shape_type : string) : option string :=
  if String.eqb shape_type "circle" then Some "oval"
  else if String.eqb shape_type "line" then Some "line"
  else if String.eqb shape_type "arc" then Some "arc"
  else if String.eqb shape_type "rectangle" then Some "rectangle"
  else if String.eqb shape_type "triangle" then Some "polygon"
  else None.

(** [enumerate(coords)] *)
Definition enumerate {A} (xs : list A) : list (nat * A) :=
  combine (seq 0 (List.length xs)) xs.

(** [W - val] for an int [W] and a float [val]: [W] is converted to a
    float and the difference is rounded to a float. *)
Definition int_minus_float (w val : Z) : Z := round64 (round64 w - val).

(** Line 855: [[W - val if idx % 2 == 0 else val
               for idx, val in enumerate(coords)]], on the floats that
    [canvas.coords] returned. *)
Definition mirrored_coords (canvas_width : Z) (coords : list Z) : list Z :=
  map (fun p => if Nat.even (fst p)
                then int_minus_float canvas_width (snd p) else snd p)
      (enumerate coords).

Definition type_is (ty : option string) (name : string) : bool :=
  match ty with Some s => String.eqb s name | None => false end.

(** Truthiness of an item id or [None] ([if m_item:]). *)
Definition truthy_id (m : option nat) : bool :=
  match m with Some (S _) => true | _ => false end.

(** Lines 854-880: the mirror of one item, [None] for an unknown type. *)
Definition mirror_item (color : string) (outline_flag : bool)
  (width_line : option Z) (it : nat) : App (option nat) :=
  coords <- gets (fun st => canvas_coords it (canvas st)) ;;
  w <- gets CANVAS_WIDTH ;;
  let mirrored := mirrored_coords w coords in
  item_ty <- gets (fun st => canvas_type it (canvas st)) ;;
  if type_is item_ty "oval" then
    id <- create "oval" mirrored (style_opts outline_flag color) ;;
    ret (Some id)
  else if type_is item_ty "line" then
    match width_line with
    | Some wl =>
        id <- create "line" mirrored
                [("fill", VStr color); ("width", VInt wl)] ;;
        ret (Some id)
    | None => raise NameError
    end
  else if type_is item_ty "arc" then
    id <- create "arc" mirrored (arc_style_opts outline_flag color) ;;
    ret (Some id)
  else if type_is item_ty "rectangle" then
    id <- create "rectangle" mirrored (style_opts outline_flag color) ;;
    ret (Some id)
  else if type_is item_ty "polygon" then
    id <- create "polygon" mirrored (style_opts outline_flag color) ;;
    ret (Some id)
  else ret None.

(** Lines 852-883: the loop over the record's items. *)
Fixpoint mirror_loop (color : string) (outline_flag : bool)
  (width_line : option Z) (items : list nat) (mirror_items : list nat)
  : App (list nat) :=
  match items with
  | [] => ret mirror_items
  | it :: rest =>
      m_item <- mirror_item color outline_flag width_line it ;;
      mirror_loop color outline_flag width_line rest
        (match m_item with
         | Some id => if truthy_id m_item
                      then (mirror_items ++ [id])%list else mirror_items
         | None => mirror_items
         end)
  end.

Definition draw_shape_locals : App draw_locals :=
  ultra_random ;;;
  shape_type <- choose_shape_type ;;
  min_size <- setting min_shape_size ;;
  max_size <- setting max_shape_size ;;
  size <- randint min_size max_size ;;
  x <- (w <- gets CANVAS_WIDTH ;; randint 0 w) ;;
  y <- (h <- gets CANVAS_HEIGHT ;; randint 0 h) ;;
  color <- random_color ;;
  outline_flag <- setting outline_only ;;
  drawn <- draw_primary shape_type size x y color outline_flag ;;
  mirror <- setting mirror_drawing ;;
  mirror_items <-
    (if (mirror : bool)
     then l <- mirror_loop color outline_flag (snd drawn) (fst drawn) [] ;;
          ret (Some l)
     else ret None) ;;
  let shape_record := mk_record shape_type (fst drawn) mirror_items in
  modify (fun st =>
            set_draw_history (draw_history st ++ [shape_record])%list st) ;;;
  ret (mk_locals shape_type size x y color outline_flag shape_record).

Definition draw_shape : App unit :=
  draw_shape_locals ;;; ret tt.

(** *** The driver and the commands *)

(** Lines 766-774 of [animate]. *)
Definition reconcile_meme : App unit :=
  mt <- setting meme_text ;;
  if nonempty mt then
    mid <- gets meme_text_id ;;
    match mid with
    | None => create_meme_text
    | Some id => on_canvas (canvas_itemconfigure id "text" (VStr mt))
    end ;;;
    mid' <- gets meme_text_id ;;
    match mid' with
    | Some id => on_canvas (canvas_tag_raise id)
    | None => ret tt
    end
  else ret tt.

(** Lines 775-787 of [animate]. *)
Definition reconcile_watermark : App unit :=
  we <- setting watermark_enabled ;;
  if (we : bool) then
    wid <- gets watermark_id ;;
    match wid with
    | None => create_watermark
    | Some id =>
        wt <- setting watermark_text ;;
        on_canvas (canvas_itemconfigure id "text" (VStr wt))
    end ;;;
    wid' <- gets watermark_id ;;
    match wid' with
    | Some id => on_canvas (canvas_tag_raise id)
    | None => ret tt
    end
  else
    wid <- gets watermark_id ;;
    if truthy_id wid then
      match wid with
      | Some id => on_canvas (canvas_delete id)
      | None => ret tt
      end ;;;
      modify (set_watermark_id None)
    else ret tt.

(** Lines 756-787: what a tick does when the driver is not paused. *)
Definition animate_body : App unit :=
  modify (fun st => set_frame_count (frame_count st + 1) st) ;;;
  dm <- gets (fun st => drawing_mode (tkvars st)) ;;
  (if String.eqb dm "continuous" then draw_shape
   else bc <- setting burst_count ;;
        repeat_m (Z.to_nat bc) draw_shape) ;;;
  fc <- gets frame_count ;;
  th <- setting auto_clear_threshold ;;
  (if th <=? fc then clear_canvas else ret tt) ;;;
  ch <- gets (fun st => chaos_mode (tkvars st)) ;;
  fc' <- gets frame_count ;;
  (if ch && (fc' mod 50 =? 0)
   then c <- random_color ;; on_canvas (canvas_config_bg c)
   else ret tt) ;;;
  reconcile_meme ;;;
  reconcile_watermark.

(** [animate], lines 754-788.  No statement of it, nor of [draw_shape],
    sits in a [try] block. *)
Definition animate : App unit :=
  p <- gets paused ;;
  (if negb p then animate_body else ret tt) ;;;
  sp <- gets (fun st => speed_scale (tkvars st)) ;;
  root_after sp CbAnimate.

(** [toggle_pause], lines 887-890. *)
Definition toggle_pause : App unit :=
  modify (fun st => set_paused (negb (paused st)) st) ;;;
  p <- gets paused ;;
  status (if (p : bool) then "Paused" else "Running").

(** [undo_last_shape], lines 908-917.  [list.pop()] takes the last
    record. *)
Definition undo_last_shape : App unit :=
  h <- gets draw_history ;;
  match rev h with
  | [] => status "No shapes to undo"
  | last_shape :: earlier =>
      modify (set_draw_history (rev earlier)) ;;;
      for_each (rec_items last_shape)
        (fun it => on_canvas (canvas_delete it)) ;;;
      for_each (get_mirror_items last_shape)
        (fun m_item => on_canvas (canvas_delete m_item)) ;;;
      status "Last shape undone"
  end.

(** The inner [replay_next] of [replay_history], lines 927-932. *)
Definition replay_next (history_copy : list shape_record) (index : nat)
  : App unit :=
  if (index <? List.length history_copy)%nat then
    draw_shape ;;;
    root_after 50 (CbReplayNext history_copy (index + 1))
  else status "Replay complete".

(** [replay_history], lines 919-933. *)
Definition replay_history : App unit :=
  h <- gets draw_history ;;
  match h with
  | [] => status "No history to replay"
  | _ =>
      let history_copy := h in
      clear_canvas ;;;
      modify (set_frame_count 0) ;;;
      status "Replaying history..." ;;;
      replay_next history_copy 0
  end.

(** [set_random_seed], lines 184-191.  The only statement of the [try]
    block that can raise is the conversion; the handler swallows it. *)
Definition set_random_seed : App unit :=
  text <- gets (fun st => seed_entry (tkvars st)) ;;
  match py_int text with
  | Some seed_val =>
      modify (set_rng (seed seed_val)) ;;;
      update_settings (set_random_seed_key (Some seed_val)) ;;;
      status ("Seed set to " ++ str_of_int seed_val)
  | None => status "Invalid seed value"
  end.

(** *** Further commands *)

Definition set_grid_overlay (v : bool) (s : settings) : settings :=
  mk_settings (animation_speed s) (auto_clear_threshold s)
    (drawing_mode_key s) (burst_count s) (min_shape_size s)
    (max_shape_size s) (outline_only s) (mirror_drawing s) v (bg_color s)
    (custom_palette s) (watermark_enabled s) (watermark_text s)
    (meme_text s) (meme_font s) (meme_font_size s) (random_seed s).

Definition set_meme_text (v : string) (s : settings) : settings :=
  mk_settings (animation_speed s) (auto_clear_threshold s)
    (drawing_mode_key s) (burst_count s) (min_shape_size s)
    (max_shape_size s) (outline_only s) (mirror_drawing s) (grid_overlay s)
    (bg_color s) (custom_palette s) (watermark_enabled s) (watermark_text s)
    v (meme_font s) (meme_font_size s) (random_seed s).

(** [toggle_grid], lines 1055-1057; [grid_var] is the state of the Grid
    check box.  The grid is drawn, never deleted, here. *)
Definition toggle_grid (grid_var : bool) : App unit :=
  update_settings (set_grid_overlay grid_var) ;;;
  draw_grid.

(** [add_meme_text], lines 935-946; [text] is the content of the meme
    entry. *)
Definition add_meme_text (text : string) : App unit :=
  update_settings (set_meme_text text) ;;;
  mid <- gets meme_text_id ;;
  match mid with
  | None =>
      w <- gets CANVAS_WIDTH ;;
      h <- gets CANVAS_HEIGHT ;;
      f <- setting meme_font ;;
      fs <- setting meme_font_size ;;
      id <- create "text" [w / 2; h - 50]
              [("text", VStr text); ("fill", VStr "white");
               ("font", VFont f fs "bold")] ;;
      modify (set_meme_text_id (Some id))
  | Some id => on_canvas (canvas_itemconfigure id "text" (VStr text))
  end ;;;
  mid' <- gets meme_text_id ;;
  match mid' with
  | Some id => on_canvas (canvas_tag_raise id)
  | None => ret tt
  end ;;;
  status "Meme text updated".

(** *** The timer queue *)

Definition run_callback (cb : callback) : App unit :=
  match cb with
  | CbAnimate => animate
  | CbReplayNext history_copy index => replay_next history_copy index
  end.

Definition is_replay (t : Z * callback) : bool :=
  match snd t with CbReplayNext _ _ => true | CbAnimate => false end.

Definition is_animate (t : Z * callback) : bool :=
  match snd t with CbAnimate => true | CbReplayNext _ _ => false end.

(** The oldest pending request of a kind, taken out of the queue. *)
Fixpoint pop_request (sel : Z * callback -> bool) (q : list (Z * callback))
  : option (callback * list (Z * callback)) :=
  match q with
  | [] => None
  | t :: q' =>
      if sel t then Some (snd t, q')
      else match pop_request sel q' with
           | Some (cb, q'') => Some (cb, t :: q'')
           | None => None
           end
  end.

(** One round of the Tk event loop restricted to requests of one kind:
    the oldest such request leaves the queue and its callback runs.  A
    callback that raises is reported by Tk and the loop goes on with
    the state the callback left.  With no such request pending nothing
    happens. *)
Definition dispatch (sel : Z * callback -> bool) (st : app) : app :=
  match pop_request sel (after_queue st) with
  | None => st
  | Some (cb, q') => final_state (run_callback cb (set_after_queue q' st))
  end.

Fixpoint run_events (sel : Z * callback -> bool) (n : nat) (st : app)
  : app :=
  match n with
  | O => st
  | S n' => run_events sel n' (dispatch sel st)
  end.

(** [n] rounds serving the animation timer only: [n] ticks with no
    command in between. *)
Definition ticks (n : nat) (st : app) : app := run_events is_animate n st.

(** [n] rounds serving the replay timer only (the driver is paused or
    slower than the replay interval). *)
Definition serve_replay (n : nat) (st : app) : app :=
  run_events is_replay n st.

(** *** Conditions on a state *)

(** The ranges that [draw_shape] hands to [random.randint] are not
    empty: the canvas has a non-negative extent and
    [0 <= min_shape_size <= max_shape_size]. *)
Definition ranges_ok (st : app) : Prop :=
  0 <= CANVAS_WIDTH st /\ 0 <= CANVAS_HEIGHT st /\
  0 <= min_shape_size (SETTINGS st) <= max_shape_size (SETTINGS st).

(** The state [st] with the four components that drawing writes
    replaced. *)
Definition touched (st : app) (s : settings) (c : canvas_t)
  (h : list shape_record) (g : G) : app :=
  mk_app (tkvars st) (CANVAS_WIDTH st) (CANVAS_HEIGHT st) (paused st)
    (frame_count st) h (meme_text_id st) (watermark_id st) s
    (SHAPE_TYPES st) c (status_label st) g (after_queue st).

(** [s'] differs from [s] at most in the three keys UltraRandom
    overwrites. *)
Definition style_only (s s' : settings) : Prop :=
  s' = set_custom_palette (custom_palette s')
         (set_mirror_drawing (mirror_drawing s')
            (set_outline_only (outline_only s') s)).

(** What no step of a tick or of a draw writes: the Tk variables, the
    canvas extent, the pause flag, the shape-type table, the status
    label and the timer queue stay, and the settings change at most in
    the three style keys. *)
Definition same_env (st st' : app) : Prop :=
  tkvars st' = tkvars st
  /\ CANVAS_WIDTH st' = CANVAS_WIDTH st
  /\ CANVAS_HEIGHT st' = CANVAS_HEIGHT st
  /\ paused st' = paused st
  /\ SHAPE_TYPES st' = SHAPE_TYPES st
  /\ status_label st' = status_label st
  /\ after_queue st' = after_queue st
  /\ style_only (SETTINGS st) (SETTINGS st').

(** A computation whose final state, returned or raised, is related to
    its initial state. *)
Definition keeps {A} (R : app -> app -> Prop) (c : App A) : Prop :=
  forall st, R st (final_state (c st)).

(** A computation that returns from every state. *)
Definition total {A} (c : App A) : Prop :=
  forall st, exists a st', c st = Ret a st'.

(** Related states have the same frame counter and history, and the
    second has a well-formed canvas if the first has. *)
Definition quiet (st st' : app) : Prop :=
  frame_count st' = frame_count st
  /\ draw_history st' = draw_history st
  /\ (canvas_wf (canvas st) -> canvas_wf (canvas st')).

(** A computation that raises, if at all, an exception in [P]. *)
Definition raises_only {A} (P : exn -> Prop) (c : App A) : Prop :=
  forall st e st', c st = Raise e st' -> P e.

(** Any exception but [IndexError]. *)
Definition not_index (e : exn) : Prop := e <> IndexError.

(** An outcome with its final state mapped, and a computation that
    commutes with a change of the state: started from the changed state
    it does what it does from the original one, and ends in the changed
    final state. *)
Definition omap {A} (f : app -> app) (o : outcome app A) : outcome app A :=
  match o with
  | Ret a s => Ret a (f s)
  | Raise e s => Raise e (f s)
  end.

Definition commutes {A} (f : app -> app) (c : App A) : Prop :=
  forall st, c (f st) = omap f (c st).

(** A state in which the driver runs in continuous mode with the
    auto-clear threshold [th], every sampling range is non-empty, the
    canvas is well formed and a tick is pending in the timer queue. *)
Definition running_continuous (th : Z) (st : app) : Prop :=
  ranges_ok st
  /\ canvas_wf (canvas st)
  /\ paused st = false
  /\ drawing_mode (tkvars st) = "continuous"
  /\ auto_clear_threshold (SETTINGS st) = th
  /\ existsb is_animate (after_queue st) = true.

(** The type of a record that [draw_shape] made under the shape-type
    table [shape_types]: one of the enabled types, or "circle" when
    none is enabled. *)
Definition fresh_type (shape_types : list (string * bool))
  (r : shape_record) : Prop :=
  (available_shapes shape_types = [] -> rec_type r = "circle")
  /\ (available_shapes shape_types <> [] ->
      In (rec_type r) (available_shapes shape_types)).

(** A replay of the snapshot [h] under way: [k] shapes are redrawn,
    the request for index [k] is the only replay request pending
    (behind the queue [q0]), and the next draw cannot fail. *)
Definition replaying (h : list shape_record) (q0 : list (Z * callback))
  (shape_types : list (string * bool)) (k : nat) (st : app) : Prop :=
  ranges_ok st
  /\ canvas_wf (canvas st)
  /\ SHAPE_TYPES st = shape_types
  /\ frame_count st = 0
  /\ after_queue st = (q0 ++ [(50, CbReplayNext h k)])%list
  /\ List.length (draw_history st) = k
  /\ Forall (fresh_type shape_types) (draw_history st).

(** Relations between the state before and after a step, used to say
    what the step leaves alone: the settings; the history; and a canvas
    that only gained items, on top of the old ones. *)
Definition same_settings (st st' : app) : Prop := SETTINGS st' = SETTINGS st.

Definition same_history (st st' : app) : Prop :=
  draw_history st' = draw_history st /\ frame_count st' = frame_count st.

Definition only_appends (st st' : app) : Prop :=
  exists extra,
    c_items (canvas st') = (c_items (canvas st) ++ extra)%list
    /\ Forall (fun p => (c_next (canvas st) <= fst p)%nat) extra
    /\ (c_next (canvas st) <= c_next (canvas st'))%nat.

(** The number of live items with a tag, and the live items without
    it. *)
Definition count_tag (tag : string) (c : canvas_t) : nat :=
  List.length (filter (fun p => has_tag tag (snd p)) (c_items c)).

Definition without_tag (tag : string) (c : canvas_t) : list (nat * item) :=
  filter (fun p => negb (has_tag tag (snd p))) (c_items c).

(** Whether an item id is among the ids of a list. *)
Definition id_in (ids : list nat) (p : nat * item) : bool :=
  existsb (Nat.eqb (fst p)) ids.

(** The ids a history record holds: its items, then its mirror items. *)
Definition record_ids (r : shape_record) : list nat :=
  (rec_items r ++ get_mirror_items r)%list.

(** The number of grid lines [draw_grid] makes on a canvas of extent
    [w] by [h]. *)
Definition grid_lines (w h : Z) : nat :=
  (List.length (range_step w 50) + List.length (range_step h 50))%nat.

(** The grid lines with the given coordinate lists, numbered from
    [next]. *)
Definition line_items (next : nat) (coords : list (list Z))
  : list (nat * item) :=
  combine (seq next (List.length coords))
          (map (fun co => mk_item "line" co grid_opts) coords).

(** The grid that [draw_grid] lays over a canvas of extent [w] by [h]
    whose next free id is [next]: the vertical lines, then the
    horizontal ones. *)
Definition grid_items (next : nat) (w h : Z) : list (nat * item) :=
  (line_items next (map (fun x => [x; 0; x; h]) (range_step w 50))
   ++ line_items (next + List.length (range_step w 50))
        (map (fun y => [0; y; w; y]) (range_step h 50)))%list.

(** The meme text item and the watermark item as [clear_canvas],
    [animate] and [add_meme_text] create them. *)
Definition meme_item (w h : Z) (text font : string) (size : Z) : item :=
  mk_item "text" [w / 2; h - 50]
    [("text", VStr text); ("fill", VStr "white");
     ("font", VFont font size "bold")].

Definition watermark_item (w h : Z) (text : string) : item :=
  mk_item "text" [w - 80; h - 20]
    [("text", VStr text); ("fill", VStr "#888888");
     ("font", VFont "Arial" 8 "italic")].

(** The text option of an item. *)
Definition item_text (it : item) : option optval :=
  option_map snd (find (fun o => String.eqb (fst o) "text") (item_opts it)).

(** The state with another custom palette. *)
Definition with_palette (p : string) (st : app) : app :=
  set_SETTINGS (set_custom_palette p (SETTINGS st)) st.

(** The overlays that [clear_canvas] lays over the emptied canvas, the
    first item of each numbered [next]: the grid, the meme text and the
    watermark, each if its setting asks for it. *)
Definition shown_grid (st : app) (next : nat) : list (nat * item) :=
  if grid_overlay (SETTINGS st)
  then grid_items next (CANVAS_WIDTH st) (CANVAS_HEIGHT st)
  else [].

Definition shown_meme (st : app) (next : nat) : list (nat * item) :=
  if nonempty (meme_text (SETTINGS st))
  then [(next,
         meme_item (CANVAS_WIDTH st) (CANVAS_HEIGHT st)
           (meme_text (SETTINGS st)) (meme_font (SETTINGS st))
           (meme_font_size (SETTINGS st)))]
  else [].

Definition shown_watermark (st : app) (next : nat) : list (nat * item) :=
  if watermark_enabled (SETTINGS st)
  then [(next,
         watermark_item (CANVAS_WIDTH st) (CANVAS_HEIGHT st)
           (watermark_text (SETTINGS st)))]
  else [].

(** A handle that is unset or names a live item. *)
Definition handle_usable (h : option nat) (c : canvas_t) : Prop :=
  match h with
  | None => True
  | Some id => canvas_find id c <> None
  end.

(** An item id that names no live item of the canvas. *)
Definition dead (id : nat) (c : canvas_t) : Prop :=
  Forall (fun p => Nat.eqb (fst p) id = false) (c_items c).

(** The top of the display list. *)
Definition top_item (c : canvas_t) : option (nat * item) :=
  match rev (c_items c) with
  | [] => None
  | p :: _ => Some p
  end.

End App.

Arguments app G : clear implicits.
Arguments App G A : clear implicits.
Arguments mk_app {G}.

(* ------------------------------------------------------------------ *)
(** ** Concrete states                                                  *)
(* ------------------------------------------------------------------ *)

(** The values [__init__] gives (lines 85-119), over the scripted
    generator. *)
Definition default_settings : settings :=
  mk_settings 50 300 "continuous" 5 10 100 false false false "#000000"
    EmptyString false "My Watermark" EmptyString "Impact" 32 None.

Definition default_shape_types : list (string * bool) :=
  [("circle", true); ("line", true); ("arc", true);
   ("rectangle", true); ("triangle", true)].

Definition default_widgets : widgets :=
  mk_widgets "Normal" false "continuous" 50 EmptyString.

Definition empty_canvas : canvas_t := mk_canvas [] 1 "#000000".

Definition initial_app (script : list Z) : app (list Z) :=
  mk_app default_widgets 800 600 false 0 [] None None default_settings
    default_shape_types empty_canvas "Status: Ready" script
    [(50, CbAnimate)].

Definition with_shape_types (t : list (string * bool)) (a : app (list Z))
  : app (list Z) :=
  mk_app (tkvars a) (CANVAS_WIDTH a) (CANVAS_HEIGHT a) (paused a)
    (frame_count a) (draw_history a) (meme_text_id a) (watermark_id a)
    (SETTINGS a) t (canvas a) (status_label a) (rng a) (after_queue a).

Definition with_widgets (w : widgets) (a : app (list Z)) : app (list Z) :=
  mk_app w (CANVAS_WIDTH a) (CANVAS_HEIGHT a) (paused a)
    (frame_count a) (draw_history a) (meme_text_id a) (watermark_id a)
    (SETTINGS a) (SHAPE_TYPES a) (canvas a) (status_label a) (rng a)
    (after_queue a).

Definition with_canvas_width (w : Z) (a : app (list Z)) : app (list Z) :=
  mk_app (tkvars a) w (CANVAS_HEIGHT a) (paused a)
    (frame_count a) (draw_history a) (meme_text_id a) (watermark_id a)
    (SETTINGS a) (SHAPE_TYPES a) (canvas a) (status_label a) (rng a)
    (after_queue a).

Definition paused_app : app (list Z) := set_paused true (initial_app []).

Definition seed_app (text : string) : app (list Z) :=
  with_widgets (mk_widgets "Normal" false "continuous" 50 text)
    (initial_app [7; 7; 7]).

(** States used to run the model: one circle ahead; no shape type
    enabled; the mirror flag set with a triangle ahead; a custom
    palette of one colour; an auto-clear threshold of three frames; a
    history of one line, the script used up; burst mode on a canvas
    whose width was set to -5 through the size dialogue. *)
Definition circle_app : app (list Z) := initial_app [0; 5; 100; 200; 255].

Definition no_shapes_app : app (list Z) :=
  with_shape_types
    [("circle", false); ("line", false); ("arc", false);
     ("rectangle", false); ("triangle", false)]
    circle_app.

Definition mirror_app : app (list Z) :=
  set_SETTINGS (set_mirror_drawing true default_settings)
    (initial_app [4; 5; 100; 200; 255; 3; 4; 5; 6]).

(** The mirror flag set on a canvas [2^53 + 1] wide. *)
Definition wide_mirror_app : app (list Z) :=
  with_canvas_width (2 ^ 53 + 1) mirror_app.

Definition palette_app : app (list Z) :=
  with_palette "#ff0000" circle_app.

Definition threshold_app : app (list Z) :=
  set_SETTINGS
    (mk_settings 50 3 "continuous" 5 10 100 false false false "#000000"
       EmptyString false "My Watermark" EmptyString "Impact" 32 None)
    (initial_app []).

Definition line_drawn_app : app (list Z) :=
  final_state (draw_shape (initial_app [1; 5; 100; 200; 255; 300; 400; 2])).

Definition burst_widgets : widgets :=
  mk_widgets "Normal" false "burst" 50 EmptyString.

Definition broken_burst_app : app (list Z) :=
  set_after_queue []
    (with_canvas_width (-5) (with_widgets burst_widgets circle_app)).

(** Further states: a rectangle, an arc and a line ahead; an arc ahead
    with the mirror flag set; burst mode on the initial canvas. *)
Definition rectangle_app : app (list Z) :=
  initial_app [3; 5; 100; 200; 255].

Definition arc_app : app (list Z) :=
  initial_app [2; 5; 100; 200; 255; 90; 45].

Definition line_app : app (list Z) :=
  initial_app [1; 5; 100; 200; 255; 300; 400; 2].

Definition triangle_app : app (list Z) :=
  initial_app [4; 5; 100; 200; 255; 3; 4; 5; 6].

Definition arc_mirror_app : app (list Z) :=
  set_SETTINGS (set_mirror_drawing true default_settings) arc_app.

Definition burst_app : app (list Z) :=
  with_widgets burst_widgets circle_app.

(** The meme text was set to "hello" and then emptied. *)
Definition emptied_meme_app : app (list Z) :=
  final_state
    (add_meme_text EmptyString
       (final_state (add_meme_text "hello" (initial_app [])))).

(* ------------------------------------------------------------------ *)
(** ** Properties                                                       *)
(* ------------------------------------------------------------------ *)

Section Properties.

Context {G : Type} {RS : RandomSource G} {IP : IntParser}.

Local Abbreviation app := (app G).
Local Abbreviation App := (App G).

Local Open Scope list_scope.

(** *** The monad *)

Lemma bind_Ret_inv {A B} (c : App A) (k : A -> App B) st b st' :
  bind c k st = Ret b st' ->
  exists a st1, c st = Ret a st1 /\ k a st1 = Ret b st'.
Proof.
  unfold bind. destruct (c st) as [a st1 | e st1]; intro H.
  - exists a, st1. split; [reflexivity | exact H].
  - discriminate H.
Qed.

Lemma bind_Ret {A B} (c : App A) (k : A -> App B) st a st1 :
  c st = Ret a st1 -> bind c k st = k a st1.
Proof. intro H. unfold bind. rewrite H. reflexivity. Qed.

Lemma bind_Raise {A B} (c : App A) (k : A -> App B) st e st1 :
  c st = Raise e st1 -> bind c k st = Raise e st1.
Proof. intro H. unfold bind. rewrite H. reflexivity. Qed.

(** *** [random] *)

Lemma randint_Ret_inv lo hi st v st' :
  randint lo hi st = Ret v st' ->
  lo <= v <= hi /\ exists g, st' = set_rng g st.
Proof.
  unfold randint. destruct (hi <? lo) eqn:E; [discriminate |].
  apply Z.ltb_ge in E.
  pose proof (randbelow_range (hi - lo + 1) (rng st) ltac:(lia)) as R.
  destruct (randbelow (hi - lo + 1) (rng st)) as [r g]. simpl in R.
  intro H. inversion H; subst. split; [lia | exists g; reflexivity].
Qed.

Lemma randint_returns lo hi st :
  lo <= hi ->
  exists v g, randint lo hi st = Ret v (set_rng g st) /\ lo <= v <= hi.
Proof.
  intro L. unfold randint.
  destruct (hi <? lo) eqn:E; [apply Z.ltb_lt in E; lia |].
  pose proof (randbelow_range (hi - lo + 1) (rng st) ltac:(lia)) as R.
  destruct (randbelow (hi - lo + 1) (rng st)) as [r g]. simpl in R.
  exists (lo + r), g. split; [reflexivity | lia].
Qed.

Lemma randint_Raise_inv lo hi st e st' :
  randint lo hi st = Raise e st' -> e = ValueError /\ st' = st /\ hi < lo.
Proof.
  unfold randint. destruct (hi <? lo) eqn:E.
  - intro H. inversion H. apply Z.ltb_lt in E. auto.
  - destruct (randbelow (hi - lo + 1) (rng st)). discriminate.
Qed.

Lemma randint_empty lo hi st :
  hi < lo -> randint lo hi st = Raise ValueError st.
Proof.
  intro L. unfold randint. apply Z.ltb_lt in L. rewrite L. reflexivity.
Qed.

Lemma choice_returns {A} (xs : list A) st :
  xs <> [] ->
  exists x g, choice xs st = Ret x (set_rng g st) /\ In x xs.
Proof.
  intro N. unfold choice. destruct xs as [| x0 xs0] eqn:E; [congruence |].
  rewrite <- E in *.
  assert (0 < Z.of_nat (List.length xs)) as Hlen
      by (subst xs; simpl; lia).
  pose proof (randbelow_range _ (rng st) Hlen) as R.
  destruct (randbelow (Z.of_nat (List.length xs)) (rng st)) as [r g].
  simpl in R.
  destruct (nth_error xs (Z.to_nat r)) as [x |] eqn:Nth.
  - exists x, g. split; [reflexivity |]. eapply nth_error_In; eauto.
  - apply nth_error_None in Nth. lia.
Qed.

Lemma choice_Ret_inv {A} (xs : list A) st x st' :
  choice xs st = Ret x st' -> In x xs /\ exists g, st' = set_rng g st.
Proof.
  destruct xs as [| x0 xs0] eqn:E; [discriminate |]. rewrite <- E.
  assert (xs <> []) as N by (subst; discriminate).
  destruct (choice_returns xs st N) as (y & g & Hc & Hin).
  rewrite Hc. intro H. inversion H; subst. split; [exact Hin | eauto].
Qed.

Lemma choice_Raise_inv {A} (xs : list A) st e st' :
  choice xs st = Raise e st' -> xs = [].
Proof.
  destruct xs as [| x0 xs0] eqn:E; [reflexivity |]. rewrite <- E.
  assert (xs <> []) as N by (subst; discriminate).
  destruct (choice_returns xs st N) as (y & g & Hc & _).
  rewrite Hc. discriminate.
Qed.

Lemma random_color_returns st :
  exists n g, random_color st = Ret (hex_color n) (set_rng g st)
              /\ 0 <= n <= 16777215.
Proof.
  destruct (randint_returns 0 16777215 st ltac:(lia)) as (n & g & H & R).
  exists n, g. split; [| exact R].
  unfold random_color. erewrite bind_Ret by exact H. reflexivity.
Qed.

Lemma random_color_Ret_inv st c st' :
  random_color st = Ret c st' ->
  (exists n, 0 <= n <= 16777215 /\ c = hex_color n)
  /\ exists g, st' = set_rng g st.
Proof.
  destruct (random_color_returns st) as (n & g & H & R).
  rewrite H. intro E. inversion E; subst. split; eauto.
Qed.

(** *** Running the pure steps *)

Lemma bind_ret {A B} (a : A) (k : A -> App B) st :
  bind (ret a) k st = k a st.
Proof. reflexivity. Qed.

Lemma bind_gets {A B} (f : app -> A) (k : A -> App B) st :
  bind (gets f) k st = k (f st) st.
Proof. reflexivity. Qed.

Lemma bind_setting {A B} (f : settings -> A) (k : A -> App B) st :
  bind (setting f) k st = k (f (SETTINGS st)) st.
Proof. reflexivity. Qed.

Lemma bind_modify {B} (f : app -> app) (k : unit -> App B) st :
  bind (modify f) k st = k tt (f st).
Proof. reflexivity. Qed.

Lemma bind_update_settings {B} f (k : unit -> App B) st :
  bind (update_settings f) k st
  = k tt (set_SETTINGS (f (SETTINGS st)) st).
Proof. reflexivity. Qed.

Lemma bind_on_canvas {B} f (k : unit -> App B) st :
  bind (on_canvas f) k st = k tt (set_canvas (f (canvas st)) st).
Proof. reflexivity. Qed.

Lemma bind_status {B} text (k : unit -> App B) st :
  bind (status text) k st = k tt (set_status_label text st).
Proof. reflexivity. Qed.

Lemma bind_create {B} ty coords opts (k : nat -> App B) st :
  bind (create ty coords opts) k st
  = k (c_next (canvas st))
      (set_canvas (snd (canvas_create ty coords opts (canvas st))) st).
Proof. reflexivity. Qed.

Lemma bind_bind {A B C} (c : App A) (k : A -> App B) (k' : B -> App C) st :
  bind (bind c k) k' st = bind c (fun a => bind (k a) k') st.
Proof. unfold bind. destruct (c st); reflexivity. Qed.

Create Rewrite HintDb mrun.
#[local] Hint Rewrite @bind_ret @bind_gets @bind_setting @bind_modify
  @bind_update_settings @bind_on_canvas @bind_status @bind_create : mrun.

Lemma touched_id (st : app) :
  touched st (SETTINGS st) (canvas st) (draw_history st) (rng st) = st.
Proof. destruct st; reflexivity. Qed.

Lemma style_only_refl (s : settings) : style_only s s.
Proof. destruct s; reflexivity. Qed.

(** *** The paused tick and the seed entry *)

Lemma animate_paused st :
  paused st = true ->
  animate st =
  Ret tt (set_after_queue
            (after_queue st ++ [(speed_scale (tkvars st), CbAnimate)])%list
            st).
Proof.
  intro P. unfold animate. rewrite bind_gets. rewrite P. reflexivity.
Qed.

(** C10.  In a paused state the tick returns normally and leaves the
    frame counter, the draw history, the canvas and both overlay handles
    as they were (with every other attribute, the generator included);
    all it does is append one request for the next tick, with the value
    the speed control has at that moment as its delay.  The same holds
    when the tick is taken from the timer queue by the event loop. *)
Theorem paused_tick_only_reschedules st :
  paused st = true ->
  animate st =
    Ret tt (set_after_queue
              (after_queue st ++ [(speed_scale (tkvars st), CbAnimate)])%list
              st)
  /\ (forall st', animate st = Ret tt st' ->
        frame_count st' = frame_count st
        /\ draw_history st' = draw_history st
        /\ canvas st' = canvas st
        /\ meme_text_id st' = meme_text_id st
        /\ watermark_id st' = watermark_id st
        /\ SETTINGS st' = SETTINGS st
        /\ rng st' = rng st
        /\ status_label st' = status_label st
        /\ paused st' = true
        /\ after_queue st' =
             (after_queue st ++ [(speed_scale (tkvars st), CbAnimate)])%list).
Proof.
  intro P. split; [apply animate_paused; exact P |].
  intros st' H. rewrite (animate_paused st P) in H.
  inversion H; subst; clear H. cbn. rewrite P. repeat split.
Qed.

(** C9.  [set_random_seed] never raises.  When [int] refuses the text
    of the seed entry, only the status label changes (to "Invalid seed
    value"): the [random_seed] setting and the generator keep their
    prior values.  When [int] reads it as [v], the generator is
    re-seeded with [v], [random_seed] becomes [v], the status label
    reports it and nothing else changes. *)
Theorem set_random_seed_spec (st : app) :
  exists st',
    set_random_seed st = Ret tt st'
    /\ (py_int (seed_entry (tkvars st)) = None ->
        st' = set_status_label "Invalid seed value" st
        /\ random_seed (SETTINGS st') = random_seed (SETTINGS st)
        /\ rng st' = rng st)
    /\ (forall v,
          py_int (seed_entry (tkvars st)) = Some v ->
          st' = set_status_label ("Seed set to " ++ str_of_int v)%string
                  (set_SETTINGS (set_random_seed_key (Some v) (SETTINGS st))
                     (set_rng (seed v) st))
          /\ random_seed (SETTINGS st') = Some v
          /\ rng st' = seed v
          /\ status_label st' = ("Seed set to " ++ str_of_int v)%string).
Proof.
  unfold set_random_seed. rewrite bind_gets.
  destruct (py_int (seed_entry (tkvars st))) as [v |].
  - eexists. split; [reflexivity |]. split; [discriminate |].
    intros v' E. inversion E; subst. repeat split.
  - eexists. split; [reflexivity |]. split; [| discriminate].
    intros _. repeat split.
Qed.

(** *** The pieces of [draw_shape] *)

Lemma set_rng_id (st : app) : set_rng (rng st) st = st.
Proof. destruct st; reflexivity. Qed.

(** Forward steps through a draw that cannot fail here. *)
Ltac run_choice :=
  match goal with
  | |- context [bind (choice ?xs) _ ?s] =>
      let H := fresh "Hc" in
      destruct (choice_returns xs s ltac:(discriminate)) as (? & ? & H & ?);
      erewrite bind_Ret by exact H
  end.

Ltac run_randint :=
  match goal with
  | |- context [bind (randint ?lo ?hi) _ ?s] =>
      let H := fresh "Hr" in
      destruct (randint_returns lo hi s ltac:(cbn in *; lia))
        as (? & ? & H & ?);
      erewrite bind_Ret by exact H
  end.

(** The steps of UltraRandom on a state in the form [touched]. *)
Lemma set_rng_touched (st : app) s c h g g' :
  set_rng g' (touched st s c h g) = touched st s c h g'.
Proof. reflexivity. Qed.

Lemma update_settings_touched {B} f (k : unit -> App B) (st : app) s c h g :
  bind (update_settings f) k (touched st s c h g)
  = k tt (touched st (f s) c h g).
Proof. reflexivity. Qed.

Lemma randint_touched {B} lo hi (k : Z -> App B) (st : app) s c h g :
  lo <= hi ->
  exists v g',
    bind (randint lo hi) k (touched st s c h g) = k v (touched st s c h g').
Proof.
  intro L. destruct (randint_returns lo hi (touched st s c h g) L)
    as (v & g' & H & _).
  exists v, g'. erewrite bind_Ret by exact H. reflexivity.
Qed.

Lemma choice_touched {A B} (xs : list A) (k : A -> App B) (st : app)
  s c h g :
  xs <> [] ->
  exists x g',
    bind (choice xs) k (touched st s c h g) = k x (touched st s c h g').
Proof.
  intro L. destruct (choice_returns xs (touched st s c h g) L)
    as (v & g' & H & _).
  exists v, g'. erewrite bind_Ret by exact H. reflexivity.
Qed.

Lemma style_only_sets (s : settings) o m p :
  style_only s
    (set_custom_palette p (set_mirror_drawing m (set_outline_only o s))).
Proof. unfold style_only. destruct s; reflexivity. Qed.

Lemma ultra_body_touched (st : app) s c h g :
  exists s' g',
    (o <- choice [true; false] ;;
     update_settings (set_outline_only o) ;;;
     m <- choice [true; false] ;;
     update_settings (set_mirror_drawing m) ;;;
     b <- choice [true; false] ;;
     if (b : bool) then
       c1 <- randint 0 16777215 ;;
       c2 <- randint 0 16777215 ;;
       c3 <- randint 0 16777215 ;;
       update_settings
         (set_custom_palette
            (join "," [hex_color c1; hex_color c2; hex_color c3]))
     else update_settings (set_custom_palette EmptyString))
      (touched st s c h g)
    = Ret tt (touched st s' c h g')
    /\ style_only s s'.
Proof.
  destruct (choice_touched [true; false]
              (fun o => update_settings (set_outline_only o) ;;;
                 m <- choice [true; false] ;;
                 update_settings (set_mirror_drawing m) ;;;
                 b <- choice [true; false] ;;
                 if (b : bool) then
                   c1 <- randint 0 16777215 ;;
                   c2 <- randint 0 16777215 ;;
                   c3 <- randint 0 16777215 ;;
                   update_settings
                     (set_custom_palette
                        (join "," [hex_color c1; hex_color c2;
                                   hex_color c3]))
                 else update_settings (set_custom_palette EmptyString))
              st s c h g ltac:(discriminate)) as (o & g1 & ->).
  rewrite update_settings_touched.
  match goal with
  | |- context [bind (choice ?xs) ?k (touched _ ?s0 ?c0 ?h0 ?g0)] =>
      destruct (choice_touched xs k st s0 c0 h0 g0 ltac:(discriminate))
        as (m & g2 & ->)
  end.
  rewrite update_settings_touched.
  match goal with
  | |- context [bind (choice ?xs) ?k (touched _ ?s0 ?c0 ?h0 ?g0)] =>
      destruct (choice_touched xs k st s0 c0 h0 g0 ltac:(discriminate))
        as (b & g3 & ->)
  end.
  destruct b.
  - do 3 match goal with
         | |- context [bind (randint ?lo ?hi) ?k (touched _ ?s0 ?c0 ?h0 ?g0)] =>
             let v := fresh "v" in
             let g' := fresh "g" in
             destruct (randint_touched lo hi k st s0 c0 h0 g0 ltac:(lia))
               as (v & g' & ->)
         end.
    eexists _, _. split; [reflexivity | apply style_only_sets].
  - eexists _, _. split; [reflexivity | apply style_only_sets].
Qed.

Lemma ultra_random_total st :
  exists s' g,
    ultra_random st = Ret tt (touched st s' (canvas st) (draw_history st) g)
    /\ style_only (SETTINGS st) s'
    /\ (String.eqb (special_mode (tkvars st)) "UltraRandom" = false ->
        s' = SETTINGS st /\ g = rng st).
Proof.
  unfold ultra_random. rewrite bind_gets.
  destruct (String.eqb (special_mode (tkvars st)) "UltraRandom") eqn:E.
  - destruct (ultra_body_touched st (SETTINGS st) (canvas st)
                (draw_history st) (rng st)) as (s' & g' & H & HS).
    rewrite touched_id in H.
    exists s', g'. split; [exact H |]. split; [exact HS | discriminate].
  - exists (SETTINGS st), (rng st). rewrite touched_id.
    split; [reflexivity |]. split; [apply style_only_refl | auto].
Qed.

Lemma choose_shape_type_total st :
  exists ty g,
    choose_shape_type st = Ret ty (set_rng g st)
    /\ (available_shapes (SHAPE_TYPES st) = [] -> ty = "circle")
    /\ (available_shapes (SHAPE_TYPES st) <> [] ->
        In ty (available_shapes (SHAPE_TYPES st))).
Proof.
  unfold choose_shape_type. rewrite bind_gets.
  destruct (available_shapes (SHAPE_TYPES st)) as [| a av] eqn:E.
  - exists "circle", (rng st). rewrite set_rng_id.
    split; [reflexivity |]. split; [reflexivity | congruence].
  - destruct (choice_returns (a :: av) st ltac:(discriminate))
      as (ty & g & H & Hin).
    exists ty, g. split; [exact H |]. split; [discriminate | auto].
Qed.

(** Backward steps through a draw that returned. *)
Ltac inv_randint H :=
  match type of H with
  | bind (randint ?lo ?hi) _ ?s = Ret _ _ =>
      let E := fresh "Er" in
      destruct (randint lo hi s) as [? ? | ? ?] eqn:E;
      [ erewrite bind_Ret in H by exact E;
        apply randint_Ret_inv in E; destruct E as (? & ? & ->)
      | erewrite bind_Raise in H by exact E; discriminate H ]
  end.

Tactic Notation "inv_randint_in" hyp(H) "as" ident(v) ident(g) ident(R) :=
  match type of H with
  | bind (randint ?lo ?hi) _ ?s = Ret _ _ =>
      let E := fresh "Er" in
      destruct (randint lo hi s) as [v ? | ? ?] eqn:E;
      [ erewrite bind_Ret in H by exact E;
        apply randint_Ret_inv in E; destruct E as (R & g & ->)
      | erewrite bind_Raise in H by exact E; discriminate H ]
  end.

Ltac inv_ret H := unfold ret in H; inversion H; subst; clear H.

Lemma set_canvas_id (st : app) : set_canvas (canvas st) st = st.
Proof. destruct st; reflexivity. Qed.

Lemma draw_primary_Ret_inv ty size x y color ofl st d st' :
  draw_primary ty size x y color ofl st = Ret d st' ->
  exists g,
    match primary_kind ty with
    | None => d = ([], None) /\ st' = set_rng g st
    | Some kind =>
        exists coords opts,
          fst d = [c_next (canvas st)]
          /\ st' = set_canvas
                     (snd (canvas_create kind coords opts (canvas st)))
                     (set_rng g st)
          /\ (kind = "line" -> exists w, snd d = Some w)
    end.
Proof.
  unfold draw_primary, primary_kind. intro H.
  destruct (String.eqb ty "circle").
  { rewrite bind_create in H. inv_ret H. exists (rng st).
    rewrite set_rng_id. eexists _, _. repeat split. discriminate. }
  destruct (String.eqb ty "line").
  { rewrite bind_bind, bind_gets in H. inv_randint H.
    rewrite bind_bind, bind_gets in H. inv_randint H.
    inv_randint H. rewrite bind_create in H. inv_ret H.
    eexists. eexists _, _. split; [reflexivity |].
    split; [reflexivity |]. intros _. eexists. reflexivity. }
  destruct (String.eqb ty "arc").
  { inv_randint H. inv_randint H. rewrite bind_create in H. inv_ret H.
    eexists. eexists _, _. repeat split. discriminate. }
  destruct (String.eqb ty "rectangle").
  { rewrite bind_create in H. inv_ret H. exists (rng st).
    rewrite set_rng_id. eexists _, _. repeat split. discriminate. }
  destruct (String.eqb ty "triangle").
  { do 4 inv_randint H. rewrite bind_create in H. inv_ret H.
    eexists. eexists _, _. repeat split. discriminate. }
  inv_ret H. exists (rng st'). rewrite set_rng_id. split; reflexivity.
Qed.

Lemma draw_primary_returns ty size x y color ofl st :
  0 <= CANVAS_WIDTH st -> 0 <= CANVAS_HEIGHT st -> 0 <= size ->
  exists d st', draw_primary ty size x y color ofl st = Ret d st'.
Proof.
  intros HW HH HS. unfold draw_primary.
  destruct (String.eqb ty "circle").
  { rewrite bind_create. eexists _, _. reflexivity. }
  destruct (String.eqb ty "line").
  { rewrite bind_bind, bind_gets. run_randint.
    rewrite bind_bind, bind_gets. run_randint. run_randint.
    rewrite bind_create. eexists _, _. reflexivity. }
  destruct (String.eqb ty "arc").
  { do 2 run_randint. rewrite bind_create. eexists _, _. reflexivity. }
  destruct (String.eqb ty "rectangle").
  { rewrite bind_create. eexists _, _. reflexivity. }
  destruct (String.eqb ty "triangle").
  { do 4 run_randint. rewrite bind_create. eexists _, _. reflexivity. }
  eexists _, _. reflexivity.
Qed.

(** A draw fails with [ValueError] only, and before it creates
    anything. *)
Lemma draw_primary_Raise_inv ty size x y color ofl st e st' :
  draw_primary ty size x y color ofl st = Raise e st' ->
  e = ValueError /\ canvas st' = canvas st.
Proof.
  unfold draw_primary. intro H.
  repeat match type of H with
         | (if ?b then _ else _) _ = _ => destruct b
         end;
    repeat first
      [ rewrite bind_create in H
      | rewrite bind_bind, bind_gets in H
      | discriminate H
      | match type of H with
        | bind (randint ?lo ?hi) _ ?s = Raise _ _ =>
            let E := fresh "Er" in
            destruct (randint lo hi s) as [? ? | ? ?] eqn:E;
            [ erewrite bind_Ret in H by exact E;
              apply randint_Ret_inv in E; destruct E as (? & ? & ->)
            | erewrite bind_Raise in H by exact E;
              apply randint_Raise_inv in E; destruct E as (-> & -> & _);
              inversion H; subst; split; reflexivity ]
        end ].
Qed.

Lemma primary_kind_shape ty kind :
  primary_kind ty = Some kind -> In kind shape_kinds.
Proof.
  unfold primary_kind, shape_kinds.
  repeat match goal with
         | |- (if ?b then _ else _) = _ -> _ => destruct b
         end; intro H; inversion H; subst; simpl; tauto.
Qed.

Lemma mirror_item_found color ofl wl it (st : app) item :
  canvas_find it (canvas st) = Some item ->
  In (item_type item) shape_kinds ->
  (item_type item = "line" -> exists w, wl = Some w) ->
  exists opts,
    mirror_item color ofl wl it st =
    Ret (Some (c_next (canvas st)))
        (set_canvas
           (snd (canvas_create (item_type item)
                   (mirrored_coords (CANVAS_WIDTH st)
                      (tk_stored (item_type item)
                         (map round64 (item_coords item))))
                   opts (canvas st))) st).
Proof.
  intros F K L. unfold mirror_item.
  rewrite bind_gets, bind_gets, bind_gets.
  unfold canvas_coords, canvas_type. rewrite F. cbn [option_map].
  unfold shape_kinds in K. cbn [In] in K.
  destruct K as [K | [K | [K | [K | [K | []]]]]]; rewrite <- K in *;
    cbn [type_is String.eqb Ascii.eqb Bool.eqb].
  - rewrite bind_create. eexists. reflexivity.
  - destruct (L eq_refl) as (w & ->). rewrite bind_create.
    eexists. reflexivity.
  - rewrite bind_create. eexists. reflexivity.
  - rewrite bind_create. eexists. reflexivity.
  - rewrite bind_create. eexists. reflexivity.
Qed.

Lemma mirror_item_frame color ofl wl it (st : app) o :
  mirror_item color ofl wl it st = o ->
  exists c, final_state o = set_canvas c st.
Proof.
  unfold mirror_item. rewrite bind_gets, bind_gets, bind_gets. intros <-.
  repeat match goal with
         | |- context [if ?b then _ else _] => destruct b
         end;
    try (destruct wl);
    try rewrite bind_create;
    try (eexists; reflexivity);
    exists (canvas st); rewrite set_canvas_id; reflexivity.
Qed.

Lemma mirror_loop_frame color ofl wl items :
  forall acc (st : app), exists c,
    final_state (mirror_loop color ofl wl items acc st) = set_canvas c st.
Proof.
  induction items as [| it rest IH]; intros acc st.
  - exists (canvas st). rewrite set_canvas_id. reflexivity.
  - cbn [mirror_loop]. unfold bind at 1.
    destruct (mirror_item_frame color ofl wl it st _ eq_refl) as (c1 & F1).
    destruct (mirror_item color ofl wl it st) as [m s1 | e s1];
      cbn [final_state] in F1; subst s1.
    + match goal with |- context [mirror_loop _ _ _ rest ?a ?s] =>
        destruct (IH a s) as (c2 & F2) end.
      exists c2. rewrite F2. reflexivity.
    + exists c1. reflexivity.
Qed.

(** *** [draw_shape] taken apart

    A run of [draw_shape] that returns went through: the sampling, on a
    state [st1] that differs from [st] in the generator and (under
    UltraRandom) the three style settings; the primary item, reaching
    [st2]; the mirror pass when the flag is set, reaching [st3]; and the
    append to the history. *)
Lemma draw_shape_locals_Ret_inv (st : app) loc st' :
  draw_shape_locals st = Ret loc st' ->
  exists s' g1 d st2 st3,
    let st1 := touched st s' (canvas st) (draw_history st) g1 in
    style_only (SETTINGS st) s'
    /\ (String.eqb (special_mode (tkvars st)) "UltraRandom" = false ->
        s' = SETTINGS st)
    /\ (available_shapes (SHAPE_TYPES st) = [] ->
        loc_shape_type loc = "circle")
    /\ (available_shapes (SHAPE_TYPES st) <> [] ->
        In (loc_shape_type loc) (available_shapes (SHAPE_TYPES st)))
    /\ min_shape_size s' <= loc_size loc <= max_shape_size s'
    /\ 0 <= loc_x loc <= CANVAS_WIDTH st
    /\ 0 <= loc_y loc <= CANVAS_HEIGHT st
    /\ (exists n, 0 <= n <= 16777215 /\ loc_color loc = hex_color n)
    /\ loc_outline_flag loc = outline_only s'
    /\ draw_primary (loc_shape_type loc) (loc_size loc) (loc_x loc)
         (loc_y loc) (loc_color loc) (loc_outline_flag loc) st1
       = Ret d st2
    /\ (if mirror_drawing s'
        then exists l,
            mirror_loop (loc_color loc) (loc_outline_flag loc) (snd d)
              (fst d) [] st2 = Ret l st3
            /\ rec_mirror_items (loc_record loc) = Some l
        else st3 = st2 /\ rec_mirror_items (loc_record loc) = None)
    /\ rec_type (loc_record loc) = loc_shape_type loc
    /\ rec_items (loc_record loc) = fst d
    /\ st' = set_draw_history (draw_history st3 ++ [loc_record loc]) st3.
Proof.
  unfold draw_shape_locals. intro H.
  destruct (ultra_random_total st) as (s' & g0 & HU & HS & HN).
  erewrite bind_Ret in H by exact HU.
  match type of H with bind choose_shape_type _ ?s = _ =>
    destruct (choose_shape_type_total s) as (ty & g1 & HT & HE & HI) end.
  erewrite bind_Ret in H by exact HT.
  rewrite !bind_setting in H. inv_randint_in H as size g2 Rsize.
  rewrite bind_bind, bind_gets in H. inv_randint_in H as x g3 Rx.
  rewrite bind_bind, bind_gets in H. inv_randint_in H as y g4 Ry.
  match type of H with bind random_color _ ?s = _ =>
    destruct (random_color_returns s) as (n & g5 & HC & HR) end.
  erewrite bind_Ret in H by exact HC.
  rewrite bind_setting in H.
  match type of H with bind (draw_primary ?a ?b ?c ?d ?e ?f) _ ?s = _ =>
    destruct (draw_primary a b c d e f s) as [d0 st2 | e0 st2] eqn:HP;
      [ erewrite bind_Ret in H by exact HP
      | erewrite bind_Raise in H by exact HP; discriminate H ] end.
  rewrite bind_setting in H.
  pose proof (draw_primary_Ret_inv _ _ _ _ _ _ _ _ _ HP) as HPI.
  destruct HPI as (gp & HPI).
  assert (SETTINGS st2 = s') as HS2.
  { destruct (primary_kind ty).
    - destruct HPI as (? & ? & _ & -> & _). reflexivity.
    - destruct HPI as (_ & ->). reflexivity. }
  rewrite HS2 in H. clear HS2 HPI. cbn in Rsize, Rx, Ry, HE, HI.
  destruct (mirror_drawing s') eqn:HM.
  - rewrite bind_bind in H.
    match type of H with bind (mirror_loop ?a ?b ?c ?d ?e) _ ?s = _ =>
      destruct (mirror_loop a b c d e s) as [l st3 | e0 st3] eqn:HL;
        [ erewrite bind_Ret in H by exact HL
        | erewrite bind_Raise in H by exact HL; discriminate H ] end.
    rewrite bind_ret, bind_modify in H. inv_ret H.
    exists s', g5, d0, st2, st3. cbn zeta. cbn [loc_shape_type loc_size
      loc_x loc_y loc_color loc_outline_flag loc_record rec_type rec_items
      rec_mirror_items].
    rewrite HM.
    repeat split; try assumption; try tauto; try lia; eauto.
  - rewrite bind_ret, bind_modify in H. inv_ret H.
    exists s', g5, d0, st2, st2. cbn zeta. cbn [loc_shape_type loc_size
      loc_x loc_y loc_color loc_outline_flag loc_record rec_type rec_items
      rec_mirror_items].
    rewrite HM.
    repeat split; try assumption; try tauto; try lia; eauto.
Qed.

(** *** The canvas *)

Lemma find_app_none {A} (f : A -> bool) (l l' : list A) :
  find f l = None -> find f (l ++ l') = find f l'.
Proof.
  induction l as [| a l IH]; cbn; [reflexivity |].
  destruct (f a); [discriminate | exact IH].
Qed.

Lemma find_app_some {A} (f : A -> bool) (l l' : list A) x :
  find f l = Some x -> find f (l ++ l') = Some x.
Proof.
  induction l as [| a l IH]; cbn; [discriminate |].
  destruct (f a); [auto | exact IH].
Qed.

Lemma wf_find_fresh (c : canvas_t) id :
  canvas_wf c -> (c_next c <= id)%nat ->
  find (fun p => Nat.eqb (fst p) id) (c_items c) = None.
Proof.
  unfold canvas_wf. intros W L.
  induction W as [| p l Hp W IH]; cbn; [reflexivity |].
  destruct (Nat.eqb_spec (fst p) id); [lia | exact IH].
Qed.

Lemma canvas_find_create_new c ty coords opts :
  canvas_wf c ->
  canvas_find (c_next c) (snd (canvas_create ty coords opts c))
  = Some (mk_item ty coords opts).
Proof.
  intro W. unfold canvas_find, canvas_create. cbn [snd c_items].
  rewrite find_app_none by (apply wf_find_fresh; [exact W | lia]).
  cbn. rewrite Nat.eqb_refl. reflexivity.
Qed.

Lemma canvas_wf_create c ty coords opts :
  canvas_wf c -> canvas_wf (snd (canvas_create ty coords opts c)).
Proof.
  unfold canvas_wf, canvas_create. cbn. intro W.
  apply Forall_app. split.
  - eapply Forall_impl; [| exact W]. cbn. intros p Hp. lia.
  - constructor; [cbn; lia | constructor].
Qed.

Lemma filter_fresh (c : canvas_t) id :
  canvas_wf c -> (c_next c <= id)%nat ->
  filter (fun p => negb (Nat.eqb (fst p) id)) (c_items c) = c_items c.
Proof.
  unfold canvas_wf. intros W L.
  induction W as [| p l Hp W IH]; cbn; [reflexivity |].
  destruct (Nat.eqb_spec (fst p) id); [lia |]. cbn. rewrite IH. reflexivity.
Qed.

(** What a returning [draw_shape] did to the canvas and what it put
    into the record: nothing for a type name outside the five; else one
    item with the next free id, and with the mirror flag set a second
    one of the same Tk type whose coordinates are the mirrored ones. *)
Lemma draw_shape_locals_canvas (st : app) loc st' :
  canvas_wf (canvas st) ->
  draw_shape_locals st = Ret loc st' ->
  let c := canvas st in
  let n := c_next c in
  match primary_kind (loc_shape_type loc) with
  | None =>
      canvas st' = canvas st
      /\ rec_items (loc_record loc) = []
      /\ get_mirror_items (loc_record loc) = []
  | Some kind =>
      exists coords opts,
        rec_items (loc_record loc) = [n]
        /\ if mirror_drawing (SETTINGS st')
           then exists opts',
               rec_mirror_items (loc_record loc) = Some [S n]
               /\ canvas st' =
                  mk_canvas
                    (c_items c ++
                     [(n, mk_item kind coords opts);
                      (S n, mk_item kind
                              (mirrored_coords (CANVAS_WIDTH st)
                                 (tk_stored kind (map round64 coords)))
                              opts')])
                    (S (S n)) (c_bg c)
           else rec_mirror_items (loc_record loc) = None
                /\ canvas st' =
                   mk_canvas (c_items c ++ [(n, mk_item kind coords opts)])
                             (S n) (c_bg c)
  end.
Proof.
  intros W H. cbn zeta.
  destruct (draw_shape_locals_Ret_inv st loc st' H)
    as (s' & g1 & d & st2 & st3 & _ & _ & _ & _ & _ & _ & _ & _ & _
        & HP & HMir & _ & HItems & ->).
  destruct (draw_primary_Ret_inv _ _ _ _ _ _ _ _ _ HP) as (gp & HK).
  destruct (primary_kind (loc_shape_type loc)) as [kind |] eqn:EK.
  - destruct HK as (coords & opts & Hd & -> & HLine).
    exists coords, opts. rewrite HItems, Hd. split; [reflexivity |].
    assert (SETTINGS st3 = s') as HS3.
    { destruct (mirror_drawing s').
      - destruct HMir as (l & HL & _).
        match type of HL with mirror_loop ?a ?b ?w ?i ?acc ?s = _ =>
          destruct (mirror_loop_frame a b w i acc s) as (c3 & F3) end.
        rewrite HL in F3. cbn [final_state] in F3. rewrite F3. reflexivity.
      - destruct HMir as (-> & _). reflexivity. }
    cbn [SETTINGS set_draw_history]. rewrite HS3.
    destruct (mirror_drawing s').
    + destruct HMir as (l & HL & HR). rewrite Hd in HL.
      cbn [mirror_loop] in HL.
      match type of HL with bind (mirror_item ?a ?b ?w ?i) _ ?s = _ =>
        destruct (mirror_item_found a b w i s (mk_item kind coords opts))
          as (opts' & HMI) end.
      { cbn [canvas set_canvas]. apply canvas_find_create_new. exact W. }
      { cbn [item_type]. eapply primary_kind_shape. exact EK. }
      { cbn [item_type]. exact HLine. }
      erewrite bind_Ret in HL by exact HMI.
      cbn in HL. inv_ret HL.
      exists opts'. split; [exact HR |].
      cbn. rewrite <- app_assoc. reflexivity.
    + destruct HMir as (-> & HR). split; [exact HR |]. reflexivity.
  - destruct HK as (-> & ->). cbn [fst snd] in *.
    rewrite HItems. unfold get_mirror_items.
    destruct (mirror_drawing s').
    + destruct HMir as (l & HL & ->). cbn in HL. inv_ret HL.
      repeat split.
    + destruct HMir as (-> & ->). repeat split.
Qed.

(** *** What every step leaves alone *)

Lemma style_only_trans s1 s2 s3 :
  style_only s1 s2 -> style_only s2 s3 -> style_only s1 s3.
Proof.
  unfold style_only. intros H12 H23. rewrite H23. rewrite H12.
  reflexivity.
Qed.

Lemma same_env_refl (st : app) : same_env st st.
Proof. unfold same_env. repeat split. apply style_only_refl. Qed.

Lemma same_env_trans (s1 s2 s3 : app) :
  same_env s1 s2 -> same_env s2 s3 -> same_env s1 s3.
Proof.
  unfold same_env. intros (A1 & A2 & A3 & A4 & A5 & A6 & A7 & A8)
                          (B1 & B2 & B3 & B4 & B5 & B6 & B7 & B8).
  repeat split; try congruence. eapply style_only_trans; eauto.
Qed.

Lemma keeps_bind {A B} (c : App A) (k : A -> App B) :
  keeps same_env c -> (forall a, keeps same_env (k a)) ->
  keeps same_env (bind c k).
Proof.
  intros Hc Hk st. unfold bind. specialize (Hc st).
  destruct (c st) as [a s1 | e s1]; cbn [final_state] in *.
  - eapply same_env_trans; [exact Hc | apply Hk].
  - exact Hc.
Qed.

Lemma keeps_ret {A} (a : A) : keeps same_env (ret a : App A).
Proof. intro st. apply same_env_refl. Qed.

Lemma keeps_raise {A} e : keeps same_env (raise e : App A).
Proof. intro st. apply same_env_refl. Qed.

Lemma keeps_gets {A} (f : app -> A) : keeps same_env (gets f).
Proof. intro st. apply same_env_refl. Qed.

Lemma keeps_setting {A} (f : settings -> A) :
  keeps same_env (setting f : App A).
Proof. intro st. apply same_env_refl. Qed.

Lemma keeps_modify (f : app -> app) :
  (forall st, same_env st (f st)) -> keeps same_env (modify f).
Proof. intros H st. apply H. Qed.

Lemma same_env_set_rng g (st : app) : same_env st (set_rng g st).
Proof. unfold same_env. cbn. repeat split. apply style_only_refl. Qed.

Lemma same_env_set_canvas c (st : app) : same_env st (set_canvas c st).
Proof. unfold same_env. cbn. repeat split. apply style_only_refl. Qed.

Lemma keeps_randint lo hi : keeps same_env (randint lo hi).
Proof.
  intro st. unfold randint. destruct (hi <? lo).
  - apply same_env_refl.
  - destruct (randbelow (hi - lo + 1) (rng st)). apply same_env_set_rng.
Qed.

Lemma keeps_choice {A} (xs : list A) : keeps same_env (choice xs).
Proof.
  intro st. unfold choice. destruct xs; [apply same_env_refl |].
  destruct (randbelow _ (rng st)).
  destruct (nth_error _ _); apply same_env_set_rng.
Qed.

Lemma keeps_create ty coords opts :
  keeps same_env (create ty coords opts : App nat).
Proof. intro st. apply same_env_set_canvas. Qed.

Lemma keeps_on_canvas f : keeps same_env (on_canvas f : App unit).
Proof. intro st. apply same_env_set_canvas. Qed.

Lemma keeps_for_each {A} (xs : list A) (body : A -> App unit) :
  (forall x, keeps same_env (body x)) -> keeps same_env (for_each xs body).
Proof.
  intro H. induction xs as [| x xs IH]; cbn [for_each].
  - apply keeps_ret.
  - apply keeps_bind; [apply H | intros _; exact IH].
Qed.

Lemma keeps_repeat_m n (body : App unit) :
  keeps same_env body -> keeps same_env (repeat_m n body).
Proof.
  intro H. induction n as [| n IH]; cbn [repeat_m].
  - apply keeps_ret.
  - apply keeps_bind; [exact H | intros _; exact IH].
Qed.

(** Structural search for [keeps same_env]. *)
Ltac keeps_step :=
  match goal with
  | |- keeps _ (bind _ _) => apply keeps_bind
  | |- forall _, _ => intro
  | |- keeps _ (ret _) => apply keeps_ret
  | |- keeps _ (raise _) => apply keeps_raise
  | |- keeps _ (gets _) => apply keeps_gets
  | |- keeps _ (setting _) => apply keeps_setting
  | |- keeps _ (randint _ _) => apply keeps_randint
  | |- keeps _ (choice _) => apply keeps_choice
  | |- keeps _ (create _ _ _) => apply keeps_create
  | |- keeps _ (on_canvas _) => apply keeps_on_canvas
  | |- keeps _ (for_each _ _) => apply keeps_for_each
  | |- keeps _ (repeat_m _ _) => apply keeps_repeat_m
  | |- keeps _ (if ?b then _ else _) => destruct b
  | |- keeps _ (match ?x with _ => _ end) => destruct x
  | |- keeps _ (modify _) =>
      apply keeps_modify; intro; unfold same_env; cbn; repeat split;
      first [ apply style_only_refl
            | unfold style_only; cbn;
              match goal with |- context [SETTINGS ?s] =>
                destruct (SETTINGS s); reflexivity end ]
  | |- keeps _ (update_settings _) => unfold update_settings
  | |- keeps _ (status _) => fail 1
  | H : keeps same_env ?c |- keeps same_env ?c => exact H
  end.

Ltac keeps_auto := repeat keeps_step.

Lemma keeps_random_color : keeps same_env random_color.
Proof. unfold random_color. keeps_auto. Qed.

Lemma keeps_ultra_random : keeps same_env ultra_random.
Proof. unfold ultra_random. keeps_auto. Qed.

Lemma keeps_choose_shape_type : keeps same_env choose_shape_type.
Proof. unfold choose_shape_type. keeps_auto. Qed.

Lemma keeps_draw_primary ty size x y color ofl :
  keeps same_env (draw_primary ty size x y color ofl).
Proof. unfold draw_primary. keeps_auto. Qed.

Lemma keeps_mirror_item color ofl wl it :
  keeps same_env (mirror_item color ofl wl it : App _).
Proof. unfold mirror_item. keeps_auto. Qed.

Lemma keeps_mirror_loop color ofl wl items :
  forall acc, keeps same_env (mirror_loop color ofl wl items acc : App _).
Proof.
  induction items as [| it rest IH]; intro acc; cbn [mirror_loop].
  - apply keeps_ret.
  - apply keeps_bind; [apply keeps_mirror_item | intro; apply IH].
Qed.

Lemma keeps_draw_shape_locals : keeps same_env draw_shape_locals.
Proof.
  pose proof keeps_ultra_random. pose proof keeps_choose_shape_type.
  pose proof keeps_random_color.
  unfold draw_shape_locals.
  repeat first [ apply keeps_draw_primary | apply keeps_mirror_loop
               | keeps_step ].
Qed.

Lemma keeps_draw_shape : keeps same_env draw_shape.
Proof.
  pose proof keeps_draw_shape_locals. unfold draw_shape. keeps_auto.
Qed.

Lemma keeps_draw_grid : keeps same_env (draw_grid : App _).
Proof. unfold draw_grid. keeps_auto. Qed.

Lemma keeps_create_meme_text : keeps same_env (create_meme_text : App _).
Proof. unfold create_meme_text. keeps_auto. Qed.

Lemma keeps_create_watermark : keeps same_env (create_watermark : App _).
Proof. unfold create_watermark. keeps_auto. Qed.

Lemma keeps_clear_canvas : keeps same_env (clear_canvas : App _).
Proof.
  pose proof keeps_draw_grid. pose proof keeps_create_meme_text.
  pose proof keeps_create_watermark.
  unfold clear_canvas, update_grid. keeps_auto.
Qed.

Lemma keeps_reconcile_meme : keeps same_env (reconcile_meme : App _).
Proof.
  pose proof keeps_create_meme_text. unfold reconcile_meme. keeps_auto.
Qed.

Lemma keeps_reconcile_watermark :
  keeps same_env (reconcile_watermark : App _).
Proof.
  pose proof keeps_create_watermark. unfold reconcile_watermark.
  keeps_auto.
Qed.

Lemma keeps_animate_body : keeps same_env animate_body.
Proof.
  pose proof keeps_draw_shape. pose proof keeps_clear_canvas.
  pose proof keeps_random_color. pose proof keeps_reconcile_meme.
  pose proof keeps_reconcile_watermark.
  unfold animate_body. keeps_auto.
Qed.

(** *** Steps that cannot fail *)

Lemma total_bind {A B} (c : App A) (k : A -> App B) :
  total c -> (forall a, total (k a)) -> total (bind c k).
Proof.
  intros Hc Hk st. destruct (Hc st) as (a & s1 & E).
  erewrite bind_Ret by exact E. apply Hk.
Qed.

Lemma total_ret {A} (a : A) : total (ret a : App A).
Proof. intro st. eexists _, _. reflexivity. Qed.

Lemma total_gets {A} (f : app -> A) : total (gets f).
Proof. intro st. eexists _, _. reflexivity. Qed.

Lemma total_setting {A} (f : settings -> A) : total (setting f : App A).
Proof. intro st. eexists _, _. reflexivity. Qed.

Lemma total_modify (f : app -> app) : total (modify f).
Proof. intro st. eexists _, _. reflexivity. Qed.

Lemma total_create ty coords opts : total (create ty coords opts : App nat).
Proof. intro st. eexists _, _. reflexivity. Qed.

Lemma total_on_canvas f : total (on_canvas f : App unit).
Proof. intro st. eexists _, _. reflexivity. Qed.

Lemma total_random_color : total random_color.
Proof.
  intro st. destruct (random_color_returns st) as (n & g & H & _).
  eexists _, _. exact H.
Qed.

Lemma total_for_each {A} (xs : list A) (body : A -> App unit) :
  (forall x, total (body x)) -> total (for_each xs body).
Proof.
  intro H. induction xs as [| x xs IH]; cbn [for_each].
  - apply total_ret.
  - apply total_bind; [apply H | intros _; exact IH].
Qed.

Ltac total_step :=
  match goal with
  | |- total (bind _ _) => apply total_bind
  | |- forall _, _ => intro
  | |- total (ret _) => apply total_ret
  | |- total (gets _) => apply total_gets
  | |- total (setting _) => apply total_setting
  | |- total (modify _) => apply total_modify
  | |- total (create _ _ _) => apply total_create
  | |- total (on_canvas _) => apply total_on_canvas
  | |- total (for_each _ _) => apply total_for_each
  | |- total (if ?b then _ else _) => destruct b
  | |- total (match ?x with _ => _ end) => destruct x
  | H : total ?c |- total ?c => exact H
  end.

Ltac total_auto := repeat total_step.

Lemma total_draw_grid : total (draw_grid : App _).
Proof. unfold draw_grid. total_auto. Qed.

Lemma total_create_meme_text : total (create_meme_text : App _).
Proof. unfold create_meme_text. total_auto. Qed.

Lemma total_create_watermark : total (create_watermark : App _).
Proof. unfold create_watermark. total_auto. Qed.

Lemma total_clear_canvas : total (clear_canvas : App _).
Proof.
  pose proof total_draw_grid. pose proof total_create_meme_text.
  pose proof total_create_watermark.
  unfold clear_canvas, update_grid. total_auto.
Qed.

Lemma total_reconcile_meme : total (reconcile_meme : App _).
Proof.
  pose proof total_create_meme_text. unfold reconcile_meme. total_auto.
Qed.

Lemma total_reconcile_watermark : total (reconcile_watermark : App _).
Proof.
  pose proof total_create_watermark. unfold reconcile_watermark.
  total_auto.
Qed.

(** *** Steps that leave the counter and the history alone and keep
    the canvas well formed *)

Lemma quiet_refl (st : app) : quiet st st.
Proof. unfold quiet. auto. Qed.

Lemma quiet_trans (s1 s2 s3 : app) : quiet s1 s2 -> quiet s2 s3 -> quiet s1 s3.
Proof.
  unfold quiet. intros (A1 & A2 & A3) (B1 & B2 & B3).
  repeat split; try congruence. auto.
Qed.

Lemma quiet_bind {A B} (c : App A) (k : A -> App B) :
  keeps quiet c -> (forall a, keeps quiet (k a)) -> keeps quiet (bind c k).
Proof.
  intros Hc Hk st. unfold bind. specialize (Hc st).
  destruct (c st) as [a s1 | e s1]; cbn [final_state] in *.
  - eapply quiet_trans; [exact Hc | apply Hk].
  - exact Hc.
Qed.

Lemma quiet_ret {A} (a : A) : keeps quiet (ret a : App A).
Proof. intro st. apply quiet_refl. Qed.

Lemma quiet_gets {A} (f : app -> A) : keeps quiet (gets f).
Proof. intro st. apply quiet_refl. Qed.

Lemma quiet_setting {A} (f : settings -> A) : keeps quiet (setting f : App A).
Proof. intro st. apply quiet_refl. Qed.

Lemma quiet_create ty coords opts :
  keeps quiet (create ty coords opts : App nat).
Proof.
  intro st. unfold quiet. cbn. repeat split. apply canvas_wf_create.
Qed.

Lemma quiet_on_canvas f :
  (forall c, canvas_wf c -> canvas_wf (f c)) ->
  keeps quiet (on_canvas f : App unit).
Proof. intros H st. unfold quiet. cbn. repeat split. apply H. Qed.

Lemma quiet_for_each {A} (xs : list A) (body : A -> App unit) :
  (forall x, keeps quiet (body x)) -> keeps quiet (for_each xs body).
Proof.
  intro H. induction xs as [| x xs IH]; cbn [for_each].
  - apply quiet_ret.
  - apply quiet_bind; [apply H | intros _; exact IH].
Qed.

Lemma quiet_random_color : keeps quiet random_color.
Proof.
  intro st. destruct (random_color_returns st) as (n & g & H & _).
  rewrite H. unfold quiet. cbn. auto.
Qed.

Lemma wf_delete_tag tag c : canvas_wf c -> canvas_wf (canvas_delete_tag tag c).
Proof.
  unfold canvas_wf, canvas_delete_tag. cbn. intro W.
  apply Forall_forall. intros p Hp. apply filter_In in Hp.
  destruct Hp as (Hp & _). eapply Forall_forall in W; eauto.
Qed.

Lemma wf_delete id c : canvas_wf c -> canvas_wf (canvas_delete id c).
Proof.
  unfold canvas_wf, canvas_delete. cbn. intro W.
  apply Forall_forall. intros p Hp. apply filter_In in Hp.
  destruct Hp as (Hp & _). eapply Forall_forall in W; eauto.
Qed.

Lemma wf_delete_all c : canvas_wf (canvas_delete_all c).
Proof. unfold canvas_wf, canvas_delete_all. cbn. constructor. Qed.

Lemma wf_itemconfigure id k v c :
  canvas_wf c -> canvas_wf (canvas_itemconfigure id k v c).
Proof.
  unfold canvas_wf, canvas_itemconfigure. cbn. intro W.
  apply Forall_forall. intros p Hp. apply in_map_iff in Hp.
  destruct Hp as (q & <- & Hq). rewrite Forall_forall in W.
  specialize (W q Hq). destruct (Nat.eqb (fst q) id); exact W.
Qed.

Lemma wf_tag_raise id c : canvas_wf c -> canvas_wf (canvas_tag_raise id c).
Proof.
  unfold canvas_wf, canvas_tag_raise. cbn. intro W.
  apply Forall_forall. intros p Hp. apply in_app_or in Hp.
  destruct Hp as [Hp | Hp]; apply filter_In in Hp; destruct Hp as (Hp & _);
    eapply Forall_forall in W; eauto.
Qed.

Lemma wf_config_bg color c : canvas_wf c -> canvas_wf (canvas_config_bg color c).
Proof. unfold canvas_wf, canvas_config_bg. cbn. auto. Qed.

Ltac quiet_step :=
  match goal with
  | |- keeps _ (bind _ _) => apply quiet_bind
  | |- forall _, _ => intro
  | |- keeps _ (ret _) => apply quiet_ret
  | |- keeps _ (gets _) => apply quiet_gets
  | |- keeps _ (setting _) => apply quiet_setting
  | |- keeps _ (create _ _ _) => apply quiet_create
  | |- keeps _ (on_canvas _) =>
      apply quiet_on_canvas; intros;
      first [ apply wf_delete_tag | apply wf_delete | apply wf_delete_all
            | apply wf_itemconfigure | apply wf_tag_raise
            | apply wf_config_bg ]; assumption
  | |- keeps _ (for_each _ _) => apply quiet_for_each
  | |- keeps _ (if ?b then _ else _) => destruct b
  | |- keeps _ (match ?x with _ => _ end) => destruct x
  | |- keeps _ (modify _) =>
      let st := fresh "st" in intro st; unfold quiet; cbn; auto
  | H : keeps quiet ?c |- keeps quiet ?c => exact H
  end.

Ltac quiet_auto := repeat quiet_step.

Lemma quiet_draw_grid : keeps quiet (draw_grid : App _).
Proof. unfold draw_grid. quiet_auto. Qed.

Lemma quiet_create_meme_text : keeps quiet (create_meme_text : App _).
Proof. unfold create_meme_text. quiet_auto. Qed.

Lemma quiet_create_watermark : keeps quiet (create_watermark : App _).
Proof. unfold create_watermark. quiet_auto. Qed.

Lemma quiet_reconcile_meme : keeps quiet (reconcile_meme : App _).
Proof.
  pose proof quiet_create_meme_text. unfold reconcile_meme. quiet_auto.
Qed.

Lemma quiet_reconcile_watermark : keeps quiet (reconcile_watermark : App _).
Proof.
  pose proof quiet_create_watermark. unfold reconcile_watermark.
  quiet_auto.
Qed.

(** *** One draw, from a state where it cannot fail *)

Lemma style_only_sizes s s' :
  style_only s s' ->
  min_shape_size s' = min_shape_size s
  /\ max_shape_size s' = max_shape_size s
  /\ auto_clear_threshold s' = auto_clear_threshold s
  /\ burst_count s' = burst_count s.
Proof. unfold style_only. intros ->. cbn. auto. Qed.

Lemma ranges_ok_same_env (st st' : app) :
  same_env st st' -> ranges_ok st -> ranges_ok st'.
Proof.
  unfold same_env, ranges_ok.
  intros (_ & HW & HH & _ & _ & _ & _ & HS) R.
  apply style_only_sizes in HS. destruct HS as (-> & -> & _).
  rewrite HW, HH. exact R.
Qed.

Lemma draw_shape_locals_frame (st : app) loc st' :
  draw_shape_locals st = Ret loc st' ->
  exists s' c' g,
    st' = touched st s' c' (draw_history st ++ [loc_record loc]) g.
Proof.
  intro H.
  destruct (draw_shape_locals_Ret_inv st loc st' H)
    as (s' & g1 & d & st2 & st3 & _ & _ & _ & _ & _ & _ & _ & _ & _
        & HP & HMir & _ & _ & ->).
  destruct (draw_primary_Ret_inv _ _ _ _ _ _ _ _ _ HP) as (gp & HK).
  assert (exists c2, st2 = touched st s' c2 (draw_history st) gp) as (c2 & ->).
  { destruct (primary_kind (loc_shape_type loc)).
    - destruct HK as (coords & opts & _ & -> & _). eexists. reflexivity.
    - destruct HK as (_ & ->). eexists. reflexivity. }
  assert (exists c3, st3 = touched st s' c3 (draw_history st) gp) as (c3 & ->).
  { destruct (mirror_drawing s').
    - destruct HMir as (l & HL & _).
      match type of HL with mirror_loop ?a ?b ?w ?i ?acc ?s = _ =>
        destruct (mirror_loop_frame a b w i acc s) as (c3 & F3) end.
      rewrite HL in F3. cbn [final_state] in F3. exists c3. exact F3.
    - destruct HMir as (-> & _). eexists. reflexivity. }
  eexists _, _, _. reflexivity.
Qed.

Lemma draw_shape_locals_returns (st : app) :
  ranges_ok st -> canvas_wf (canvas st) ->
  exists loc st', draw_shape_locals st = Ret loc st'.
Proof.
  intros (HW & HH & Hmin & Hmax) W. unfold draw_shape_locals.
  destruct (ultra_random_total st) as (s' & g0 & HU & HS & _).
  destruct (style_only_sizes _ _ HS) as (Emin & Emax & _).
  erewrite bind_Ret by exact HU.
  match goal with |- context [bind choose_shape_type _ ?s] =>
    destruct (choose_shape_type_total s) as (ty & g1 & HT & _) end.
  erewrite bind_Ret by exact HT.
  rewrite !bind_setting.
  match goal with
  | |- context [bind (randint ?lo ?hi) _ ?s] =>
      destruct (randint_returns lo hi s ltac:(cbn; lia))
        as (size & g2 & Hsz & Rsz);
      erewrite bind_Ret by exact Hsz
  end.
  rewrite bind_bind, bind_gets. run_randint.
  rewrite bind_bind, bind_gets. run_randint.
  match goal with |- context [bind random_color _ ?s] =>
    destruct (random_color_returns s) as (n & g5 & HC & _) end.
  erewrite bind_Ret by exact HC.
  rewrite bind_setting.
  match goal with |- context [bind (draw_primary ?a ?b ?c ?d ?e ?f) _ ?s] =>
    destruct (draw_primary_returns a b c d e f s
                ltac:(cbn; lia) ltac:(cbn; lia) ltac:(cbn in Rsz; lia))
      as (d0 & st2 & HP) end.
  erewrite bind_Ret by exact HP. rewrite bind_setting.
  destruct (draw_primary_Ret_inv _ _ _ _ _ _ _ _ _ HP) as (gp & HK).
  match goal with |- context [if ?b then _ else _] => destruct b end.
  - rewrite bind_bind.
    destruct (primary_kind ty) as [kind |] eqn:EK.
    + destruct HK as (coords & opts & Hd & -> & HLine). rewrite Hd.
      cbn [mirror_loop]. rewrite bind_bind.
      match goal with |- context [bind (mirror_item ?a ?b ?w ?i) _ ?s] =>
        destruct (mirror_item_found a b w i s (mk_item kind coords opts))
          as (opts' & HMI) end.
      { cbn [canvas set_canvas]. apply canvas_find_create_new. exact W. }
      { cbn [item_type]. eapply primary_kind_shape. exact EK. }
      { cbn [item_type]. exact HLine. }
      erewrite bind_Ret by exact HMI.
      eexists _, _. reflexivity.
    + destruct HK as (-> & ->). eexists _, _. reflexivity.
  - eexists _, _. reflexivity.
Qed.

Lemma draw_shape_step (st : app) :
  ranges_ok st -> canvas_wf (canvas st) ->
  exists loc st',
    draw_shape_locals st = Ret loc st'
    /\ same_env st st'
    /\ frame_count st' = frame_count st
    /\ meme_text_id st' = meme_text_id st
    /\ watermark_id st' = watermark_id st
    /\ draw_history st' = draw_history st ++ [loc_record loc]
    /\ canvas_wf (canvas st')
    /\ ranges_ok st'.
Proof.
  intros R W.
  destruct (draw_shape_locals_returns st R W) as (loc & st' & H).
  exists loc, st'. split; [exact H |].
  pose proof (keeps_draw_shape_locals st) as K. rewrite H in K.
  cbn [final_state] in K.
  destruct (draw_shape_locals_frame st loc st' H) as (s' & c' & g & E).
  pose proof (draw_shape_locals_canvas st loc st' W H) as C.
  cbn zeta in C.
  split; [exact K |].
  split; [rewrite E; reflexivity |].
  split; [rewrite E; reflexivity |].
  split; [rewrite E; reflexivity |].
  split; [rewrite E; reflexivity |].
  split; [| eapply ranges_ok_same_env; eauto].
  destruct (primary_kind (loc_shape_type loc)).
  - destruct C as (coords & opts & _ & C).
    destruct (mirror_drawing (SETTINGS st')).
    + destruct C as (opts' & _ & ->). unfold canvas_wf in *. cbn.
      apply Forall_app. split.
      * eapply Forall_impl; [| exact W]. cbn. intros; lia.
      * repeat constructor; cbn; lia.
    + destruct C as (_ & ->). unfold canvas_wf in *. cbn.
      apply Forall_app. split.
      * eapply Forall_impl; [| exact W]. cbn. intros; lia.
      * repeat constructor; cbn; lia.
  - destruct C as (-> & _). exact W.
Qed.

(** *** Which exceptions a draw can raise *)

Section RaisesOnly.

Variable P : exn -> Prop.

Lemma raises_bind {A B} (c : App A) (k : A -> App B) :
  raises_only P c -> (forall a, raises_only P (k a)) ->
  raises_only P (bind c k).
Proof.
  intros Hc Hk st e st'. unfold bind.
  destruct (c st) as [a s1 | e1 s1] eqn:E.
  - apply Hk.
  - intro H. inversion H; subst. eapply Hc. exact E.
Qed.

Lemma raises_ret {A} (a : A) : raises_only P (ret a : App A).
Proof. intros st e st' H. discriminate H. Qed.

Lemma raises_gets {A} (f : app -> A) : raises_only P (gets f).
Proof. intros st e st' H. discriminate H. Qed.

Lemma raises_setting {A} (f : settings -> A) :
  raises_only P (setting f : App A).
Proof. intros st e st' H. discriminate H. Qed.

Lemma raises_modify (f : app -> app) : raises_only P (modify f).
Proof. intros st e st' H. discriminate H. Qed.

Lemma raises_create ty coords opts :
  raises_only P (create ty coords opts : App nat).
Proof. intros st e st' H. discriminate H. Qed.

Lemma raises_randint lo hi : P ValueError -> raises_only P (randint lo hi).
Proof.
  intros HP st e st' H. apply randint_Raise_inv in H.
  destruct H as (-> & _). exact HP.
Qed.

Lemma raises_choice {A} (x : A) xs : raises_only P (choice (x :: xs)).
Proof.
  intros st e st' H. apply choice_Raise_inv in H. discriminate H.
Qed.

Lemma raises_raise {A} e : P e -> raises_only P (raise e : App A).
Proof. intros HP st e' st' H. inversion H; subst. exact HP. Qed.

End RaisesOnly.

Ltac raises_step :=
  match goal with
  | |- raises_only _ (bind _ _) => apply raises_bind
  | |- forall _, _ => intro
  | |- raises_only _ (ret _) => apply raises_ret
  | |- raises_only _ (gets _) => apply raises_gets
  | |- raises_only _ (setting _) => apply raises_setting
  | |- raises_only _ (modify _) => apply raises_modify
  | |- raises_only _ (update_settings _) => apply raises_modify
  | |- raises_only _ (create _ _ _) => apply raises_create
  | |- raises_only _ (randint _ _) => apply raises_randint; discriminate
  | |- raises_only _ (choice (_ :: _)) => apply raises_choice
  | |- raises_only _ (raise _) => apply raises_raise; discriminate
  | |- raises_only _ (if ?b then _ else _) => destruct b
  | |- raises_only _ (match ?x with _ => _ end) => destruct x
  | H : raises_only ?P ?c |- raises_only ?P ?c => exact H
  end.

Ltac raises_auto := repeat raises_step.

Lemma raises_mirror_loop color ofl wl items :
  forall acc,
    raises_only not_index (mirror_loop color ofl wl items acc : App _).
Proof.
  unfold not_index.
  induction items as [| it rest IH]; intro acc; cbn [mirror_loop].
  - apply raises_ret.
  - apply raises_bind; [| intro; apply IH].
    unfold mirror_item. raises_auto.
Qed.

(** No run of [draw_shape] raises [IndexError]: both uses of
    [random.choice] are on non-empty lists. *)
Lemma draw_shape_locals_no_index_error :
  raises_only not_index draw_shape_locals.
Proof.
  unfold not_index, draw_shape_locals, ultra_random, choose_shape_type,
    random_color, draw_primary.
  repeat first [ apply raises_mirror_loop | raises_step ].
Qed.

(** *** The palette is never read *)

Section Commutes.

Variable f : app -> app.
Hypothesis f_rng : forall st g, f (set_rng g st) = set_rng g (f st).
Hypothesis f_rng_get : forall st, rng (f st) = rng st.
Hypothesis f_canvas : forall st c, f (set_canvas c st) = set_canvas c (f st).
Hypothesis f_canvas_get : forall st, canvas (f st) = canvas st.

Lemma commutes_bind {A B} (c : App A) (k : A -> App B) :
  commutes f c -> (forall a, commutes f (k a)) -> commutes f (bind c k).
Proof.
  intros Hc Hk st. unfold bind. rewrite Hc.
  destruct (c st) as [a s1 | e s1]; cbn [omap]; [apply Hk | reflexivity].
Qed.

Lemma commutes_ret {A} (a : A) : commutes f (ret a : App A).
Proof. intro st. reflexivity. Qed.

Lemma commutes_raise {A} e : commutes f (raise e : App A).
Proof. intro st. reflexivity. Qed.

Lemma commutes_gets {A} (g : app -> A) :
  (forall st, g (f st) = g st) -> commutes f (gets g).
Proof. intros H st. unfold gets. rewrite H. reflexivity. Qed.

Lemma commutes_modify (h : app -> app) :
  (forall st, h (f st) = f (h st)) -> commutes f (modify h).
Proof. intros H st. unfold modify. rewrite H. reflexivity. Qed.

Lemma commutes_randint lo hi : commutes f (randint lo hi).
Proof.
  intro st. unfold randint. rewrite f_rng_get.
  destruct (hi <? lo); [reflexivity |].
  destruct (randbelow (hi - lo + 1) (rng st)). cbn [omap].
  rewrite f_rng. reflexivity.
Qed.

Lemma commutes_choice {A} (xs : list A) : commutes f (choice xs).
Proof.
  intro st. unfold choice. destruct xs; [reflexivity |].
  rewrite f_rng_get. destruct (randbelow _ (rng st)).
  destruct (nth_error _ _); cbn [omap]; rewrite f_rng; reflexivity.
Qed.

Lemma commutes_create ty coords opts :
  commutes f (create ty coords opts : App nat).
Proof.
  intro st. unfold create. rewrite f_canvas_get.
  destruct (canvas_create ty coords opts (canvas st)). cbn [omap].
  rewrite f_canvas. reflexivity.
Qed.

End Commutes.

Lemma returned_omap {A} (f : app -> app) (o : outcome app A) :
  returned (omap f o) = returned o.
Proof. destruct o; reflexivity. Qed.

Ltac commutes_step p :=
  match goal with
  | |- commutes _ (bind _ _) => apply commutes_bind
  | |- forall _, _ => intro
  | |- commutes _ (ret _) => apply commutes_ret
  | |- commutes _ (raise _) => apply commutes_raise
  | |- commutes _ (gets _) => apply commutes_gets; reflexivity
  | |- commutes _ (setting _) => apply commutes_gets; reflexivity
  | |- commutes _ (modify _) => apply commutes_modify; reflexivity
  | |- commutes _ (randint _ _) => apply commutes_randint; reflexivity
  | |- commutes _ (choice _) => apply commutes_choice; reflexivity
  | |- commutes _ (create _ _ _) => apply commutes_create; reflexivity
  | |- commutes _ (if ?b then _ else _) => destruct b
  | |- commutes _ (match ?x with _ => _ end) => destruct x
  end.

Lemma commutes_mirror_loop p color ofl wl items :
  forall acc,
    commutes (with_palette p) (mirror_loop color ofl wl items acc : App _).
Proof.
  induction items as [| it rest IH]; intro acc; cbn [mirror_loop].
  - apply commutes_ret.
  - apply commutes_bind; [| intro; apply IH].
    unfold mirror_item. repeat commutes_step p.
Qed.

Lemma ultra_random_normal (st : app) :
  String.eqb (special_mode (tkvars st)) "UltraRandom" = false ->
  ultra_random st = Ret tt st.
Proof. intro E. unfold ultra_random. rewrite bind_gets, E. reflexivity. Qed.

Lemma total_choice {A} (x : A) xs : total (choice (x :: xs)).
Proof.
  intro st.
  destruct (choice_returns (x :: xs) st ltac:(discriminate))
    as (y & g & H & _).
  eexists _, _. exact H.
Qed.

Lemma total_randint lo hi : lo <= hi -> total (randint lo hi).
Proof.
  intros L st. destruct (randint_returns lo hi st L) as (v & g & H & _).
  eexists _, _. exact H.
Qed.

Lemma bind_absorbs {A B} (f : app -> app) (c : App A) (k : A -> App B) st :
  commutes f c -> total c ->
  (forall a s1, k a (f s1) = k a s1) ->
  bind c k (f st) = bind c k st.
Proof.
  intros Hc Ht Hk. unfold bind. rewrite Hc.
  destruct (Ht st) as (a & s1 & E). rewrite E. cbn [omap]. apply Hk.
Qed.

(** Under UltraRandom the palette is overwritten before anything could
    read it. *)
Lemma ultra_random_overwrites p (st : app) :
  String.eqb (special_mode (tkvars st)) "UltraRandom" = true ->
  ultra_random (with_palette p st) = ultra_random st.
Proof.
  intro E. unfold ultra_random. rewrite !bind_gets.
  cbn [tkvars with_palette set_SETTINGS]. rewrite E.
  change (set_SETTINGS (set_custom_palette p (SETTINGS st)) st)
    with (with_palette p st).
  repeat first
    [ reflexivity
    | apply bind_absorbs;
      [ first [ apply commutes_choice; reflexivity
              | apply commutes_randint; reflexivity
              | apply commutes_modify; reflexivity ]
      | first [ apply total_choice
              | apply total_randint; lia
              | apply total_modify ]
      | intros ? ? ]
    | match goal with |- (if ?b then _ else _) _ = _ => destruct b end ].
Qed.

Lemma draw_after_ultra_commutes p :
  commutes (with_palette p)
    (shape_type <- choose_shape_type ;;
     min_size <- setting min_shape_size ;;
     max_size <- setting max_shape_size ;;
     size <- randint min_size max_size ;;
     x <- (w <- gets CANVAS_WIDTH ;; randint 0 w) ;;
     y <- (h <- gets CANVAS_HEIGHT ;; randint 0 h) ;;
     color <- random_color ;;
     outline_flag <- setting outline_only ;;
     drawn <- draw_primary shape_type size x y color outline_flag ;;
     mirror <- setting mirror_drawing ;;
     mirror_items <-
       (if (mirror : bool)
        then l <- mirror_loop color outline_flag (snd drawn) (fst drawn) [] ;;
             ret (Some l)
        else ret None) ;;
     let shape_record := mk_record shape_type (fst drawn) mirror_items in
     modify (fun st =>
               set_draw_history (draw_history st ++ [shape_record]) st) ;;;
     ret (mk_locals shape_type size x y color outline_flag shape_record)).
Proof.
  unfold choose_shape_type, random_color, draw_primary.
  repeat first [ apply commutes_mirror_loop | commutes_step p ].
Qed.

(** C1, as the code has it.  [draw_shape] never reads the custom
    palette: started with any other palette it returns the same locals
    (shape type, size, position and colour) or fails alike, and leaves
    the same canvas.  The colour of a generated shape is always
    [random_color()], the hex form of an integer drawn from
    [0, 0xFFFFFF]. *)
Theorem color_ignores_palette (st : app) (p : string) :
  returned (draw_shape_locals (with_palette p st))
  = returned (draw_shape_locals st)
  /\ canvas (final_state (draw_shape_locals (with_palette p st)))
     = canvas (final_state (draw_shape_locals st))
  /\ (forall loc st', draw_shape_locals st = Ret loc st' ->
        exists n, 0 <= n <= 16777215 /\ loc_color loc = hex_color n).
Proof.
  assert (draw_shape_locals (with_palette p st) = draw_shape_locals st
          \/ draw_shape_locals (with_palette p st)
             = omap (with_palette p) (draw_shape_locals st)) as [E | E].
  { destruct (String.eqb (special_mode (tkvars st)) "UltraRandom") eqn:U.
    - left. unfold draw_shape_locals. unfold bind at 1.
      rewrite (ultra_random_overwrites p st U). reflexivity.
    - right. unfold draw_shape_locals.
      erewrite bind_Ret by (apply ultra_random_normal; exact U).
      erewrite (bind_Ret _ _ st) by (apply ultra_random_normal; exact U).
      apply (draw_after_ultra_commutes p). }
  - rewrite E. repeat split.
    intros loc st' H.
    destruct (draw_shape_locals_Ret_inv st loc st' H)
      as (s' & g1 & d & st2 & st3 & _ & _ & _ & _ & _ & _ & _ & HC & _).
    exact HC.
  - rewrite E. split; [apply returned_omap |].
    split; [destruct (draw_shape_locals st); reflexivity |].
    intros loc st' H.
    destruct (draw_shape_locals_Ret_inv st loc st' H)
      as (s' & g1 & d & st2 & st3 & _ & _ & _ & _ & _ & _ & _ & HC & _).
    exact HC.
Qed.



(** *** Mirror coordinates *)

Lemma nth_error_map_enumerate_from {A B} (F : nat * A -> B) (l : list A) :
  forall a k,
    nth_error (map F (combine (seq a (List.length l)) l)) k
    = option_map (fun v => F ((a + k)%nat, v)) (nth_error l k).
Proof.
  induction l as [| x l IH]; intros a k.
  - destruct k; reflexivity.
  - destruct k as [| k]; cbn.
    + rewrite Nat.add_0_r. reflexivity.
    + rewrite IH. rewrite Nat.add_succ_r. reflexivity.
Qed.

Lemma round64_exact z : Z.abs z <= 2 ^ 53 -> round64 z = z.
Proof.
  intro H. unfold round64. apply Z.leb_le in H. rewrite H. reflexivity.
Qed.

Lemma int_minus_float_exact w v :
  Z.abs w <= 2 ^ 52 -> Z.abs v <= 2 ^ 52 -> int_minus_float w v = w - v.
Proof.
  intros Hw Hv. unfold int_minus_float.
  rewrite (round64_exact w) by lia. apply round64_exact. lia.
Qed.

Lemma mirrored_coords_nth w coords k :
  nth_error (mirrored_coords w coords) k
  = option_map (fun v => if Nat.even k then int_minus_float w v else v)
               (nth_error coords k).
Proof.
  unfold mirrored_coords, enumerate.
  rewrite nth_error_map_enumerate_from. reflexivity.
Qed.

Lemma mirrored_coords_length w coords :
  List.length (mirrored_coords w coords) = List.length coords.
Proof.
  unfold mirrored_coords, enumerate.
  rewrite length_map, length_combine, length_seq. apply Nat.min_id.
Qed.

Lemma find_two_new (c : canvas_t) a b nx bg :
  canvas_wf c ->
  canvas_find (c_next c)
    (mk_canvas (c_items c ++ [(c_next c, a); (S (c_next c), b)]) nx bg)
  = Some a
  /\ canvas_find (S (c_next c))
       (mk_canvas (c_items c ++ [(c_next c, a); (S (c_next c), b)]) nx bg)
     = Some b.
Proof.
  intro W. unfold canvas_find. cbn [c_items]. split.
  - rewrite find_app_none by (apply wf_find_fresh; [exact W | lia]).
    cbn. rewrite Nat.eqb_refl. reflexivity.
  - rewrite find_app_none by (apply wf_find_fresh; [exact W | lia]).
    cbn. destruct (Nat.eqb_spec (c_next c) (S (c_next c))); [lia |].
    rewrite Nat.eqb_refl. reflexivity.
Qed.

Lemma five_shapes_have_kind ty :
  In ty ["circle"; "line"; "arc"; "rectangle"; "triangle"] ->
  exists kind, primary_kind ty = Some kind.
Proof.
  cbn [In]. intros [<- | [<- | [<- | [<- | [<- | []]]]]];
    eexists; reflexivity.
Qed.

(** C4, as the code has it.  When a shape of one of the five types is
    drawn with the mirror flag set, on a canvas at most [2^52] wide, the
    record holds one item and one mirror item; the mirror item has the
    Tk type of the original and is created with as many coordinates as
    Tk reports for the original ([canvas.coords]), in the same order;
    and for every such coordinate [v] of magnitude at most [2^52] the
    mirror's coordinate at the same index [k] is [CANVAS_WIDTH - v] when
    [k] is even and [v] when [k] is odd. *)
Theorem mirror_reflects_x (st : app) loc st' :
  canvas_wf (canvas st) ->
  draw_shape_locals st = Ret loc st' ->
  mirror_drawing (SETTINGS st') = true ->
  In (loc_shape_type loc) ["circle"; "line"; "arc"; "rectangle"; "triangle"] ->
  Z.abs (CANVAS_WIDTH st) <= 2 ^ 52 ->
  exists id mid,
    rec_items (loc_record loc) = [id]
    /\ rec_mirror_items (loc_record loc) = Some [mid]
    /\ canvas_type mid (canvas st') = canvas_type id (canvas st')
    /\ List.length (created_coords mid (canvas st'))
       = List.length (canvas_coords id (canvas st'))
    /\ forall k v,
        nth_error (canvas_coords id (canvas st')) k = Some v ->
        Z.abs v <= 2 ^ 52 ->
        nth_error (created_coords mid (canvas st')) k
        = Some (if Nat.even k then CANVAS_WIDTH st - v else v).
Proof.
  intros W H M F HW.
  pose proof (draw_shape_locals_canvas st loc st' W H) as C. cbn zeta in C.
  destruct (five_shapes_have_kind _ F) as (kind & EK). rewrite EK in C.
  destruct C as (coords & opts & HI & C). rewrite M in C.
  destruct C as (opts' & HM & HC).
  exists (c_next (canvas st)), (S (c_next (canvas st))).
  split; [exact HI |]. split; [exact HM |].
  destruct (find_two_new (canvas st) (mk_item kind coords opts)
              (mk_item kind
                 (mirrored_coords (CANVAS_WIDTH st)
                    (tk_stored kind (map round64 coords))) opts')
              (S (S (c_next (canvas st)))) (c_bg (canvas st)) W)
    as (F1 & F2).
  unfold canvas_type, canvas_coords, created_coords. rewrite HC, F1, F2.
  cbn [option_map item_type item_coords].
  split; [reflexivity |]. split; [apply mirrored_coords_length |].
  intros k v Hk Hv. rewrite mirrored_coords_nth, Hk. cbn [option_map].
  destruct (Nat.even k); [| reflexivity].
  rewrite int_minus_float_exact by assumption. reflexivity.
Qed.

(** *** Undo *)

Lemma for_each_delete ids (st : app) :
  for_each ids (fun it => on_canvas (canvas_delete it)) st
  = Ret tt (set_canvas
              (fold_left (fun c id => canvas_delete id c) ids (canvas st))
              st).
Proof.
  revert st. induction ids as [| id ids IH]; intro st.
  - cbn. rewrite set_canvas_id. reflexivity.
  - cbn [for_each fold_left]. rewrite bind_on_canvas. rewrite IH.
    reflexivity.
Qed.

Lemma delete_one_new (c : canvas_t) a nx bg :
  canvas_wf c ->
  c_items (canvas_delete (c_next c)
             (mk_canvas (c_items c ++ [(c_next c, a)]) nx bg))
  = c_items c.
Proof.
  intro W. unfold canvas_delete. cbn [c_items].
  rewrite filter_app, filter_fresh by (auto; lia).
  cbn. rewrite Nat.eqb_refl. cbn. apply app_nil_r.
Qed.

Lemma delete_two_new (c : canvas_t) a b nx bg :
  canvas_wf c ->
  c_items (canvas_delete (S (c_next c))
             (canvas_delete (c_next c)
                (mk_canvas (c_items c ++ [(c_next c, a); (S (c_next c), b)])
                           nx bg)))
  = c_items c.
Proof.
  intro W. unfold canvas_delete. cbn [c_items c_next c_bg].
  rewrite filter_app, filter_fresh by (auto; lia).
  cbn [filter fst]. rewrite Nat.eqb_refl.
  destruct (Nat.eqb_spec (S (c_next c)) (c_next c)); [lia |].
  cbn [negb]. rewrite filter_app, filter_fresh by (auto; lia).
  cbn. rewrite Nat.eqb_refl. cbn. apply app_nil_r.
Qed.

Lemma draw_shape_Ret (st st1 : app) :
  draw_shape st = Ret tt st1 ->
  exists loc, draw_shape_locals st = Ret loc st1.
Proof.
  unfold draw_shape, bind.
  destruct (draw_shape_locals st) as [loc s | e s]; [| discriminate].
  intro H. inv_ret H. exists loc. reflexivity.
Qed.

Lemma undo_empty (st : app) :
  draw_history st = [] ->
  undo_last_shape st = Ret tt (set_status_label "No shapes to undo" st).
Proof.
  intro E. unfold undo_last_shape. rewrite bind_gets, E. reflexivity.
Qed.

(** C3.  One generation followed by one undo restores the draw history
    and the list of live canvas primitives (so also their lengths), and
    reports "Last shape undone"; undo on an empty history changes
    nothing but the status label, which reports "No shapes to undo". *)
Theorem undo_inverts_generation (st st1 : app) :
  (canvas_wf (canvas st) ->
   draw_shape st = Ret tt st1 ->
   exists st2,
     undo_last_shape st1 = Ret tt st2
     /\ draw_history st2 = draw_history st
     /\ c_items (canvas st2) = c_items (canvas st)
     /\ List.length (draw_history st2) = List.length (draw_history st)
     /\ live_count (canvas st2) = live_count (canvas st)
     /\ status_label st2 = "Last shape undone"%string)
  /\ (draw_history st = [] ->
      undo_last_shape st = Ret tt (set_status_label "No shapes to undo" st)).
Proof.
  split; [| apply undo_empty].
  intros W HD. destruct (draw_shape_Ret st st1 HD) as (loc & H).
  destruct (draw_shape_locals_frame st loc st1 H) as (s' & c' & g & E).
  pose proof (draw_shape_locals_canvas st loc st1 W H) as C. cbn zeta in C.
  assert (c_items
            (fold_left (fun c id => canvas_delete id c)
               (get_mirror_items (loc_record loc))
               (fold_left (fun c id => canvas_delete id c)
                  (rec_items (loc_record loc)) (canvas st1)))
          = c_items (canvas st)) as HItems.
  { destruct (primary_kind (loc_shape_type loc)).
    - destruct C as (coords & opts & HI & C). rewrite HI.
      unfold get_mirror_items.
      destruct (mirror_drawing (SETTINGS st1)).
      + destruct C as (opts' & -> & ->). cbn [fold_left].
        apply delete_two_new. exact W.
      + destruct C as (-> & ->). cbn [fold_left].
        apply delete_one_new. exact W.
    - destruct C as (-> & -> & ->). reflexivity. }
  unfold undo_last_shape. rewrite bind_gets.
  assert (draw_history st1 = draw_history st ++ [loc_record loc]) as EH
      by (rewrite E; reflexivity).
  rewrite EH, rev_app_distr. cbn [rev List.app].
  rewrite bind_modify.
  unfold bind at 1. rewrite for_each_delete.
  unfold bind at 1. rewrite for_each_delete.
  eexists. split; [reflexivity |].
  cbn [draw_history canvas status_label set_status_label set_canvas
       set_draw_history].
  rewrite rev_involutive. unfold live_count. rewrite HItems.
  repeat split.
Qed.

(** *** One tick *)

Lemma total_keeps_run {A} (c : App A) (st : app) :
  total c -> keeps same_env c -> keeps quiet c ->
  exists a st', c st = Ret a st' /\ same_env st st' /\ quiet st st'.
Proof.
  intros T K Q. destruct (T st) as (a & st' & E).
  specialize (K st). specialize (Q st). rewrite E in K, Q.
  exists a, st'. auto.
Qed.

Lemma clear_canvas_spec (st : app) :
  exists st',
    clear_canvas st = Ret tt st'
    /\ frame_count st' = 0
    /\ draw_history st' = []
    /\ same_env st st'
    /\ canvas_wf (canvas st').
Proof.
  pose proof (total_clear_canvas st) as (u & st' & E).
  pose proof (keeps_clear_canvas st) as K. rewrite E in K.
  destruct u. exists st'. split; [exact E |].
  unfold clear_canvas in E.
  rewrite bind_on_canvas, bind_modify, bind_modify in E.
  match type of E with ?c ?s = _ =>
    assert (keeps quiet c) as Q
  end.
  { pose proof quiet_draw_grid. pose proof quiet_create_meme_text.
    pose proof quiet_create_watermark. unfold update_grid. quiet_auto. }
  match type of E with ?c ?s = _ => specialize (Q s) end.
  rewrite E in Q. cbn [final_state] in Q.
  destruct Q as (Q1 & Q2 & Q3). cbn in Q1, Q2, Q3.
  split; [exact Q1 |]. split; [exact Q2 |]. split; [exact K |].
  apply Q3. apply wf_delete_all.
Qed.

Lemma tick_tail_spec (st : app) :
  exists st',
    (ch <- gets (fun st => chaos_mode (tkvars st)) ;;
     fc' <- gets frame_count ;;
     (if ch && (fc' mod 50 =? 0)
      then c <- random_color ;; on_canvas (canvas_config_bg c)
      else ret tt) ;;;
     reconcile_meme ;;;
     reconcile_watermark) st = Ret tt st'
    /\ same_env st st' /\ quiet st st'.
Proof.
  match goal with |- exists st', ?c st = _ /\ _ =>
    destruct (total_keeps_run c st) as (u & st' & E & K & Q)
  end.
  - pose proof total_random_color. pose proof total_reconcile_meme.
    pose proof total_reconcile_watermark. total_auto.
  - pose proof keeps_random_color. pose proof keeps_reconcile_meme.
    pose proof keeps_reconcile_watermark. keeps_auto.
  - pose proof quiet_random_color. pose proof quiet_reconcile_meme.
    pose proof quiet_reconcile_watermark. quiet_auto.
  - destruct u. exists st'. auto.
Qed.

Lemma same_env_set_frame_count v (st : app) :
  same_env st (set_frame_count v st).
Proof. unfold same_env. cbn. repeat split. apply style_only_refl. Qed.

Lemma same_env_threshold (st st' : app) :
  same_env st st' ->
  auto_clear_threshold (SETTINGS st') = auto_clear_threshold (SETTINGS st).
Proof.
  intros (_ & _ & _ & _ & _ & _ & _ & HS).
  apply style_only_sizes in HS. tauto.
Qed.

(** A tick of the running driver in continuous mode: it returns; it
    draws one shape; and it ends with the counter and the history
    reset when the counter has reached the threshold, else with the
    counter one higher and the history one record longer. *)
Lemma animate_body_continuous (st : app) :
  ranges_ok st -> canvas_wf (canvas st) ->
  drawing_mode (tkvars st) = "continuous"%string ->
  exists st',
    animate_body st = Ret tt st'
    /\ same_env st st'
    /\ canvas_wf (canvas st')
    /\ if auto_clear_threshold (SETTINGS st) <=? frame_count st + 1
       then frame_count st' = 0 /\ draw_history st' = []
       else frame_count st' = frame_count st + 1
            /\ exists r, draw_history st' = draw_history st ++ [r].
Proof.
  intros R W Hmode. unfold animate_body.
  rewrite bind_modify, bind_gets. cbn [tkvars set_frame_count].
  rewrite Hmode. cbn [String.eqb Ascii.eqb Bool.eqb].
  set (s0 := set_frame_count (frame_count st + 1) st).
  assert (ranges_ok s0) as R0 by exact R.
  assert (canvas_wf (canvas s0)) as W0 by exact W.
  destruct (draw_shape_step s0 R0 W0)
    as (loc & s1 & HD & K1 & F1 & _ & _ & H1 & W1 & R1).
  assert (draw_shape s0 = Ret tt s1) as HD'.
  { unfold draw_shape. erewrite bind_Ret by exact HD. reflexivity. }
  erewrite bind_Ret by exact HD'.
  rewrite bind_gets, bind_setting.
  assert (same_env st s1) as K01.
  { eapply same_env_trans; [apply same_env_set_frame_count | exact K1]. }
  rewrite (same_env_threshold st s1 K01). rewrite F1.
  cbn [frame_count s0 set_frame_count].
  destruct (auto_clear_threshold (SETTINGS st) <=? frame_count st + 1).
  - destruct (clear_canvas_spec s1) as (s2 & HC & F2 & H2 & K2 & W2).
    erewrite bind_Ret by exact HC.
    destruct (tick_tail_spec s2) as (s3 & HT & K3 & Q1 & Q2 & Q3).
    exists s3. split; [exact HT |].
    split; [eapply same_env_trans; [exact K01 |];
            eapply same_env_trans; eauto |].
    split; [auto |]. rewrite Q1, Q2. split; assumption.
  - rewrite bind_ret.
    destruct (tick_tail_spec s1) as (s3 & HT & K3 & Q1 & Q2 & Q3).
    exists s3. split; [exact HT |].
    split; [eapply same_env_trans; eauto |].
    split; [auto |]. split; [rewrite Q1; exact F1 |].
    exists (loc_record loc). rewrite Q2, H1. reflexivity.
Qed.

Lemma animate_running (st : app) :
  paused st = false ->
  animate st =
  match animate_body st with
  | Ret _ st' =>
      Ret tt (set_after_queue
                (after_queue st' ++ [(speed_scale (tkvars st'), CbAnimate)])
                st')
  | Raise e st' => Raise e st'
  end.
Proof.
  intro P. unfold animate. rewrite bind_gets, P. cbn [negb].
  unfold bind at 1. destruct (animate_body st); reflexivity.
Qed.

Lemma pop_request_animate q :
  existsb is_animate q = true ->
  exists q', pop_request is_animate q = Some (CbAnimate, q').
Proof.
  induction q as [| t q IH]; cbn; [discriminate |].
  destruct (is_animate t) eqn:E.
  - intros _. exists q. unfold is_animate in E.
    destruct t as [d cb]. cbn in *. destruct cb; [reflexivity | discriminate].
  - cbn. intro H. destruct (IH H) as (q' & ->). eexists. reflexivity.
Qed.

Lemma tick_step th (st : app) :
  running_continuous th st ->
  running_continuous th (dispatch is_animate st)
  /\ if th <=? frame_count st + 1
     then frame_count (dispatch is_animate st) = 0
          /\ draw_history (dispatch is_animate st) = []
     else frame_count (dispatch is_animate st) = frame_count st + 1
          /\ List.length (draw_history (dispatch is_animate st))
             = S (List.length (draw_history st)).
Proof.
  intros (R & W & P & Hmode & Hth & Hq).
  destruct (pop_request_animate _ Hq) as (q' & Hpop).
  unfold dispatch. rewrite Hpop. cbn [run_callback].
  set (s0 := set_after_queue q' st).
  rewrite (animate_running s0 P).
  destruct (animate_body_continuous s0 R W Hmode)
    as (s1 & HB & K & W1 & HF).
  rewrite HB. cbn [final_state].
  pose proof K as (K1 & K2 & K3 & K4 & K5 & K6 & K7 & K8).
  split.
  - assert (ranges_ok s1) as R1
        by (eapply ranges_ok_same_env; [exact K | exact R]).
    pose proof (same_env_threshold s0 s1 K) as T1.
    unfold running_continuous.
    split; [exact R1 |].
    split; [exact W1 |].
    split; [cbn; rewrite K4; exact P |].
    split; [cbn; rewrite K1; exact Hmode |].
    split; [cbn; rewrite T1; exact Hth |].
    cbn [after_queue set_after_queue].
    rewrite existsb_app. cbn. apply orb_true_r.
  - cbn [frame_count draw_history set_after_queue].
    cbn [SETTINGS frame_count s0 set_after_queue] in HF. rewrite Hth in HF.
    destruct (th <=? frame_count st + 1); [exact HF |].
    destruct HF as (HF1 & r & HF2). split; [exact HF1 |].
    rewrite HF2. cbn [draw_history s0 set_after_queue].
    rewrite length_app. cbn. lia.
Qed.

Lemma ticks_below_threshold th :
  forall k (st : app),
    running_continuous th st ->
    frame_count st + Z.of_nat k < th ->
    running_continuous th (ticks k st)
    /\ frame_count (ticks k st) = frame_count st + Z.of_nat k
    /\ List.length (draw_history (ticks k st))
       = (List.length (draw_history st) + k)%nat.
Proof.
  induction k as [| k IH]; intros st Hrun Hlt.
  - cbn. split; [exact Hrun |]. split; lia.
  - unfold ticks in *. cbn [run_events].
    destruct (tick_step th st Hrun) as (Hrun' & Hstep).
    destruct (th <=? frame_count st + 1) eqn:E;
      [apply Z.leb_le in E; lia |].
    destruct Hstep as (HF & HL).
    destruct (IH (dispatch is_animate st) Hrun' ltac:(lia))
      as (I1 & I2 & I3).
    split; [exact I1 |]. split; [lia | lia].
Qed.


(** *** Replay *)

Lemma pop_request_last_replay q0 h k :
  existsb is_replay q0 = false ->
  pop_request is_replay (q0 ++ [(50, CbReplayNext h k)])
  = Some (CbReplayNext h k, q0).
Proof.
  induction q0 as [| t q IH]; cbn; [reflexivity |].
  destruct (is_replay t); cbn; [discriminate |].
  intro H. rewrite (IH H). reflexivity.
Qed.

Lemma pop_request_none sel q :
  existsb sel q = false -> pop_request sel q = None.
Proof.
  induction q as [| t q IH]; cbn; [reflexivity |].
  destruct (sel t); cbn; [discriminate |].
  intro H. rewrite (IH H). reflexivity.
Qed.

Lemma draw_shape_fresh_type (st : app) loc st' :
  draw_shape_locals st = Ret loc st' ->
  fresh_type (SHAPE_TYPES st) (loc_record loc).
Proof.
  intro H.
  destruct (draw_shape_locals_Ret_inv st loc st' H)
    as (s' & g1 & d & st2 & st3 & _ & _ & HE & HI & _ & _ & _ & _ & _
        & _ & _ & HT & _ & _).
  unfold fresh_type. rewrite HT. split; assumption.
Qed.

(** One replay step that draws: from a state where the draw cannot
    fail, with the timer queue [q]. *)
Lemma replay_next_draws h k (st : app) :
  (k < List.length h)%nat ->
  ranges_ok st -> canvas_wf (canvas st) ->
  exists st' r,
    replay_next h k st = Ret tt st'
    /\ ranges_ok st' /\ canvas_wf (canvas st')
    /\ SHAPE_TYPES st' = SHAPE_TYPES st
    /\ frame_count st' = frame_count st
    /\ status_label st' = status_label st
    /\ after_queue st' = after_queue st ++ [(50, CbReplayNext h (k + 1))]
    /\ draw_history st' = draw_history st ++ [r]
    /\ fresh_type (SHAPE_TYPES st) r.
Proof.
  intros Hk R W. unfold replay_next.
  destruct (Nat.ltb_spec k (List.length h)) as [_ | ?]; [| lia].
  destruct (draw_shape_step st R W)
    as (loc & s1 & HD & K & F1 & _ & _ & H1 & W1 & R1).
  assert (draw_shape st = Ret tt s1) as HD'.
  { unfold draw_shape. erewrite bind_Ret by exact HD. reflexivity. }
  erewrite bind_Ret by exact HD'.
  destruct K as (K1 & K2 & K3 & K4 & K5 & K6 & K7 & K8).
  eexists _, (loc_record loc). split; [reflexivity |].
  cbn. rewrite K7.
  repeat split; try assumption; try (apply R1).
  - eapply draw_shape_fresh_type. exact HD.
  - eapply draw_shape_fresh_type. exact HD.
Qed.

Lemma replay_step h q0 tys k (st : app) :
  existsb is_replay q0 = false ->
  (k < List.length h)%nat ->
  replaying h q0 tys k st ->
  replaying h q0 tys (k + 1) (dispatch is_replay st)
  /\ status_label (dispatch is_replay st) = status_label st.
Proof.
  intros Hq Hk (R & W & HT & HF & HQ & HL & HA).
  unfold dispatch. rewrite HQ, (pop_request_last_replay q0 h k Hq).
  cbn [run_callback].
  destruct (replay_next_draws h k (set_after_queue q0 st) Hk R W)
    as (st' & r & E & R' & W' & T' & F' & S' & Q' & H' & Fr).
  rewrite E. cbn [final_state].
  cbn in T', F', S', Q', H', Fr.
  split; [| exact S'].
  unfold replaying. rewrite T', F', Q', H', length_app, HL.
  repeat split; try assumption; try (apply R').
  apply Forall_app. split; [exact HA |].
  constructor; [rewrite <- HT; exact Fr | constructor].
Qed.

Lemma replay_steps h q0 tys :
  existsb is_replay q0 = false ->
  forall j k (st : app),
    (k + j <= List.length h)%nat ->
    replaying h q0 tys k st ->
    replaying h q0 tys (k + j) (serve_replay j st)
    /\ status_label (serve_replay j st) = status_label st.
Proof.
  intro Hq. induction j as [| j IH]; intros k st Hle Hrep.
  - cbn. rewrite Nat.add_0_r. auto.
  - unfold serve_replay in *. cbn [run_events].
    destruct (replay_step h q0 tys k st Hq ltac:(lia) Hrep) as (Hrep' & HS).
    destruct (IH (k + 1)%nat (dispatch is_replay st) ltac:(lia) Hrep')
      as (I1 & I2).
    replace (k + S j)%nat with (k + 1 + j)%nat by lia.
    split; [exact I1 | congruence].
Qed.

(** The last replay request: the snapshot is exhausted. *)
Lemma replay_finish h q0 tys (st : app) :
  existsb is_replay q0 = false ->
  replaying h q0 tys (List.length h) st ->
  status_label (dispatch is_replay st) = "Replay complete"%string
  /\ draw_history (dispatch is_replay st) = draw_history st
  /\ after_queue (dispatch is_replay st) = q0
  /\ frame_count (dispatch is_replay st) = 0.
Proof.
  intros Hq (R & W & HT & HF & HQ & HL & HA).
  unfold dispatch. rewrite HQ, (pop_request_last_replay q0 h _ Hq).
  cbn [run_callback]. unfold replay_next.
  rewrite Nat.ltb_irrefl. cbn. auto.
Qed.

Lemma replay_history_starts (st : app) :
  draw_history st <> [] ->
  ranges_ok st -> canvas_wf (canvas st) ->
  exists st1,
    replay_history st = Ret tt st1
    /\ replaying (draw_history st) (after_queue st) (SHAPE_TYPES st) 1 st1
    /\ status_label st1 = "Replaying history..."%string.
Proof.
  intros HN R W. unfold replay_history. rewrite bind_gets.
  destruct (draw_history st) as [| r0 h0] eqn:EH; [congruence |].
  destruct (clear_canvas_spec st) as (s1 & HC & F1 & H1 & K1 & W1).
  erewrite bind_Ret by exact HC.
  rewrite bind_modify, bind_status.
  set (s2 := set_status_label "Replaying history..."
               (set_frame_count 0 s1)).
  assert (ranges_ok s2) as R2
      by (change (ranges_ok s1);
          eapply ranges_ok_same_env; [exact K1 | exact R]).
  destruct (replay_next_draws (r0 :: h0) 0 s2 ltac:(cbn; lia) R2 W1)
    as (st' & r & E & R' & W' & T' & F' & S' & Q' & H' & Fr).
  exists st'. split; [exact E |].
  destruct K1 as (K1 & K2 & K3 & K4 & K5 & K6 & K7 & K8).
  cbn in T', F', S', Q', H', Fr.
  split; [| exact S'].
  unfold replaying. rewrite T', F', Q', H', H1, K5, K7.
  repeat split; try assumption; try (apply R').
  constructor; [rewrite <- K5; exact Fr | constructor].
Qed.

(** *** A failing draw *)

Lemma bind_bind_gen {S0 A B C} (c : M S0 A) (k : A -> M S0 B)
  (k' : B -> M S0 C) s :
  bind (bind c k) k' s = bind c (fun a => bind (k a) k') s.
Proof. unfold bind. destruct (c s); reflexivity. Qed.

Lemma repeat_m_app {S0} i j (body : M S0 unit) (s : S0) :
  repeat_m (i + j) body s = bind (repeat_m i body) (fun _ => repeat_m j body) s.
Proof.
  revert s. induction i as [| i IH]; intro s; [reflexivity |].
  cbn [Nat.add repeat_m]. rewrite bind_bind_gen. unfold bind in *.
  destruct (body s) as [[] s1 | e s1]; [apply IH | reflexivity].
Qed.

Lemma run_events_idle sel n (st : app) :
  existsb sel (after_queue st) = false -> run_events sel n st = st.
Proof.
  intro H. induction n as [| n IH]; [reflexivity |].
  cbn [run_events]. unfold dispatch. rewrite (pop_request_none _ _ H).
  exact IH.
Qed.

Lemma animate_Raise_inv (st : app) e st' :
  animate st = Raise e st' ->
  paused st = false
  /\ animate_body st = Raise e st'
  /\ after_queue st' = after_queue st.
Proof.
  intro H. destruct (paused st) eqn:P.
  - rewrite (animate_paused st P) in H. discriminate H.
  - rewrite (animate_running st P) in H.
    pose proof (keeps_animate_body st) as K.
    destruct (animate_body st) as [u s | e0 s]; [discriminate H |].
    inversion H; subst. cbn [final_state] in K.
    split; [reflexivity |]. split; [reflexivity |]. apply K.
Qed.

(** C7, as the code has it.  Neither [draw_shape] nor [animate] catches
    anything.  (1) A tick that fails leaves the timer queue as it found
    it: it does not reschedule.  (2) So when no other tick request is
    pending, the animation loop has stopped: no number of rounds of the
    event loop changes the state again.  (3) In continuous mode a
    failing draw makes the tick fail with the same exception; (4) in
    burst mode the draw that fails ends the burst: the iterations after
    it do not run and the tick fails with that exception.  (5) Only a
    tick that returns reschedules, once, after the delay of the speed
    control. *)
Theorem failing_draw_stops_the_loop (st : app) :
  (forall e st', animate st = Raise e st' ->
     after_queue st' = after_queue st)
  /\ (forall e st', animate st = Raise e st' ->
        existsb is_animate (after_queue st) = false ->
        forall n, ticks n st' = st')
  /\ (forall e s1,
        paused st = false ->
        drawing_mode (tkvars st) = "continuous"%string ->
        draw_shape (set_frame_count (frame_count st + 1) st) = Raise e s1 ->
        animate st = Raise e s1)
  /\ (forall e i j si s1,
        paused st = false ->
        String.eqb (drawing_mode (tkvars st)) "continuous" = false ->
        Z.to_nat (burst_count (SETTINGS st)) = (i + S j)%nat ->
        repeat_m i draw_shape (set_frame_count (frame_count st + 1) st)
        = Ret tt si ->
        draw_shape si = Raise e s1 ->
        animate st = Raise e s1)
  /\ (forall st', animate st = Ret tt st' ->
        after_queue st'
        = after_queue st ++ [(speed_scale (tkvars st), CbAnimate)]).
Proof.
  split; [| split; [| split; [| split]]].
  - intros e st' H. apply animate_Raise_inv in H. tauto.
  - intros e st' H Hq n. apply animate_Raise_inv in H.
    destruct H as (_ & _ & HQ). unfold ticks.
    apply run_events_idle. rewrite HQ. exact Hq.
  - intros e s1 P Hmode HD. rewrite (animate_running st P).
    unfold animate_body. rewrite bind_modify, bind_gets.
    cbn [tkvars set_frame_count]. rewrite Hmode.
    cbn [String.eqb Ascii.eqb Bool.eqb].
    erewrite bind_Raise by exact HD. reflexivity.
  - intros e i j si s1 P Hmode Hbc Hi HD. rewrite (animate_running st P).
    unfold animate_body. rewrite bind_modify, bind_gets.
    cbn [tkvars set_frame_count]. rewrite Hmode.
    erewrite bind_Raise; [reflexivity |].
    rewrite bind_setting. cbn [SETTINGS set_frame_count].
    rewrite Hbc, repeat_m_app. erewrite bind_Ret by exact Hi.
    cbn [repeat_m]. erewrite bind_Raise by exact HD. reflexivity.
  - intros st' H. destruct (paused st) eqn:P.
    + rewrite (animate_paused st P) in H. inversion H. reflexivity.
    + rewrite (animate_running st P) in H.
      pose proof (keeps_animate_body st) as K.
      destruct (animate_body st) as [u s | e0 s]; [| discriminate H].
      inversion H; subst. cbn [final_state] in K.
      destruct K as (K1 & _ & _ & _ & _ & _ & K7 & _).
      cbn. rewrite K1, K7. reflexivity.
Qed.

End Properties.

(* ------------------------------------------------------------------ *)
(** ** The properties on concrete runs                                  *)
(* ------------------------------------------------------------------ *)

Local Open Scope list_scope.

Lemma empty_canvas_wf : canvas_wf empty_canvas.
Proof. constructor. Defined.

Lemma initial_ranges_ok script : ranges_ok (initial_app script).
Proof. unfold ranges_ok. cbn. lia. Defined.

(** The paused tick of the initial application only queues the next
    tick. *)
Lemma paused_tick_witness :
  paused paused_app = true
  /\ animate paused_app
     = Ret tt (set_after_queue [(50, CbAnimate); (50, CbAnimate)] paused_app).
Proof.
  split; [reflexivity |].
  exact (proj1 (paused_tick_only_reschedules paused_app eq_refl)).
Defined.

(** The seed entry "abc" is refused and " 42 " is taken. *)
Lemma set_random_seed_witness :
  (exists st',
      set_random_seed (seed_app "abc") = Ret tt st'
      /\ st' = set_status_label "Invalid seed value" (seed_app "abc")
      /\ random_seed (SETTINGS st') = None)
  /\ (exists st',
        set_random_seed (seed_app " 42 ") = Ret tt st'
        /\ random_seed (SETTINGS st') = Some 42
        /\ rng st' = seed 42
        /\ status_label st' = "Seed set to 42").
Proof.
  split.
  - destruct (set_random_seed_spec (seed_app "abc")) as (st' & E & HN & _).
    exists st'. split; [exact E |].
    destruct (HN eq_refl) as (E1 & E2 & _).
    split; [exact E1 | exact E2].
  - destruct (set_random_seed_spec (seed_app " 42 ")) as (st' & E & _ & HS).
    exists st'. split; [exact E |].
    destruct (HS 42 eq_refl) as (_ & E2 & E3 & E4).
    split; [exact E2 |]. split; [exact E3 | exact E4].
Defined.



(** C1 fails on the code: with the palette set to the single colour
    "#ff0000" the shape comes out in "#0000ff". *)
Lemma palette_counterexample :
  palette_entries (custom_palette (SETTINGS palette_app)) = ["#ff0000"%string]
  /\ exists loc st',
      draw_shape_locals palette_app = Ret loc st'
      /\ loc_color loc = "#0000ff"%string
      /\ ~ In (loc_color loc)
           (palette_entries (custom_palette (SETTINGS palette_app))).
Proof.
  split; [reflexivity |].
  eexists _, _. split; [vm_compute; reflexivity |].
  split; [reflexivity |].
  cbn. intros [H | []]. discriminate H.
Qed.

(** The same run with and without the palette. *)
Lemma color_ignores_palette_witness :
  returned (draw_shape_locals palette_app)
  = returned (draw_shape_locals circle_app)
  /\ exists loc st',
      draw_shape_locals circle_app = Ret loc st'
      /\ exists n, 0 <= n <= 16777215 /\ loc_color loc = hex_color n.
Proof.
  split.
  - exact (proj1 (color_ignores_palette circle_app "#ff0000")).
  - eexists _, _. split; [vm_compute; reflexivity |].
    refine (proj2 (proj2 (color_ignores_palette circle_app "#ff0000"))
              _ _ _).
    vm_compute. reflexivity.
Defined.

(** A mirrored triangle on the 800 wide canvas. *)
Lemma mirror_reflects_x_witness :
  exists loc st',
    draw_shape_locals mirror_app = Ret loc st'
    /\ canvas_coords 1 (canvas st') = [100; 200; 88; 189; 90; 191]
    /\ created_coords 2 (canvas st') = [700; 200; 712; 189; 710; 191]
    /\ exists id mid,
        rec_items (loc_record loc) = [id]
        /\ rec_mirror_items (loc_record loc) = Some [mid]
        /\ canvas_type mid (canvas st') = canvas_type id (canvas st')
        /\ List.length (created_coords mid (canvas st'))
           = List.length (canvas_coords id (canvas st'))
        /\ forall k v,
            nth_error (canvas_coords id (canvas st')) k = Some v ->
            Z.abs v <= 2 ^ 52 ->
            nth_error (created_coords mid (canvas st')) k
            = Some (if Nat.even k then CANVAS_WIDTH mirror_app - v else v).
Proof.
  eexists _, _. split; [vm_compute; reflexivity |].
  split; [reflexivity |]. split; [reflexivity |].
  refine (mirror_reflects_x mirror_app _ _ _ _ _ _ _).
  - exact empty_canvas_wf.
  - vm_compute. reflexivity.
  - reflexivity.
  - cbn. tauto.
  - vm_compute. discriminate.
Defined.

(** The same triangle on a canvas [2^53 + 1] wide.  Its anchor is at
    x = 100; [W - val] converts the width to the float [2^53] first, so
    the mirror's first coordinate is [2^53 - 100], one less than the
    [W - 100] the claim asks for. *)
Lemma mirror_counterexample :
  exists loc st',
    draw_shape_locals wide_mirror_app = Ret loc st'
    /\ mirror_drawing (SETTINGS st') = true
    /\ loc_shape_type loc = "triangle"%string
    /\ rec_items (loc_record loc) = [1%nat]
    /\ rec_mirror_items (loc_record loc) = Some [2%nat]
    /\ nth_error (canvas_coords 1 (canvas st')) 0 = Some 100
    /\ nth_error (created_coords 2 (canvas st')) 0 = Some 9007199254740892
    /\ nth_error (created_coords 2 (canvas st')) 0
       <> Some (CANVAS_WIDTH wide_mirror_app - 100).
Proof.
  eexists _, _. split; [vm_compute; reflexivity |].
  repeat (split; [reflexivity |]).
  vm_compute. discriminate.
Qed.

(** One circle drawn and undone on the initial application. *)
Lemma undo_inverts_generation_witness :
  exists st1 st2,
    draw_shape circle_app = Ret tt st1
    /\ undo_last_shape st1 = Ret tt st2
    /\ draw_history st2 = []
    /\ c_items (canvas st2) = []
    /\ status_label st2 = "Last shape undone"%string.
Proof.
  eexists (final_state (draw_shape circle_app)).
  assert (draw_shape circle_app
          = Ret tt (final_state (draw_shape circle_app))) as E
      by (vm_compute; reflexivity).
  destruct (proj1 (undo_inverts_generation circle_app _)
              empty_canvas_wf E)
    as (st2 & U & H & C & _ & _ & S).
  exists st2. split; [exact E |]. split; [exact U |].
  split; [exact H |]. split; [exact C | exact S].
Defined.

Lemma threshold_app_running : running_continuous 3 threshold_app.
Proof.
  unfold running_continuous, ranges_ok. cbn.
  repeat split; try lia; try reflexivity. constructor.
Defined.


Lemma line_drawn_app_ok :
  draw_history line_drawn_app <> []
  /\ ranges_ok line_drawn_app
  /\ canvas_wf (canvas line_drawn_app)
  /\ existsb is_replay (after_queue line_drawn_app) = false.
Proof.
  split; [vm_compute; discriminate |].
  split; [unfold ranges_ok; vm_compute; repeat split; discriminate |].
  split; [| reflexivity].
  unfold canvas_wf. vm_compute. repeat constructor.
Defined.


(** C7 fails on the code: in burst mode with a burst count of 5, on a
    canvas whose width is -5, the first draw raises [ValueError]; the
    tick raises it too, none of the five shapes is drawn, no tick is
    rescheduled and a thousand further rounds of the event loop change
    nothing. *)
Lemma failing_tick_counterexample :
  burst_count (SETTINGS broken_burst_app) = 5
  /\ returned (draw_shape broken_burst_app) = None
  /\ exists st',
      animate broken_burst_app = Raise ValueError st'
      /\ draw_history st' = []
      /\ c_items (canvas st') = []
      /\ after_queue st' = []
      /\ ticks 1000 st' = st'.
Proof.
  split; [reflexivity |]. split; [vm_compute; reflexivity |].
  eexists. split; [vm_compute; reflexivity |].
  repeat split; vm_compute; reflexivity.
Qed.

(** The failed tick on the broken canvas leaves the loop stopped. *)
Lemma failing_draw_witness :
  exists st',
    animate broken_burst_app = Raise ValueError st'
    /\ after_queue st' = after_queue broken_burst_app
    /\ forall n, ticks n st' = st'.
Proof.
  eexists. split; [vm_compute; reflexivity |].
  split.
  - refine (proj1 (failing_draw_stops_the_loop broken_burst_app) _ _ _).
    vm_compute. reflexivity.
  - refine (proj1 (proj2 (failing_draw_stops_the_loop broken_burst_app))
              _ _ _ _).
    + vm_compute. reflexivity.
    + reflexivity.
Defined.

(* ------------------------------------------------------------------ *)
(** ** Further properties of the engine                                 *)
(* ------------------------------------------------------------------ *)

Section MoreProperties.

Context {G : Type} {RS : RandomSource G}.

Local Abbreviation app := (app G).
Local Abbreviation App := (App G).

(** *** What a step keeps, for any reflexive and transitive relation *)

Section Keeps.

Variable R : app -> app -> Prop.
Hypothesis R_refl : forall st, R st st.
Hypothesis R_trans : forall s1 s2 s3, R s1 s2 -> R s2 s3 -> R s1 s3.

Lemma gk_bind {A B} (c : App A) (k : A -> App B) :
  keeps R c -> (forall a, keeps R (k a)) -> keeps R (bind c k).
Proof.
  intros Hc Hk st. unfold bind. specialize (Hc st).
  destruct (c st) as [a s1 | e s1]; cbn [final_state] in *.
  - eapply R_trans; [exact Hc | apply Hk].
  - exact Hc.
Qed.

Lemma gk_ret {A} (a : A) : keeps R (ret a : App A).
Proof. intro st. apply R_refl. Qed.

Lemma gk_raise {A} e : keeps R (raise e : App A).
Proof. intro st. apply R_refl. Qed.

Lemma gk_gets {A} (f : app -> A) : keeps R (gets f).
Proof. intro st. apply R_refl. Qed.

Lemma gk_setting {A} (f : settings -> A) : keeps R (setting f : App A).
Proof. intro st. apply R_refl. Qed.

Lemma gk_modify (f : app -> app) :
  (forall st, R st (f st)) -> keeps R (modify f).
Proof. intros H st. apply H. Qed.

Lemma gk_randint lo hi :
  (forall st g, R st (set_rng g st)) -> keeps R (randint lo hi).
Proof.
  intros H st. unfold randint. destruct (hi <? lo); [apply R_refl |].
  destruct (randbelow (hi - lo + 1) (rng st)). apply H.
Qed.

Lemma gk_choice {A} (xs : list A) :
  (forall st g, R st (set_rng g st)) -> keeps R (choice xs).
Proof.
  intros H st. unfold choice. destruct xs; [apply R_refl |].
  destruct (randbelow _ (rng st)). destruct (nth_error _ _); apply H.
Qed.

Lemma gk_create ty coords opts :
  (forall st,
     R st (set_canvas (snd (canvas_create ty coords opts (canvas st))) st)) ->
  keeps R (create ty coords opts : App nat).
Proof. intros H st. apply H. Qed.

Lemma gk_on_canvas f :
  (forall st, R st (set_canvas (f (canvas st)) st)) ->
  keeps R (on_canvas f : App unit).
Proof. intros H st. apply H. Qed.

Lemma gk_for_each {A} (xs : list A) (body : A -> App unit) :
  (forall x, keeps R (body x)) -> keeps R (for_each xs body).
Proof.
  intro H. induction xs as [| x xs IH]; cbn [for_each].
  - apply gk_ret.
  - apply gk_bind; [apply H | intros _; exact IH].
Qed.

Lemma gk_repeat_m n (body : App unit) :
  keeps R body -> keeps R (repeat_m n body).
Proof.
  intro H. induction n as [| n IH]; cbn [repeat_m].
  - apply gk_ret.
  - apply gk_bind; [exact H | intros _; exact IH].
Qed.

End Keeps.

(** Structural search; [rf] and [tr] prove reflexivity and
    transitivity, [side] the facts about the single writes. *)
Ltac gk_step rf tr side :=
  match goal with
  | |- keeps _ (bind _ _) => apply (gk_bind _ tr)
  | |- forall _, _ => intro
  | |- keeps _ (ret _) => apply (gk_ret _ rf)
  | |- keeps _ (raise _) => apply (gk_raise _ rf)
  | |- keeps _ (gets _) => apply (gk_gets _ rf)
  | |- keeps _ (setting _) => apply (gk_setting _ rf)
  | |- keeps _ (randint _ _) => apply (gk_randint _ rf); intros; side
  | |- keeps _ (choice _) => apply (gk_choice _ rf); intros; side
  | |- keeps _ (create _ _ _) => apply gk_create; intros; side
  | |- keeps _ (on_canvas _) => apply gk_on_canvas; intros; side
  | |- keeps _ (modify _) => apply gk_modify; intros; side
  | |- keeps _ (update_settings _) => apply gk_modify; intros; side
  | |- keeps _ (status _) => apply gk_modify; intros; side
  | |- keeps _ (for_each _ _) => apply (gk_for_each _ rf tr)
  | |- keeps _ (repeat_m _ _) => apply (gk_repeat_m _ rf tr)
  | |- keeps _ (if ?b then _ else _) => destruct b
  | |- keeps _ (match ?x with _ => _ end) => destruct x
  | H : keeps ?R ?c |- keeps ?R ?c => exact H
  | H : forall a, keeps ?R (?c a) |- keeps ?R (?c _) => apply H
  end.

(** **** The settings *)

Lemma same_settings_refl (st : app) : same_settings st st.
Proof. reflexivity. Qed.

Lemma same_settings_trans (s1 s2 s3 : app) :
  same_settings s1 s2 -> same_settings s2 s3 -> same_settings s1 s3.
Proof. unfold same_settings. congruence. Qed.

Ltac settings_side := reflexivity.
Ltac settings_auto :=
  repeat gk_step same_settings_refl same_settings_trans settings_side.

Lemma settings_random_color : keeps same_settings random_color.
Proof. unfold random_color. settings_auto. Qed.

Lemma settings_draw_primary ty size x y color ofl :
  keeps same_settings (draw_primary ty size x y color ofl).
Proof. unfold draw_primary. settings_auto. Qed.

Lemma settings_mirror_loop color ofl wl items :
  forall acc,
    keeps same_settings (mirror_loop color ofl wl items acc : App _).
Proof.
  induction items as [| it rest IH]; intro acc; cbn [mirror_loop].
  - apply (gk_ret _ same_settings_refl).
  - apply (gk_bind _ same_settings_trans);
      [| intro; apply IH].
    unfold mirror_item. settings_auto.
Qed.

(** **** The history and the frame counter *)

Lemma same_history_refl (st : app) : same_history st st.
Proof. split; reflexivity. Qed.

Lemma same_history_trans (s1 s2 s3 : app) :
  same_history s1 s2 -> same_history s2 s3 -> same_history s1 s3.
Proof. unfold same_history. intros (A1 & A2) (B1 & B2). split; congruence. Qed.

Ltac history_side := split; reflexivity.
Ltac history_auto :=
  repeat gk_step same_history_refl same_history_trans history_side.

Lemma history_random_color : keeps same_history random_color.
Proof. unfold random_color. history_auto. Qed.

Lemma history_ultra_random : keeps same_history ultra_random.
Proof. unfold ultra_random. history_auto. Qed.

Lemma history_choose_shape_type : keeps same_history choose_shape_type.
Proof. unfold choose_shape_type. history_auto. Qed.

Lemma history_draw_primary ty size x y color ofl :
  keeps same_history (draw_primary ty size x y color ofl).
Proof. unfold draw_primary. history_auto. Qed.

Lemma history_mirror_loop color ofl wl items :
  forall acc,
    keeps same_history (mirror_loop color ofl wl items acc : App _).
Proof.
  induction items as [| it rest IH]; intro acc; cbn [mirror_loop].
  - apply (gk_ret _ same_history_refl).
  - apply (gk_bind _ same_history_trans);
      [| intro; apply IH].
    unfold mirror_item. history_auto.
Qed.

(** **** Items only added on top *)

Lemma only_appends_refl (st : app) : only_appends st st.
Proof.
  exists []. rewrite app_nil_r. split; [reflexivity |].
  split; [constructor | lia].
Qed.

Lemma only_appends_trans (s1 s2 s3 : app) :
  only_appends s1 s2 -> only_appends s2 s3 -> only_appends s1 s3.
Proof.
  intros (e1 & E1 & F1 & N1) (e2 & E2 & F2 & N2).
  exists (e1 ++ e2). rewrite E2, E1, app_assoc.
  split; [reflexivity |]. split; [| lia].
  apply Forall_app. split; [exact F1 |].
  eapply Forall_impl; [| exact F2]. cbn. intros; lia.
Qed.

Lemma only_appends_create ty coords opts (st : app) :
  only_appends st
    (set_canvas (snd (canvas_create ty coords opts (canvas st))) st).
Proof.
  eexists. cbn. split; [reflexivity |].
  split; [repeat constructor | lia].
Qed.

Lemma only_appends_set_rng g (st : app) : only_appends st (set_rng g st).
Proof. apply (only_appends_refl st). Qed.

Ltac appends_side :=
  first [ apply only_appends_create | apply only_appends_set_rng
        | apply only_appends_refl
        | match goal with
          | |- only_appends ?s _ => exact (only_appends_refl s)
          end ].
Ltac appends_auto :=
  repeat gk_step only_appends_refl only_appends_trans appends_side.

Lemma appends_mirror_loop color ofl wl items :
  forall acc,
    keeps only_appends (mirror_loop color ofl wl items acc : App _).
Proof.
  induction items as [| it rest IH]; intro acc; cbn [mirror_loop].
  - apply (gk_ret _ only_appends_refl).
  - apply (gk_bind _ only_appends_trans);
      [| intro; apply IH].
    unfold mirror_item. appends_auto.
Qed.

Lemma appends_draw_primary ty size x y color ofl :
  keeps only_appends (draw_primary ty size x y color ofl).
Proof. unfold draw_primary. appends_auto. Qed.

Lemma appends_draw_grid : keeps only_appends (draw_grid : App _).
Proof. unfold draw_grid. appends_auto. Qed.

(** *** Stepping through a draw *)

Ltac inv_ret H := unfold ret in H; inversion H; subst; clear H.

Tactic Notation "step_randint" hyp(H) "as" ident(v) ident(g) ident(R) :=
  match type of H with
  | bind (randint ?lo ?hi) _ ?s = Ret _ _ =>
      let E := fresh "Er" in
      destruct (randint lo hi s) as [v ? | ? ?] eqn:E;
      [ erewrite bind_Ret in H by exact E;
        apply randint_Ret_inv in E; destruct E as (R & g & ->)
      | erewrite bind_Raise in H by exact E; discriminate H ]
  end.

Tactic Notation "step_choice" hyp(H) "as" ident(v) ident(g) :=
  match type of H with
  | bind (choice ?xs) _ ?s = Ret _ _ =>
      let E := fresh "Ec" in
      destruct (choice xs s) as [v ? | ? ?] eqn:E;
      [ erewrite bind_Ret in H by exact E;
        apply choice_Ret_inv in E; destruct E as (_ & g & ->)
      | erewrite bind_Raise in H by exact E; discriminate H ]
  end.

Lemma ultra_random_palette (st s1 : app) :
  ultra_random st = Ret tt s1 ->
  String.eqb (special_mode (tkvars st)) "UltraRandom" = true ->
  custom_palette (SETTINGS s1) = EmptyString
  \/ exists a b c,
      0 <= a <= 16777215 /\ 0 <= b <= 16777215 /\ 0 <= c <= 16777215
      /\ custom_palette (SETTINGS s1)
         = join "," [hex_color a; hex_color b; hex_color c].
Proof.
  intros H E. unfold ultra_random in H. rewrite bind_gets, E in H.
  step_choice H as o g1. rewrite bind_update_settings in H.
  step_choice H as m g2. rewrite bind_update_settings in H.
  step_choice H as b g3.
  destruct b.
  - step_randint H as c1 g4 R1. step_randint H as c2 g5 R2.
    step_randint H as c3 g6 R3.
    unfold update_settings, modify in H. inversion H; subst; clear H.
    right. exists c1, c2, c3. repeat split; try lia.
  - unfold update_settings, modify in H. inversion H; subst; clear H.
    left. reflexivity.
Qed.

(** The part of [draw_shape] after the UltraRandom block leaves the
    settings alone. *)
Lemma draw_shape_locals_split (st : app) loc st' :
  draw_shape_locals st = Ret loc st' ->
  exists s1, ultra_random st = Ret tt s1 /\ SETTINGS st' = SETTINGS s1.
Proof.
  unfold draw_shape_locals. intro H.
  apply bind_Ret_inv in H. destruct H as ([] & s1 & HU & H).
  exists s1. split; [exact HU |].
  match type of H with ?c s1 = _ =>
    assert (keeps same_settings c) as K
  end.
  { pose proof settings_random_color.
    unfold choose_shape_type.
    repeat first
      [ apply settings_draw_primary | apply settings_mirror_loop
      | gk_step same_settings_refl same_settings_trans settings_side ]. }
  specialize (K s1). rewrite H in K. exact K.
Qed.

(** X1.  Outside UltraRandom a run of [draw_shape] that returns leaves
    every setting as it was.  Under UltraRandom it changes at most the
    keys [outline_only], [mirror_drawing] and [custom_palette], and the
    palette it leaves is empty or three comma-joined random colours.
    In both modes it leaves the Tk variables, the canvas extent, the
    pause flag, the frame counter, both overlay handles, the shape-type
    table, the status label and the timer queue as they were. *)
Theorem draw_shape_writes_only_style (st : app) loc st' :
  draw_shape_locals st = Ret loc st' ->
  style_only (SETTINGS st) (SETTINGS st')
  /\ (special_mode (tkvars st) <> "UltraRandom"%string ->
      SETTINGS st' = SETTINGS st)
  /\ (special_mode (tkvars st) = "UltraRandom"%string ->
      custom_palette (SETTINGS st') = EmptyString
      \/ exists a b c,
          0 <= a <= 16777215 /\ 0 <= b <= 16777215 /\ 0 <= c <= 16777215
          /\ custom_palette (SETTINGS st')
             = join "," [hex_color a; hex_color b; hex_color c])
  /\ tkvars st' = tkvars st
  /\ CANVAS_WIDTH st' = CANVAS_WIDTH st
  /\ CANVAS_HEIGHT st' = CANVAS_HEIGHT st
  /\ paused st' = paused st
  /\ frame_count st' = frame_count st
  /\ meme_text_id st' = meme_text_id st
  /\ watermark_id st' = watermark_id st
  /\ SHAPE_TYPES st' = SHAPE_TYPES st
  /\ status_label st' = status_label st
  /\ after_queue st' = after_queue st.
Proof.
  intro H.
  destruct (draw_shape_locals_split st loc st' H) as (s1 & HU & HS).
  destruct (draw_shape_locals_frame st loc st' H) as (s' & c' & g & E).
  pose proof (keeps_draw_shape_locals st) as K. rewrite H in K.
  cbn [final_state] in K.
  destruct K as (K1 & K2 & K3 & K4 & K5 & K6 & K7 & K8).
  split; [exact K8 |].
  split.
  { intro N. apply String.eqb_neq in N.
    rewrite (ultra_random_normal st N) in HU. inversion HU; subst.
    exact HS. }
  split.
  { intro U. apply String.eqb_eq in U. rewrite HS.
    exact (ultra_random_palette st s1 HU U). }
  rewrite E. cbn. rewrite E in K1. cbn in K1. repeat split.
Qed.

Ltac raise_randint H :=
  match type of H with
  | bind (randint ?lo ?hi) _ ?s = Raise _ _ =>
      let E := fresh "Er" in
      destruct (randint lo hi s) as [? ? | ? ?] eqn:E;
      [ erewrite bind_Ret in H by exact E;
        apply randint_Ret_inv in E; destruct E as (? & ? & ->)
      | erewrite bind_Raise in H by exact E;
        apply randint_Raise_inv in E; destruct E as (-> & -> & _);
        inversion H; subst; repeat split; reflexivity ]
  end.


(** *** The geometry of the five shapes *)

(** The stages of a returning draw, with the sampled values in range:
    the primary item is drawn on the canvas [draw_shape] found, the
    mirror pass follows when the flag read by this run is set, and
    nothing else touches the canvas. *)
Lemma draw_stages (st : app) loc st' :
  draw_shape_locals st = Ret loc st' ->
  exists s1 d st2 st3,
    canvas s1 = canvas st
    /\ CANVAS_WIDTH s1 = CANVAS_WIDTH st
    /\ CANVAS_HEIGHT s1 = CANVAS_HEIGHT st
    /\ min_shape_size (SETTINGS st) <= loc_size loc
       <= max_shape_size (SETTINGS st)
    /\ 0 <= loc_x loc <= CANVAS_WIDTH st
    /\ 0 <= loc_y loc <= CANVAS_HEIGHT st
    /\ loc_outline_flag loc = outline_only (SETTINGS st')
    /\ draw_primary (loc_shape_type loc) (loc_size loc) (loc_x loc)
         (loc_y loc) (loc_color loc) (loc_outline_flag loc) s1
       = Ret d st2
    /\ rec_items (loc_record loc) = fst d
    /\ (if mirror_drawing (SETTINGS st')
        then exists l,
            mirror_loop (loc_color loc) (loc_outline_flag loc) (snd d)
              (fst d) [] st2 = Ret l st3
            /\ rec_mirror_items (loc_record loc) = Some l
        else st3 = st2 /\ rec_mirror_items (loc_record loc) = None)
    /\ canvas st' = canvas st3
    /\ CANVAS_WIDTH st2 = CANVAS_WIDTH st.
Proof.
  intro H.
  destruct (draw_shape_locals_Ret_inv st loc st' H)
    as (s' & g1 & d & st2 & st3 & HS & _ & _ & _ & HR & HX & HY & _ & HO
        & HP & HMir & _ & HItems & ->).
  destruct (style_only_sizes _ _ HS) as (Emin & Emax & _).
  rewrite Emin, Emax in HR.
  match type of HP with draw_primary ?a ?b ?c ?e ?f ?g ?s = _ =>
    pose proof (settings_draw_primary a b c e f g s) as S2;
    pose proof (keeps_draw_primary a b c e f g s) as K2
  end.
  rewrite HP in S2. unfold same_settings in S2. cbn in S2.
  rewrite HP in K2. cbn [final_state] in K2.
  destruct K2 as (_ & KW & _). cbn in KW.
  assert (SETTINGS st3 = s') as S3.
  { destruct (mirror_drawing s').
    - destruct HMir as (l & HL & _).
      match type of HL with mirror_loop ?a ?b ?c ?e ?f ?s = _ =>
        pose proof (settings_mirror_loop a b c e f s) as S
      end.
      rewrite HL in S. unfold same_settings in S. cbn [final_state] in S.
      congruence.
    - destruct HMir as (-> & _). exact S2. }
  exists (touched st s' (canvas st) (draw_history st) g1), d, st2, st3.
  cbn [SETTINGS set_draw_history canvas]. rewrite S3.
  repeat split; try eassumption; try reflexivity; try lia.
Qed.

Lemma find_kept_by_appends (s s' : app) id it :
  only_appends s s' ->
  canvas_find id (canvas s) = Some it ->
  canvas_find id (canvas s') = Some it.
Proof.
  intros (extra & E & _) F. unfold canvas_find in *. rewrite E.
  destruct (find _ (c_items (canvas s))) as [p |] eqn:Fp; [| discriminate].
  rewrite (find_app_some _ _ _ _ Fp). exact F.
Qed.

(** The primary item of a returning draw is still found, as created, in
    the final canvas. *)
Lemma primary_item_stays (st : app) loc (st' s1 : app) d (st2 st3 : app)
  id it :
  canvas st' = canvas st3 ->
  (if mirror_drawing (SETTINGS st')
   then exists l,
       mirror_loop (loc_color loc) (loc_outline_flag loc) (snd d)
         (fst d) [] st2 = Ret l st3
       /\ rec_mirror_items (loc_record loc) = Some l
   else st3 = st2 /\ rec_mirror_items (loc_record loc) = None) ->
  draw_primary (loc_shape_type loc) (loc_size loc) (loc_x loc)
    (loc_y loc) (loc_color loc) (loc_outline_flag loc) s1 = Ret d st2 ->
  canvas_find id (canvas st2) = Some it ->
  canvas_find id (canvas st') = Some it.
Proof.
  intros EC HMir _ F. rewrite EC.
  destruct (mirror_drawing (SETTINGS st')).
  - destruct HMir as (l & HL & _).
    pose proof (appends_mirror_loop (loc_color loc) (loc_outline_flag loc)
                  (snd d) (fst d) [] st2) as A.
    rewrite HL in A. cbn [final_state] in A.
    unfold canvas_find in *.
    destruct A as (extra & E & _). rewrite E.
    destruct (find _ (c_items (canvas st2))) as [p |] eqn:Fp;
      [| discriminate].
    rewrite (find_app_some _ _ _ _ Fp). exact F.
  - destruct HMir as (-> & _). exact F.
Qed.

(** X3.  A circle is an oval whose bounding box is the square of side
    [2 * size] centred at the anchor [(x, y)], where [size] lies in
    [[min_shape_size, max_shape_size]] and the anchor in the canvas
    rectangle [[0, W] x [0, H]]; it is filled and outlined in the
    colour of the run, or outlined only (width 2, no fill) with the
    outline flag. *)
Theorem circle_geometry (st : app) loc st' :
  canvas_wf (canvas st) ->
  draw_shape_locals st = Ret loc st' ->
  loc_shape_type loc = "circle"%string ->
  rec_items (loc_record loc) = [c_next (canvas st)]
  /\ canvas_find (c_next (canvas st)) (canvas st')
     = Some (mk_item "oval"
               [loc_x loc - loc_size loc; loc_y loc - loc_size loc;
                loc_x loc + loc_size loc; loc_y loc + loc_size loc]
               (style_opts (outline_only (SETTINGS st')) (loc_color loc)))
  /\ min_shape_size (SETTINGS st) <= loc_size loc
     <= max_shape_size (SETTINGS st)
  /\ 0 <= loc_x loc <= CANVAS_WIDTH st
  /\ 0 <= loc_y loc <= CANVAS_HEIGHT st.
Proof.
  intros W H T.
  destruct (draw_stages st loc st' H)
    as (s1 & d & st2 & st3 & C1 & W1 & H1 & HR & HX & HY & HO & HP & HI
        & HMir & EC & _).
  pose proof HP as HP'. rewrite T in HP'. unfold draw_primary in HP'.
  cbn [String.eqb Ascii.eqb Bool.eqb] in HP'.
  rewrite bind_create in HP'. inv_ret HP'.
  split; [rewrite HI, C1; reflexivity |].
  split; [| auto].
  eapply primary_item_stays; eauto.
  cbn [canvas set_canvas]. rewrite C1, <- HO.
  apply canvas_find_create_new. exact W.
Qed.

(** X4.  A rectangle is the square with corners [(x, y)] and
    [(x + size, y + size)], [size] in
    [[min_shape_size, max_shape_size]] and [(x, y)] in the canvas
    rectangle: its far corner may lie outside the canvas by up to
    [size]. *)
Theorem rectangle_geometry (st : app) loc st' :
  canvas_wf (canvas st) ->
  draw_shape_locals st = Ret loc st' ->
  loc_shape_type loc = "rectangle"%string ->
  rec_items (loc_record loc) = [c_next (canvas st)]
  /\ canvas_find (c_next (canvas st)) (canvas st')
     = Some (mk_item "rectangle"
               [loc_x loc; loc_y loc;
                loc_x loc + loc_size loc; loc_y loc + loc_size loc]
               (style_opts (outline_only (SETTINGS st')) (loc_color loc)))
  /\ min_shape_size (SETTINGS st) <= loc_size loc
     <= max_shape_size (SETTINGS st)
  /\ 0 <= loc_x loc <= CANVAS_WIDTH st
  /\ 0 <= loc_y loc <= CANVAS_HEIGHT st.
Proof.
  intros W H T.
  destruct (draw_stages st loc st' H)
    as (s1 & d & st2 & st3 & C1 & W1 & H1 & HR & HX & HY & HO & HP & HI
        & HMir & EC & _).
  pose proof HP as HP'. rewrite T in HP'. unfold draw_primary in HP'.
  cbn [String.eqb Ascii.eqb Bool.eqb] in HP'.
  rewrite bind_create in HP'. inv_ret HP'.
  split; [rewrite HI, C1; reflexivity |].
  split; [| auto].
  eapply primary_item_stays; eauto.
  cbn [canvas set_canvas]. rewrite C1, <- HO.
  apply canvas_find_create_new. exact W.
Qed.

(** X5.  An arc has the bounding box of a rectangle of the same anchor
    and size, a start angle in [[0, 360]] and an extent in
    [[30, 180]], both bounds included. *)
Theorem arc_geometry (st : app) loc st' :
  canvas_wf (canvas st) ->
  draw_shape_locals st = Ret loc st' ->
  loc_shape_type loc = "arc"%string ->
  exists start_angle extent_angle,
    0 <= start_angle <= 360
    /\ 30 <= extent_angle <= 180
    /\ rec_items (loc_record loc) = [c_next (canvas st)]
    /\ canvas_find (c_next (canvas st)) (canvas st')
       = Some (mk_item "arc"
                 [loc_x loc; loc_y loc;
                  loc_x loc + loc_size loc; loc_y loc + loc_size loc]
                 (("start", VInt start_angle)
                  :: ("extent", VInt extent_angle)
                  :: arc_style_opts (outline_only (SETTINGS st'))
                       (loc_color loc)))
    /\ min_shape_size (SETTINGS st) <= loc_size loc
       <= max_shape_size (SETTINGS st).
Proof.
  intros W H T.
  destruct (draw_stages st loc st' H)
    as (s1 & d & st2 & st3 & C1 & W1 & H1 & HR & HX & HY & HO & HP & HI
        & HMir & EC & _).
  pose proof HP as HP'. rewrite T in HP'. unfold draw_primary in HP'.
  cbn [String.eqb Ascii.eqb Bool.eqb] in HP'.
  step_randint HP' as sa g1 Rs. step_randint HP' as ea g2 Re.
  rewrite bind_create in HP'. inv_ret HP'.
  exists sa, ea. split; [exact Rs |]. split; [exact Re |].
  split; [rewrite HI; cbn; rewrite C1; reflexivity |].
  split; [| exact HR].
  eapply primary_item_stays; eauto.
  cbn [canvas set_canvas set_rng]. rewrite C1, <- HO.
  apply canvas_find_create_new. exact W.
Qed.

(** X6.  A line runs from the anchor to a second point, both in the
    canvas rectangle [[0, W] x [0, H]], with a stroke width in
    [[1, 5]]; the sampled size plays no part in it. *)
Theorem line_geometry (st : app) loc st' :
  canvas_wf (canvas st) ->
  draw_shape_locals st = Ret loc st' ->
  loc_shape_type loc = "line"%string ->
  exists x2 y2 width_line,
    0 <= x2 <= CANVAS_WIDTH st
    /\ 0 <= y2 <= CANVAS_HEIGHT st
    /\ 1 <= width_line <= 5
    /\ 0 <= loc_x loc <= CANVAS_WIDTH st
    /\ 0 <= loc_y loc <= CANVAS_HEIGHT st
    /\ rec_items (loc_record loc) = [c_next (canvas st)]
    /\ canvas_find (c_next (canvas st)) (canvas st')
       = Some (mk_item "line" [loc_x loc; loc_y loc; x2; y2]
                 [("fill", VStr (loc_color loc));
                  ("width", VInt width_line)]).
Proof.
  intros W H T.
  destruct (draw_stages st loc st' H)
    as (s1 & d & st2 & st3 & C1 & W1 & H1 & HR & HX & HY & HO & HP & HI
        & HMir & EC & _).
  pose proof HP as HP'. rewrite T in HP'. unfold draw_primary in HP'.
  cbn [String.eqb Ascii.eqb Bool.eqb] in HP'.
  rewrite bind_bind, bind_gets in HP'. step_randint HP' as x2 g1 Rx.
  rewrite bind_bind, bind_gets in HP'. step_randint HP' as y2 g2 Ry.
  step_randint HP' as wl g3 Rw.
  rewrite bind_create in HP'. inv_ret HP'.
  cbn in Rx, Ry. rewrite W1 in Rx. rewrite H1 in Ry.
  exists x2, y2, wl.
  repeat (split; [assumption |]).
  split; [rewrite HI; cbn; rewrite C1; reflexivity |].
  eapply primary_item_stays; eauto.
  cbn [canvas set_canvas set_rng]. rewrite C1.
  apply canvas_find_create_new. exact W.
Qed.

(** X7.  A triangle is a polygon with the anchor as first vertex and
    two further vertices each within [size] of the anchor on either
    axis. *)
Theorem triangle_geometry (st : app) loc st' :
  canvas_wf (canvas st) ->
  draw_shape_locals st = Ret loc st' ->
  loc_shape_type loc = "triangle"%string ->
  exists x2 y2 x3 y3,
    Z.abs (x2 - loc_x loc) <= loc_size loc
    /\ Z.abs (y2 - loc_y loc) <= loc_size loc
    /\ Z.abs (x3 - loc_x loc) <= loc_size loc
    /\ Z.abs (y3 - loc_y loc) <= loc_size loc
    /\ 0 <= loc_size loc
    /\ rec_items (loc_record loc) = [c_next (canvas st)]
    /\ canvas_find (c_next (canvas st)) (canvas st')
       = Some (mk_item "polygon" [loc_x loc; loc_y loc; x2; y2; x3; y3]
                 (style_opts (outline_only (SETTINGS st')) (loc_color loc))).
Proof.
  intros W H T.
  destruct (draw_stages st loc st' H)
    as (s1 & d & st2 & st3 & C1 & W1 & H1 & HR & HX & HY & HO & HP & HI
        & HMir & EC & _).
  pose proof HP as HP'. rewrite T in HP'. unfold draw_primary in HP'.
  cbn [String.eqb Ascii.eqb Bool.eqb] in HP'.
  step_randint HP' as dx2 g1 R1. step_randint HP' as dy2 g2 R2.
  step_randint HP' as dx3 g3 R3. step_randint HP' as dy3 g4 R4.
  rewrite bind_create in HP'. inv_ret HP'.
  exists (loc_x loc + dx2), (loc_y loc + dy2),
         (loc_x loc + dx3), (loc_y loc + dy3).
  repeat (split; [lia |]).
  split; [rewrite HI; cbn; rewrite C1; reflexivity |].
  eapply primary_item_stays; eauto.
  cbn [canvas set_canvas set_rng]. rewrite C1, <- HO.
  apply canvas_find_create_new. exact W.
Qed.

(** *** The mirror transform *)

(** X8.  Where the float arithmetic of line 855 is exact, that is for a
    canvas width and coordinates of magnitude at most [2^52], mirroring
    twice on the same canvas width gives the coordinate list back. *)
Theorem mirrored_coords_involutive (w : Z) (coords : list Z) :
  Z.abs w <= 2 ^ 52 ->
  Forall (fun v => Z.abs v <= 2 ^ 52) coords ->
  mirrored_coords w (mirrored_coords w coords) = coords.
Proof.
  intros Hw Hc. apply nth_error_ext. intro k.
  rewrite !mirrored_coords_nth.
  destruct (nth_error coords k) as [v |] eqn:E; [| reflexivity].
  cbn [option_map]. destruct (Nat.even k); [| reflexivity].
  assert (Z.abs v <= 2 ^ 52) as Hv.
  { rewrite Forall_forall in Hc. apply Hc.
    eapply nth_error_In. exact E. }
  f_equal. unfold int_minus_float.
  rewrite (round64_exact w) by lia.
  rewrite (round64_exact (w - v)) by lia.
  rewrite round64_exact by lia. lia.
Qed.

(** Beyond that range it need not: on a canvas of width 1 the
    coordinate [2^53 + 2] comes back as [2^53]. *)
Example mirrored_twice_out_of_range :
  mirrored_coords 1 (mirrored_coords 1 [2 ^ 53 + 2]) = [2 ^ 53].
Proof. vm_compute. reflexivity. Qed.

Lemma mirror_item_arc color ofl wl it (st : app) item :
  canvas_find it (canvas st) = Some item ->
  item_type item = "arc"%string ->
  mirror_item color ofl wl it st
  = Ret (Some (c_next (canvas st)))
        (set_canvas
           (snd (canvas_create "arc"
                   (mirrored_coords (CANVAS_WIDTH st)
                      (tk_stored "arc" (map round64 (item_coords item))))
                   (arc_style_opts ofl color) (canvas st))) st).
Proof.
  intros F K. unfold mirror_item.
  rewrite bind_gets, bind_gets, bind_gets.
  unfold canvas_coords, canvas_type. rewrite F. cbn [option_map].
  rewrite K. cbn [type_is String.eqb Ascii.eqb Bool.eqb].
  rewrite bind_create. reflexivity.
Qed.

(** X9.  The mirror of an arc is created on the mirror image of the
    box that Tk reports for the arc, with the arc's style, but without
    [start] and [extent], which the arc itself was given: it is not the
    reflection of the arc drawn. *)
Theorem arc_mirror_drops_angles (st : app) loc st' :
  canvas_wf (canvas st) ->
  draw_shape_locals st = Ret loc st' ->
  loc_shape_type loc = "arc"%string ->
  mirror_drawing (SETTINGS st') = true ->
  rec_mirror_items (loc_record loc) = Some [S (c_next (canvas st))]
  /\ canvas_find (S (c_next (canvas st))) (canvas st')
     = Some (mk_item "arc"
               (mirrored_coords (CANVAS_WIDTH st)
                  (canvas_coords (c_next (canvas st)) (canvas st')))
               (arc_style_opts (outline_only (SETTINGS st'))
                  (loc_color loc)))
  /\ exists start_angle extent_angle,
      canvas_find (c_next (canvas st)) (canvas st')
      = Some (mk_item "arc"
                [loc_x loc; loc_y loc;
                 loc_x loc + loc_size loc; loc_y loc + loc_size loc]
                (("start", VInt start_angle)
                 :: ("extent", VInt extent_angle)
                 :: arc_style_opts (outline_only (SETTINGS st'))
                      (loc_color loc))).
Proof.
  intros W H T M.
  destruct (draw_stages st loc st' H)
    as (s1 & d & st2 & st3 & C1 & W1 & H1 & HR & HX & HY & HO & HP & HI
        & HMir & EC & W2).
  rewrite M in HMir. destruct HMir as (l & HL & HML).
  rewrite T in HP. unfold draw_primary in HP.
  cbn [String.eqb Ascii.eqb Bool.eqb] in HP.
  step_randint HP as sa g1 Rs. step_randint HP as ea g2 Re.
  rewrite bind_create in HP. inv_ret HP.
  cbn [fst snd mirror_loop] in HL.
  match type of HL with
  | bind (mirror_item ?a ?b ?w ?i) _ ?s = _ =>
      pose proof (mirror_item_arc a b w i s
                    (mk_item "arc"
                       [loc_x loc; loc_y loc;
                        loc_x loc + loc_size loc; loc_y loc + loc_size loc]
                       (("start", VInt sa) :: ("extent", VInt ea)
                        :: arc_style_opts (loc_outline_flag loc)
                             (loc_color loc)))) as HMI
  end.
  cbn [canvas set_canvas set_rng] in HMI. rewrite C1 in HMI.
  specialize (HMI (canvas_find_create_new (canvas st) _ _ _ W) eq_refl).
  rewrite C1 in HL.
  erewrite bind_Ret in HL by exact HMI.
  cbn [mirror_loop truthy_id canvas_create snd c_next] in HL.
  inv_ret HL.
  split; [rewrite HML; reflexivity |].
  unfold canvas_coords.
  rewrite EC. cbn [canvas set_canvas canvas_create snd c_items c_next c_bg
                   item_coords CANVAS_WIDTH set_rng].
  rewrite <- app_assoc. cbn [List.app].
  rewrite <- HO, W1.
  match goal with
  | |- context [mk_canvas (_ ++ [(_, ?a); (_, ?b)]) ?nx ?bg] =>
      destruct (find_two_new (canvas st) a b nx bg W) as (F1 & F2)
  end.
  rewrite F1. cbn [item_type item_coords].
  split; [exact F2 |]. exists sa, ea. reflexivity.
Qed.

(** *** Ticks: burst mode and pause *)

Lemma draws_step n :
  forall st : app,
    ranges_ok st -> canvas_wf (canvas st) ->
    exists st' rs,
      repeat_m n draw_shape st = Ret tt st'
      /\ same_env st st'
      /\ frame_count st' = frame_count st
      /\ draw_history st' = draw_history st ++ rs
      /\ List.length rs = n
      /\ canvas_wf (canvas st')
      /\ ranges_ok st'.
Proof.
  induction n as [| n IH]; intros st R W.
  - exists st, []. rewrite app_nil_r.
    repeat split; try assumption; try apply R. apply same_env_refl.
  - destruct (draw_shape_step st R W)
      as (loc & s1 & HD & K1 & F1 & _ & _ & H1 & W1 & R1).
    destruct (IH s1 R1 W1) as (s2 & rs & HR & K2 & F2 & H2 & L2 & W2 & R2).
    exists s2, (loc_record loc :: rs). cbn [repeat_m].
    assert (draw_shape st = Ret tt s1) as HD'.
    { unfold draw_shape. erewrite bind_Ret by exact HD. reflexivity. }
    erewrite bind_Ret by exact HD'.
    split; [exact HR |].
    split; [eapply same_env_trans; eauto |].
    split; [congruence |].
    split; [rewrite H2, H1, <- app_assoc; reflexivity |].
    split; [cbn; congruence |]. split; assumption.
Qed.


(** X11.  While the driver is paused, any number of ticks leaves the
    frame counter, the history, the canvas, the overlay handles, the
    settings and the random generator as they were, and a tick stays
    pending, so that the loop goes on as soon as the pause is lifted. *)
Theorem paused_ticks_freeze (n : nat) (st : app) :
  paused st = true ->
  existsb is_animate (after_queue st) = true ->
  frame_count (ticks n st) = frame_count st
  /\ draw_history (ticks n st) = draw_history st
  /\ canvas (ticks n st) = canvas st
  /\ meme_text_id (ticks n st) = meme_text_id st
  /\ watermark_id (ticks n st) = watermark_id st
  /\ SETTINGS (ticks n st) = SETTINGS st
  /\ rng (ticks n st) = rng st
  /\ paused (ticks n st) = true
  /\ existsb is_animate (after_queue (ticks n st)) = true.
Proof.
  revert st. induction n as [| n IH]; intros st P Q.
  - cbn. repeat split; assumption.
  - unfold ticks in *. cbn [run_events].
    destruct (pop_request_animate _ Q) as (q' & Hpop).
    assert (dispatch is_animate st
            = set_after_queue
                (q' ++ [(speed_scale (tkvars st), CbAnimate)]) st) as ED.
    { unfold dispatch. rewrite Hpop. cbn [run_callback].
      rewrite animate_paused by exact P. reflexivity. }
    rewrite ED.
    match goal with |- context [run_events _ n ?s] =>
      destruct (IH s) as (I1 & I2 & I3 & I4 & I5 & I6 & I7 & I8 & I9)
    end.
    + exact P.
    + cbn. rewrite existsb_app. cbn. apply orb_true_r.
    + rewrite I1, I2, I3, I4, I5, I6, I7, I8, I9. repeat split.
Qed.

(** X12.  [toggle_pause] flips the pause flag and sets the status label
    to "Paused" or "Running" accordingly, touching nothing else (the
    pending tick stays in the queue); two toggles in a row restore the
    state up to the status label. *)
Theorem toggle_pause_twice (st : app) :
  toggle_pause st
  = Ret tt (set_status_label
              (if negb (paused st) then "Paused" else "Running")
              (set_paused (negb (paused st)) st))
  /\ bind toggle_pause (fun _ => toggle_pause) st
     = Ret tt (set_status_label
                 (if paused st then "Paused" else "Running") st).
Proof.
  split; [reflexivity |].
  unfold toggle_pause. cbn. destruct st as [? ? ? p ? ? ? ? ? ? ? ? ? ?].
  cbn. destruct p; reflexivity.
Qed.

(** *** Undo in general *)

Lemma filter_filter {A} (f g : A -> bool) (l : list A) :
  filter f (filter g l) = filter (fun x => g x && f x) l.
Proof.
  induction l as [| a l IH]; cbn; [reflexivity |].
  destruct (g a); cbn; [destruct (f a); rewrite IH; reflexivity | exact IH].
Qed.

Lemma filter_ext_eq {A} (f g : A -> bool) (l : list A) :
  (forall x, f x = g x) -> filter f l = filter g l.
Proof.
  intro H. induction l as [| a l IH]; cbn; [reflexivity |].
  rewrite H, IH. reflexivity.
Qed.

Lemma items_after_deletes ids :
  forall c,
    c_items (fold_left (fun c id => canvas_delete id c) ids c)
    = filter (fun p => negb (id_in ids p)) (c_items c)
    /\ c_next (fold_left (fun c id => canvas_delete id c) ids c) = c_next c
    /\ c_bg (fold_left (fun c id => canvas_delete id c) ids c) = c_bg c.
Proof.
  induction ids as [| id ids IH]; intro c; cbn [fold_left].
  - split; [| split; reflexivity].
    unfold id_in. cbn. induction (c_items c) as [| a l IHl];
      cbn; [reflexivity | rewrite <- IHl; reflexivity].
  - destruct (IH (canvas_delete id c)) as (I1 & I2 & I3).
    rewrite I1, I2, I3. split; [| split; reflexivity].
    unfold canvas_delete. cbn [c_items]. rewrite filter_filter.
    apply filter_ext_eq. intro p. unfold id_in. cbn [existsb].
    rewrite negb_orb. reflexivity.
Qed.

Lemma undo_last_shape_run (st : app) h r :
  draw_history st = h ++ [r] ->
  undo_last_shape st
  = Ret tt
      (set_status_label "Last shape undone"
         (set_canvas
            (fold_left (fun c id => canvas_delete id c) (get_mirror_items r)
               (fold_left (fun c id => canvas_delete id c) (rec_items r)
                  (canvas st)))
            (set_draw_history h st))).
Proof.
  intro E. unfold undo_last_shape. rewrite bind_gets, E, rev_app_distr.
  cbn [rev List.app]. rewrite bind_modify.
  unfold bind at 1. rewrite for_each_delete.
  unfold bind at 1. rewrite for_each_delete.
  rewrite rev_involutive. reflexivity.
Qed.

(** X13.  On a non-empty history [undo_last_shape] removes the last
    record and deletes from the canvas exactly the primitives whose ids
    the record holds (its items and mirror items): every other
    primitive stays, in the same stacking order.  The frame counter is
    not put back, and the settings and the random generator are left
    alone. *)
Theorem undo_removes_last_record (st : app) h r :
  draw_history st = h ++ [r] ->
  exists st',
    undo_last_shape st = Ret tt st'
    /\ draw_history st' = h
    /\ c_items (canvas st')
       = filter (fun p => negb (id_in (record_ids r) p)) (c_items (canvas st))
    /\ frame_count st' = frame_count st
    /\ SETTINGS st' = SETTINGS st
    /\ rng st' = rng st
    /\ status_label st' = "Last shape undone"%string.
Proof.
  intro E. rewrite (undo_last_shape_run st h r E).
  eexists. split; [reflexivity |]. cbn.
  split; [reflexivity |]. split; [| repeat split].
  destruct (items_after_deletes (get_mirror_items r)
              (fold_left (fun c id => canvas_delete id c) (rec_items r)
                 (canvas st))) as (-> & _).
  destruct (items_after_deletes (rec_items r) (canvas st)) as (-> & _).
  rewrite filter_filter. apply filter_ext_eq. intro p.
  unfold id_in, record_ids. rewrite existsb_app, negb_orb. reflexivity.
Qed.

(** The primitives of a fresh record are exactly what the draw added. *)
Lemma drawn_items_deleted (st : app) loc st1 :
  canvas_wf (canvas st) ->
  draw_shape_locals st = Ret loc st1 ->
  filter (fun p => negb (id_in (record_ids (loc_record loc)) p))
    (c_items (canvas st1))
  = c_items (canvas st).
Proof.
  intros W H.
  pose proof (draw_shape_locals_canvas st loc st1 W H) as C. cbn zeta in C.
  unfold record_ids, id_in.
  assert (forall id,
            filter (fun p : nat * item => negb (Nat.eqb (fst p) id || false))
              (c_items (canvas st))
            = filter (fun p => negb (Nat.eqb (fst p) id))
                (c_items (canvas st))) as Hone.
  { intro id. apply filter_ext_eq. intro p. rewrite orb_false_r.
    reflexivity. }
  destruct (primary_kind (loc_shape_type loc)).
  - destruct C as (coords & opts & HI & C). rewrite HI.
    unfold get_mirror_items.
    destruct (mirror_drawing (SETTINGS st1)).
    + destruct C as (opts' & -> & ->). cbn [c_items List.app existsb].
      rewrite filter_app.
      assert (filter
                (fun p : nat * item =>
                   negb (Nat.eqb (fst p) (c_next (canvas st))
                         || (Nat.eqb (fst p) (S (c_next (canvas st)))
                             || false)))
                (c_items (canvas st)) = c_items (canvas st)) as ->.
      { rewrite <- (filter_fresh (canvas st) (S (c_next (canvas st))) W)
          at 2 by lia.
        rewrite <- (filter_fresh (canvas st) (c_next (canvas st)) W)
          at 2 by lia.
        rewrite filter_filter. apply filter_ext_eq. intro p.
        rewrite orb_false_r, negb_orb. reflexivity. }
      cbn [filter fst]. rewrite !Nat.eqb_refl.
      cbn [orb negb]. rewrite orb_true_r. cbn. apply app_nil_r.
    + destruct C as (-> & ->). cbn [c_items List.app existsb].
      rewrite filter_app, Hone, filter_fresh by (auto; lia).
      cbn [filter fst]. rewrite Nat.eqb_refl. cbn. apply app_nil_r.
  - destruct C as (-> & -> & ->). cbn. clear Hone.
    induction (c_items (canvas st)) as [| a l IHl];
      cbn; [reflexivity | rewrite IHl; reflexivity].
Qed.


(** *** The grid *)

Lemma for_each_lines {A} (f : A -> list Z) (xs : list A) :
  forall st : app,
    for_each xs (fun x => create "line" (f x) grid_opts ;;; ret tt) st
    = Ret tt
        (set_canvas
           (mk_canvas
              (c_items (canvas st)
               ++ line_items (c_next (canvas st)) (map f xs))
              (c_next (canvas st) + List.length xs)
              (c_bg (canvas st)))
           st).
Proof.
  induction xs as [| x xs IH]; intro st.
  - cbn. rewrite app_nil_r, Nat.add_0_r.
    destruct st as [? ? ? ? ? ? ? ? ? ? c ? ? ?]. destruct c. reflexivity.
  - cbn [for_each]. rewrite bind_bind, bind_create, bind_ret. rewrite IH.
    cbn [canvas set_canvas canvas_create snd c_items c_next c_bg].
    unfold line_items. cbn [map List.length seq combine].
    rewrite <- app_assoc. cbn [List.app].
    rewrite Nat.add_succ_r. reflexivity.
Qed.

Lemma draw_grid_run (st : app) :
  draw_grid st
  = Ret tt
      (if grid_overlay (SETTINGS st)
       then set_canvas
              (mk_canvas
                 (c_items (canvas st)
                  ++ grid_items (c_next (canvas st)) (CANVAS_WIDTH st)
                       (CANVAS_HEIGHT st))
                 (c_next (canvas st)
                  + grid_lines (CANVAS_WIDTH st) (CANVAS_HEIGHT st))
                 (c_bg (canvas st)))
              st
       else st).
Proof.
  unfold draw_grid. rewrite bind_setting.
  destruct (grid_overlay (SETTINGS st)); [| reflexivity].
  rewrite !bind_gets. erewrite bind_Ret by apply for_each_lines.
  rewrite for_each_lines.
  cbn [canvas set_canvas c_items c_next c_bg].
  unfold grid_items, grid_lines. rewrite <- app_assoc.
  rewrite Nat.add_assoc. reflexivity.
Qed.

Lemma line_items_tagged next coords :
  Forall (fun p => has_tag "grid" (snd p) = true) (line_items next coords).
Proof.
  unfold line_items. revert next.
  induction coords as [| co coords IH]; intro next; cbn; constructor.
  - reflexivity.
  - apply IH.
Qed.

Lemma line_items_length next coords :
  List.length (line_items next coords) = List.length coords.
Proof.
  unfold line_items.
  rewrite length_combine, length_seq, length_map. apply Nat.min_id.
Qed.

Lemma line_items_fresh next coords :
  Forall (fun p => (next <= fst p)%nat) (line_items next coords).
Proof.
  unfold line_items. revert next.
  induction coords as [| co coords IH]; intro next; cbn; constructor.
  - cbn. lia.
  - eapply Forall_impl; [| apply IH]. cbn. intros; lia.
Qed.

Lemma grid_items_tagged next w h :
  Forall (fun p => has_tag "grid" (snd p) = true) (grid_items next w h).
Proof. apply Forall_app. split; apply line_items_tagged. Qed.

Lemma grid_items_length next w h :
  List.length (grid_items next w h) = grid_lines w h.
Proof.
  unfold grid_items, grid_lines.
  rewrite length_app, !line_items_length, !length_map. reflexivity.
Qed.

Lemma grid_items_fresh next w h :
  Forall (fun p => (next <= fst p)%nat) (grid_items next w h).
Proof.
  apply Forall_app. split; [apply line_items_fresh |].
  eapply Forall_impl; [| apply line_items_fresh]. cbn. intros; lia.
Qed.

Lemma filter_all_true {A} (f : A -> bool) (l : list A) :
  Forall (fun x => f x = true) l -> filter f l = l.
Proof.
  induction 1 as [| a l Ha _ IH]; cbn; [reflexivity |].
  rewrite Ha, IH. reflexivity.
Qed.

Lemma filter_all_false {A} (f : A -> bool) (l : list A) :
  Forall (fun x => f x = true) l -> filter (fun x => negb (f x)) l = [].
Proof.
  induction 1 as [| a l Ha _ IH]; cbn; [reflexivity |].
  rewrite Ha. cbn. exact IH.
Qed.

(** X15.  [update_grid] replaces the grid: afterwards the canvas holds
    exactly [grid_lines] lines tagged "grid" when the grid overlay is
    on (one per 50 units of width and of height) and none when it is
    off, whatever grid was there before; the primitives without that
    tag are left as they were, in the same order. *)
Theorem update_grid_replaces_grid (st : app) :
  exists st',
    update_grid st = Ret tt st'
    /\ count_tag "grid" (canvas st')
       = (if grid_overlay (SETTINGS st)
          then grid_lines (CANVAS_WIDTH st) (CANVAS_HEIGHT st) else 0%nat)
    /\ without_tag "grid" (canvas st') = without_tag "grid" (canvas st)
    /\ draw_history st' = draw_history st
    /\ SETTINGS st' = SETTINGS st.
Proof.
  unfold update_grid. rewrite bind_on_canvas, draw_grid_run.
  eexists. split; [reflexivity |].
  cbn [SETTINGS set_canvas canvas CANVAS_WIDTH CANVAS_HEIGHT].
  unfold count_tag, without_tag.
  destruct (grid_overlay (SETTINGS st));
    cbn [canvas set_canvas c_items canvas_delete_tag c_next draw_history
         SETTINGS].
  - rewrite !filter_app.
    rewrite (filter_all_true _ _ (grid_items_tagged _ _ _)).
    rewrite (filter_all_false _ _ (grid_items_tagged _ _ _)).
    rewrite !filter_filter, app_nil_r, length_app, grid_items_length.
    split.
    + replace (filter _ (c_items (canvas st))) with (@nil (nat * item));
        [reflexivity |].
      symmetry. induction (c_items (canvas st)) as [| a l IHl];
        cbn; [reflexivity |].
      destruct (has_tag "grid" (snd a)); cbn; exact IHl.
    + split; [| split; reflexivity].
      apply filter_ext_eq. intro p. apply andb_diag.
  - rewrite !filter_filter. split.
    + replace (filter _ (c_items (canvas st))) with (@nil (nat * item));
        [reflexivity |].
      symmetry. induction (c_items (canvas st)) as [| a l IHl];
        cbn; [reflexivity |].
      destruct (has_tag "grid" (snd a)); cbn; exact IHl.
    + split; [| split; reflexivity].
      apply filter_ext_eq. intro p. apply andb_diag.
Qed.

(** X16.  [toggle_grid] never deletes a grid line.  Switching the grid
    off leaves the canvas as it is, grid included; switching it on adds
    [grid_lines] lines on top of whatever is there, so on a canvas that
    already shows the grid the lines are doubled. *)
Theorem toggle_grid_only_adds (st : app) :
  toggle_grid false st
  = Ret tt (set_SETTINGS (set_grid_overlay false (SETTINGS st)) st)
  /\ exists st',
      toggle_grid true st = Ret tt st'
      /\ c_items (canvas st')
         = c_items (canvas st)
           ++ grid_items (c_next (canvas st)) (CANVAS_WIDTH st)
                (CANVAS_HEIGHT st)
      /\ count_tag "grid" (canvas st')
         = (count_tag "grid" (canvas st)
            + grid_lines (CANVAS_WIDTH st) (CANVAS_HEIGHT st))%nat
      /\ grid_overlay (SETTINGS st') = true.
Proof.
  split.
  - unfold toggle_grid. rewrite bind_update_settings, draw_grid_run.
    reflexivity.
  - unfold toggle_grid. rewrite bind_update_settings, draw_grid_run.
    cbn [SETTINGS set_SETTINGS grid_overlay set_grid_overlay].
    eexists. split; [reflexivity |].
    cbn [canvas set_canvas set_SETTINGS c_items CANVAS_WIDTH CANVAS_HEIGHT
         SETTINGS grid_overlay set_grid_overlay].
    split; [reflexivity |]. split; [| reflexivity].
    unfold count_tag. cbn [c_items].
    rewrite filter_app, length_app.
    rewrite (filter_all_true _ _ (grid_items_tagged _ _ _)).
    rewrite grid_items_length. reflexivity.
Qed.

(** *** Clearing and the overlays *)

Lemma clear_canvas_run (st : app) :
  let n := c_next (canvas st) in
  let g := shown_grid st n in
  let m := shown_meme st (n + List.length g) in
  let k := shown_watermark st (n + List.length g + List.length m) in
  clear_canvas st
  = Ret tt
      (mk_app (tkvars st) (CANVAS_WIDTH st) (CANVAS_HEIGHT st) (paused st)
         0 []
         (if nonempty (meme_text (SETTINGS st))
          then Some (n + List.length g)%nat else meme_text_id st)
         (if watermark_enabled (SETTINGS st)
          then Some (n + List.length g + List.length m)%nat
          else watermark_id st)
         (SETTINGS st) (SHAPE_TYPES st)
         (mk_canvas (g ++ m ++ k)
            (n + List.length g + List.length m + List.length k)
            (c_bg (canvas st)))
         (status_label st) (rng st) (after_queue st)).
Proof.
  cbv zeta. unfold clear_canvas, update_grid.
  rewrite bind_on_canvas, bind_modify, bind_modify, bind_bind, bind_on_canvas.
  erewrite bind_Ret by apply draw_grid_run.
  unfold shown_grid, shown_meme, shown_watermark.
  cbn [SETTINGS set_canvas set_frame_count set_draw_history canvas
       CANVAS_WIDTH CANVAS_HEIGHT canvas_delete_all c_items c_next c_bg
       List.app].
  rewrite <- (grid_items_length (c_next (canvas st)) (CANVAS_WIDTH st)
                (CANVAS_HEIGHT st)).
  destruct (grid_overlay (SETTINGS st)); rewrite bind_setting;
    cbn [SETTINGS set_canvas set_frame_count set_draw_history];
    destruct (nonempty (meme_text (SETTINGS st)));
    destruct (watermark_enabled (SETTINGS st)) eqn:EW;
    cbn; rewrite ?EW; cbn;
    rewrite ?Nat.add_0_r, ?Nat.add_1_r, <- ?app_assoc, ?app_nil_r;
    reflexivity.
Qed.


(** X17.  [clear_canvas] empties the history, resets the frame counter
    and leaves on the canvas exactly the overlays the settings ask for,
    newly created with fresh ids: the grid, then the meme text, then
    the watermark.  The handle of an overlay that is created is renewed;
    the handle of one that is not created is left as it was, although
    its item is gone. *)
Theorem clear_canvas_rebuilds_overlays (st : app) :
  exists st',
    clear_canvas st = Ret tt st'
    /\ draw_history st' = []
    /\ frame_count st' = 0
    /\ SETTINGS st' = SETTINGS st
    /\ rng st' = rng st
    /\ (let n := c_next (canvas st) in
        let g := shown_grid st n in
        let m := shown_meme st (n + List.length g) in
        let k := shown_watermark st (n + List.length g + List.length m) in
        c_items (canvas st') = g ++ m ++ k
        /\ meme_text_id st'
           = (if nonempty (meme_text (SETTINGS st))
              then Some (n + List.length g)%nat else meme_text_id st)
        /\ watermark_id st'
           = (if watermark_enabled (SETTINGS st)
              then Some (n + List.length g + List.length m)%nat
              else watermark_id st)).
Proof.
  eexists. split; [apply clear_canvas_run |].
  cbn. repeat split; reflexivity.
Qed.

(** *** A handle whose item is gone *)

Lemma itemconfigure_dead id k v c :
  dead id c -> canvas_itemconfigure id k v c = c.
Proof.
  unfold dead, canvas_itemconfigure. destruct c as [items nx bg].
  cbn [c_items c_next c_bg]. intro H. f_equal.
  induction H as [| p l Hp _ IH]; cbn [map]; [reflexivity |].
  rewrite Hp, IH. reflexivity.
Qed.

Lemma tag_raise_dead id c : dead id c -> canvas_tag_raise id c = c.
Proof.
  unfold dead, canvas_tag_raise. destruct c as [items nx bg].
  cbn [c_items c_next c_bg]. intro H. f_equal.
  induction H as [| p l Hp _ IH]; cbn [filter]; [reflexivity |].
  rewrite Hp. cbn [negb List.app]. f_equal. exact IH.
Qed.

Lemma dead_find id c : dead id c -> canvas_find id c = None.
Proof.
  unfold dead, canvas_find. intro H.
  induction H as [| p l Hp _ IH]; cbn [find]; [reflexivity |].
  rewrite Hp. exact IH.
Qed.

Lemma dead_fresh id n (l : list (nat * item)) nx bg :
  (id < n)%nat ->
  Forall (fun p => (n <= fst p)%nat) l ->
  dead id (mk_canvas l nx bg).
Proof.
  intros Hid H. unfold dead. cbn [c_items].
  eapply Forall_impl; [| exact H]. cbn. intros p Hp.
  apply Nat.eqb_neq. lia.
Qed.

Lemma add_meme_text_dead (st : app) id text :
  meme_text_id st = Some id ->
  dead id (canvas st) ->
  add_meme_text text st
  = Ret tt
      (set_status_label "Meme text updated"
         (set_SETTINGS (set_meme_text text (SETTINGS st)) st)).
Proof.
  intros Hid Hdead. unfold add_meme_text.
  rewrite bind_update_settings, bind_gets.
  cbn [meme_text_id set_SETTINGS]. rewrite Hid.
  rewrite bind_on_canvas. cbn [canvas set_SETTINGS].
  rewrite (itemconfigure_dead _ _ _ _ Hdead).
  rewrite bind_gets. cbn [meme_text_id set_canvas set_SETTINGS].
  rewrite Hid. rewrite bind_on_canvas. cbn [canvas set_canvas].
  rewrite (tag_raise_dead _ _ Hdead).
  unfold status, modify.
  destruct st; reflexivity.
Qed.

Lemma reconcile_meme_dead (st : app) id :
  meme_text_id st = Some id ->
  dead id (canvas st) ->
  reconcile_meme st = Ret tt st.
Proof.
  intros Hid Hdead. unfold reconcile_meme. rewrite bind_setting.
  destruct (nonempty (meme_text (SETTINGS st))); [| reflexivity].
  rewrite bind_gets, Hid, bind_on_canvas.
  rewrite (itemconfigure_dead _ _ _ _ Hdead).
  rewrite bind_gets. cbn [meme_text_id set_canvas]. rewrite Hid.
  unfold on_canvas, modify. cbn [canvas set_canvas].
  rewrite (tag_raise_dead _ _ Hdead).
  destruct st; reflexivity.
Qed.

Lemma shown_items_fresh (st : app) :
  let n := c_next (canvas st) in
  let g := shown_grid st n in
  let m := shown_meme st (n + List.length g) in
  let k := shown_watermark st (n + List.length g + List.length m) in
  Forall (fun p => (n <= fst p)%nat) (g ++ m ++ k).
Proof.
  cbv zeta. unfold shown_grid, shown_meme, shown_watermark.
  apply Forall_app. split; [| apply Forall_app; split].
  - destruct (grid_overlay (SETTINGS st));
      [apply grid_items_fresh | constructor].
  - destruct (nonempty _); repeat constructor. cbn. lia.
  - destruct (watermark_enabled _); repeat constructor. cbn. lia.
Qed.

(** X18.  A meme text that was emptied is lost to the canvas for good
    once the canvas is cleared: [clear_canvas] deletes the text item
    but keeps the handle, so [add_meme_text] reconfigures and raises an
    item that no longer exists.  The new text is stored in the
    settings and reported as updated, the canvas is left as the clear
    left it, and the overlay step of the following ticks changes
    nothing either. *)
Theorem cleared_meme_text_stays_hidden (st : app) (id : nat)
  (text : string) :
  nonempty (meme_text (SETTINGS st)) = false ->
  meme_text_id st = Some id ->
  (id < c_next (canvas st))%nat ->
  exists st1 st2,
    clear_canvas st = Ret tt st1
    /\ add_meme_text text st1 = Ret tt st2
    /\ meme_text (SETTINGS st2) = text
    /\ status_label st2 = "Meme text updated"
    /\ meme_text_id st2 = Some id
    /\ canvas st2 = canvas st1
    /\ canvas_find id (canvas st2) = None
    /\ reconcile_meme st2 = Ret tt st2.
Proof.
  intros Hempty Hid Hlt.
  pose proof (clear_canvas_run st) as HC. cbv zeta in HC.
  pose proof (shown_items_fresh st) as HF. cbv zeta in HF.
  rewrite Hempty in HC.
  match type of HC with _ = Ret tt ?s => set (st1 := s) in * end.
  assert (dead id (canvas st1)) as Hdead.
  { subst st1. cbn [canvas]. eapply dead_fresh; [exact Hlt | exact HF]. }
  assert (meme_text_id st1 = Some id) as Hid1 by exact Hid.
  exists st1. eexists. split; [exact HC |].
  split; [apply (add_meme_text_dead st1 id text Hid1 Hdead) |].
  split; [reflexivity |]. split; [reflexivity |].
  split; [exact Hid1 |]. split; [reflexivity |].
  split; [apply dead_find; exact Hdead |].
  apply (reconcile_meme_dead _ id); [exact Hid1 | exact Hdead].
Qed.


(** *** Raising an item to the top *)

Lemma filter_split_length {A} (f : A -> bool) (l : list A) :
  List.length (filter (fun x => negb (f x)) l ++ filter f l)
  = List.length l.
Proof.
  rewrite length_app.
  induction l as [| a l IH]; cbn [filter]; [reflexivity |].
  destruct (f a); cbn [negb List.length]; lia.
Qed.

Lemma filter_last {A} (f : A -> bool) (l : list A) x :
  find f l = Some x ->
  exists l' y, filter f l = l' ++ [y] /\ In y l /\ f y = true.
Proof.
  intro H. apply find_some in H. destruct H as (Hin & Hf).
  assert (In x (filter f l)) as Hx by (apply filter_In; auto).
  destruct (exists_last (l := filter f l)) as (l' & y & E).
  { intro E. rewrite E in Hx. exact Hx. }
  exists l', y. split; [exact E |].
  assert (In y (filter f l)) as Hy.
  { rewrite E. apply in_or_app. right. left. reflexivity. }
  apply filter_In in Hy. exact Hy.
Qed.

Lemma top_item_last (l : list (nat * item)) p nx bg :
  top_item (mk_canvas (l ++ [p]) nx bg) = Some p.
Proof.
  unfold top_item. cbn [c_items]. rewrite rev_app_distr. reflexivity.
Qed.

Lemma find_itemconfigure id k v (l : list (nat * item)) :
  find (fun p => Nat.eqb (fst p) id)
    (map (fun p => if Nat.eqb (fst p) id
                   then (fst p, set_opt k v (snd p)) else p) l)
  = option_map (fun p => (fst p, set_opt k v (snd p)))
      (find (fun p => Nat.eqb (fst p) id) l).
Proof.
  induction l as [| a l IH]; cbn [map find]; [reflexivity |].
  destruct (Nat.eqb (fst a) id) eqn:E; cbn [fst]; rewrite E.
  - reflexivity.
  - exact IH.
Qed.

Lemma filter_itemconfigure id k v (l : list (nat * item)) :
  filter (fun p => negb (Nat.eqb (fst p) id))
    (map (fun p => if Nat.eqb (fst p) id
                   then (fst p, set_opt k v (snd p)) else p) l)
  = filter (fun p => negb (Nat.eqb (fst p) id)) l.
Proof.
  induction l as [| a l IH]; cbn [map filter]; [reflexivity |].
  destruct (Nat.eqb (fst a) id) eqn:E; cbn [fst]; rewrite E; cbn [negb].
  - exact IH.
  - rewrite IH. reflexivity.
Qed.

Lemma filter_raised id (l : list (nat * item)) :
  filter (fun p => negb (Nat.eqb (fst p) id))
    (filter (fun p => negb (Nat.eqb (fst p) id)) l
     ++ filter (fun p => Nat.eqb (fst p) id) l)
  = filter (fun p => negb (Nat.eqb (fst p) id)) l.
Proof.
  rewrite filter_app. rewrite !filter_filter.
  etransitivity; [| apply app_nil_r]. f_equal.
  - apply filter_ext_eq. intro p. apply andb_diag.
  - induction l as [| a l IH]; cbn [filter]; [reflexivity |].
    destruct (Nat.eqb (fst a) id); cbn; exact IH.
Qed.

Lemma item_text_set_opt v it : item_text (set_opt "text" v it) = Some v.
Proof. reflexivity. Qed.

(** X19.  [add_meme_text] shows the text of the entry: with no text
    item yet it creates one, otherwise (the handle naming a live item)
    it rewrites the text of the item there is.  Either way the text is
    stored in the settings, the item is raised to the top of the
    display list, no second text item appears, and the other primitives
    are left as they were, in the same order. *)
Theorem add_meme_text_shows_text (st : app) (text : string) :
  handle_usable (meme_text_id st) (canvas st) ->
  exists st' id it,
    add_meme_text text st = Ret tt st'
    /\ meme_text (SETTINGS st') = text
    /\ meme_text_id st' = Some id
    /\ top_item (canvas st') = Some (id, it)
    /\ item_text it = Some (VStr text)
    /\ (meme_text_id st = None ->
        it = meme_item (CANVAS_WIDTH st) (CANVAS_HEIGHT st) text
               (meme_font (SETTINGS st)) (meme_font_size (SETTINGS st)))
    /\ live_count (canvas st')
       = match meme_text_id st with
         | None => S (live_count (canvas st))
         | Some _ => live_count (canvas st)
         end
    /\ filter (fun p => negb (Nat.eqb (fst p) id)) (c_items (canvas st'))
       = filter (fun p => negb (Nat.eqb (fst p) id)) (c_items (canvas st)).
Proof.
  intro HU. unfold add_meme_text.
  rewrite bind_update_settings, bind_gets.
  cbn [meme_text_id set_SETTINGS].
  destruct (meme_text_id st) as [id |] eqn:Hid.
  - (* the item exists: reconfigure and raise *)
    cbn [handle_usable] in HU. unfold canvas_find in HU.
    destruct (find (fun p => Nat.eqb (fst p) id) (c_items (canvas st)))
      as [q |] eqn:Hq; [clear HU | exfalso; apply HU; reflexivity].
    rewrite bind_on_canvas, bind_gets.
    cbn [meme_text_id set_canvas set_SETTINGS]. rewrite Hid.
    rewrite bind_on_canvas. cbn [canvas set_canvas set_SETTINGS].
    unfold status, modify.
    pose proof (find_itemconfigure id "text" (VStr text)
                  (c_items (canvas st))) as HF.
    rewrite Hq in HF. cbn [option_map] in HF.
    destruct (filter_last _ _ _ HF) as (l' & y & EL & Hin & Hy).
    apply in_map_iff in Hin. destruct Hin as (p & Hp & _).
    assert (y = (id, set_opt "text" (VStr text) (snd p))) as ->.
    { destruct (Nat.eqb (fst p) id) eqn:E.
      - apply Nat.eqb_eq in E. rewrite <- Hp, E. reflexivity.
      - subst y. rewrite E in Hy. discriminate. }
    eexists _, id, _. split; [reflexivity |].
    unfold live_count, canvas_tag_raise, canvas_itemconfigure.
    cbn [SETTINGS set_status_label set_canvas set_SETTINGS meme_text
         set_meme_text meme_text_id canvas canvas_tag_raise
         canvas_itemconfigure c_items c_next c_bg live_count].
    split; [reflexivity |]. split; [exact Hid |].
    split; [rewrite EL, app_assoc; apply top_item_last |].
    split; [apply item_text_set_opt |].
    split; [discriminate |].
    split.
    + rewrite filter_split_length. apply length_map.
    + rewrite filter_raised. apply filter_itemconfigure.
  - (* no item yet: create it *)
    repeat first [ rewrite bind_bind | rewrite bind_gets
                 | rewrite bind_setting | rewrite bind_create
                 | rewrite bind_modify ].
    cbn [meme_text_id set_meme_text_id]. rewrite bind_on_canvas.
    unfold status, modify.
    eexists _, (c_next (canvas st)), _. split; [reflexivity |].
    unfold live_count, canvas_tag_raise, canvas_create.
    cbn [SETTINGS set_status_label set_canvas set_SETTINGS meme_text
         set_meme_text meme_text_id set_meme_text_id canvas
         canvas_tag_raise canvas_create snd fst c_items c_next c_bg
         live_count].
    split; [reflexivity |]. split; [reflexivity |].
    split.
    { rewrite !filter_app. cbn [filter fst]. rewrite Nat.eqb_refl.
      cbn [negb]. rewrite app_nil_r, app_assoc. apply top_item_last. }
    split; [reflexivity |]. split; [reflexivity |].
    split.
    + rewrite filter_split_length, length_app. cbn [List.length]. lia.
    + rewrite filter_raised, filter_app. cbn [filter fst].
      rewrite Nat.eqb_refl. cbn [negb]. apply app_nil_r.
Qed.


(** *** Draws that cannot succeed *)

(** X20.  [draw_shape] checks none of its sampling ranges: from a state
    whose canvas width or height is negative, or whose largest shape
    size is below the smallest, every draw fails with [ValueError],
    and it fails before anything is drawn or recorded. *)
Theorem empty_range_fails_every_draw (st : app) :
  CANVAS_WIDTH st < 0 \/ CANVAS_HEIGHT st < 0
  \/ max_shape_size (SETTINGS st) < min_shape_size (SETTINGS st) ->
  exists st',
    draw_shape st = Raise ValueError st'
    /\ canvas st' = canvas st
    /\ draw_history st' = draw_history st
    /\ frame_count st' = frame_count st.
Proof.
  intro H.
  enough (exists st',
            draw_shape_locals st = Raise ValueError st'
            /\ canvas st' = canvas st
            /\ draw_history st' = draw_history st
            /\ frame_count st' = frame_count st) as (st' & E & P).
  { exists st'. split; [| exact P].
    unfold draw_shape. apply bind_Raise. exact E. }
  unfold draw_shape_locals.
  destruct (ultra_random_total st) as (s' & g0 & HU & HS & _).
  destruct (style_only_sizes _ _ HS) as (Emin & Emax & _).
  erewrite bind_Ret by exact HU.
  match goal with |- context [bind choose_shape_type _ ?s] =>
    destruct (choose_shape_type_total s) as (ty & g1 & HT & _) end.
  erewrite bind_Ret by exact HT.
  rewrite !bind_setting.
  cbn [SETTINGS set_rng touched].
  destruct (Z_lt_dec (max_shape_size s') (min_shape_size s')) as [L | L].
  - erewrite bind_Raise by (apply randint_empty; exact L).
    eexists. split; [reflexivity |]. cbn. auto.
  - match goal with
    | |- context [bind (randint ?lo ?hi) _ ?s] =>
        destruct (randint_returns lo hi s ltac:(lia))
          as (size & g2 & Hsz & _);
        erewrite bind_Ret by exact Hsz
    end.
    rewrite bind_bind, bind_gets. cbn [CANVAS_WIDTH set_rng touched].
    destruct (Z_lt_dec (CANVAS_WIDTH st) 0) as [LW | LW].
    + erewrite bind_Raise by (apply randint_empty; exact LW).
      eexists. split; [reflexivity |]. cbn. auto.
    + match goal with
      | |- context [bind (randint ?lo ?hi) _ ?s] =>
          destruct (randint_returns lo hi s ltac:(lia))
            as (x & g3 & Hx & _);
          erewrite bind_Ret by exact Hx
      end.
      rewrite bind_bind, bind_gets. cbn [CANVAS_HEIGHT set_rng touched].
      erewrite bind_Raise by (apply randint_empty; lia).
      eexists. split; [reflexivity |]. cbn. auto.
Qed.



(** *** Replay and the canvas *)

Lemma appends_draw_shape : keeps only_appends draw_shape.
Proof.
  pose proof appends_mirror_loop as HM.
  unfold draw_shape, draw_shape_locals, ultra_random, choose_shape_type,
    random_color, draw_primary.
  appends_auto. apply HM.
Qed.

Lemma appends_replay_next h k : keeps only_appends (replay_next h k).
Proof.
  pose proof appends_draw_shape as HD.
  unfold replay_next, root_after. appends_auto.
Qed.

Lemma pop_request_replay q cb q' :
  pop_request is_replay q = Some (cb, q') ->
  exists h k, cb = CbReplayNext h k.
Proof.
  revert cb q'. induction q as [| t q IH]; intros cb q'; cbn [pop_request].
  - discriminate.
  - destruct (is_replay t) eqn:E.
    + intro H. inversion H; subst. unfold is_replay in E.
      destruct (snd t); [discriminate | eexists _, _; reflexivity].
    + destruct (pop_request is_replay q) as [[cb0 q0] |];
        [| discriminate].
      intro H. inversion H; subst. eapply IH. reflexivity.
Qed.

Lemma appends_serve_replay n :
  forall st : app, only_appends st (serve_replay n st).
Proof.
  unfold serve_replay.
  induction n as [| n IH]; intro st; cbn [run_events].
  - apply only_appends_refl.
  - eapply only_appends_trans; [| apply IH].
    unfold dispatch.
    destruct (pop_request is_replay (after_queue st)) as [[cb q'] |] eqn:E;
      [| apply only_appends_refl].
    destruct (pop_request_replay _ _ _ E) as (h & k & ->).
    cbn [run_callback].
    exact (appends_replay_next h k (set_after_queue q' st)).
Qed.

Lemma fresh_kept_by_appends n0 (s s' : app) :
  only_appends s s' ->
  (n0 <= c_next (canvas s))%nat
  /\ Forall (fun p => (n0 <= fst p)%nat) (c_items (canvas s)) ->
  (n0 <= c_next (canvas s'))%nat
  /\ Forall (fun p => (n0 <= fst p)%nat) (c_items (canvas s')).
Proof.
  intros (extra & E & F & N) (Hn & H). split; [lia |]. rewrite E.
  apply Forall_app. split; [exact H |].
  eapply Forall_impl; [| exact F]. cbn. intros; lia.
Qed.

Lemma replay_history_clears (st st1 : app) :
  draw_history st <> [] ->
  replay_history st = Ret tt st1 ->
  (c_next (canvas st) <= c_next (canvas st1))%nat
  /\ Forall (fun p => (c_next (canvas st) <= fst p)%nat)
       (c_items (canvas st1)).
Proof.
  intros HN E. unfold replay_history in E. rewrite bind_gets in E.
  destruct (draw_history st) as [| r0 h0] eqn:EH; [congruence |].
  pose proof (clear_canvas_run st) as HC. cbv zeta in HC.
  pose proof (shown_items_fresh st) as HF. cbv zeta in HF.
  erewrite bind_Ret in E by exact HC.
  rewrite bind_modify, bind_status in E.
  match type of E with
  | replay_next ?h ?k ?s = _ =>
      pose proof (appends_replay_next h k s) as HA
  end.
  rewrite E in HA. cbn [final_state] in HA.
  eapply fresh_kept_by_appends; [exact HA |]. split.
  - cbn [canvas set_status_label set_frame_count c_next]. lia.
  - cbn [canvas set_status_label set_frame_count c_items]. exact HF.
Qed.


End MoreProperties.

(* ------------------------------------------------------------------ *)
(** ** The further properties on concrete runs                          *)
(* ------------------------------------------------------------------ *)

(** Runs the draw of a concrete state and names its outcome. *)
Ltac run_draw S E :=
  let E0 := fresh "E0" in
  destruct (draw_shape_locals S) as [loc st' | e st'] eqn:E;
  pose proof E as E0; vm_compute in E0;
  [ exists loc, st'; split; [reflexivity |];
    inversion E0; subst; clear E0
  | discriminate E0 ].

(** A draw in normal mode leaves the default settings alone. *)
Lemma draw_shape_writes_only_style_witness :
  exists loc st',
    draw_shape_locals circle_app = Ret loc st'
    /\ SETTINGS st' = default_settings.
Proof.
  run_draw circle_app E.
  refine (proj1 (proj2 (draw_shape_writes_only_style circle_app _ _ E)) _).
  cbn. discriminate.
Defined.


Lemma circle_geometry_witness :
  exists loc st',
    draw_shape_locals circle_app = Ret loc st'
    /\ canvas_find 1 (canvas st')
       = Some (mk_item "oval" [85; 185; 115; 215]
                 [("fill", VStr "#0000ff"); ("outline", VStr "#0000ff")]).
Proof.
  run_draw circle_app E.
  exact (proj1 (proj2 (circle_geometry circle_app _ _ empty_canvas_wf E
                         eq_refl))).
Defined.

Lemma rectangle_geometry_witness :
  exists loc st',
    draw_shape_locals rectangle_app = Ret loc st'
    /\ canvas_find 1 (canvas st')
       = Some (mk_item "rectangle" [100; 200; 115; 215]
                 [("fill", VStr "#0000ff"); ("outline", VStr "#0000ff")]).
Proof.
  run_draw rectangle_app E.
  exact (proj1 (proj2 (rectangle_geometry rectangle_app _ _
                         empty_canvas_wf E eq_refl))).
Defined.

Lemma arc_geometry_witness :
  exists loc st',
    draw_shape_locals arc_app = Ret loc st'
    /\ exists start_angle extent_angle,
        0 <= start_angle <= 360
        /\ 30 <= extent_angle <= 180
        /\ rec_items (loc_record loc) = [1%nat]
        /\ canvas_find 1 (canvas st')
           = Some (mk_item "arc" [100; 200; 115; 215]
                     [("start", VInt start_angle);
                      ("extent", VInt extent_angle);
                      ("fill", VStr "#0000ff");
                      ("outline", VStr "#0000ff")])
        /\ 10 <= loc_size loc <= 100.
Proof.
  run_draw arc_app E.
  exact (arc_geometry arc_app _ _ empty_canvas_wf E eq_refl).
Defined.

Lemma line_geometry_witness :
  exists loc st',
    draw_shape_locals line_app = Ret loc st'
    /\ exists x2 y2 width_line,
        0 <= x2 <= 800 /\ 0 <= y2 <= 600 /\ 1 <= width_line <= 5
        /\ 0 <= loc_x loc <= 800 /\ 0 <= loc_y loc <= 600
        /\ rec_items (loc_record loc) = [1%nat]
        /\ canvas_find 1 (canvas st')
           = Some (mk_item "line" [100; 200; x2; y2]
                     [("fill", VStr "#0000ff"); ("width", VInt width_line)]).
Proof.
  run_draw line_app E.
  exact (line_geometry line_app _ _ empty_canvas_wf E eq_refl).
Defined.

Lemma triangle_geometry_witness :
  exists loc st',
    draw_shape_locals triangle_app = Ret loc st'
    /\ exists x2 y2 x3 y3,
        Z.abs (x2 - 100) <= 15 /\ Z.abs (y2 - 200) <= 15
        /\ Z.abs (x3 - 100) <= 15 /\ Z.abs (y3 - 200) <= 15
        /\ 0 <= 15
        /\ rec_items (loc_record loc) = [1%nat]
        /\ canvas_find 1 (canvas st')
           = Some (mk_item "polygon" [100; 200; x2; y2; x3; y3]
                     [("fill", VStr "#0000ff");
                      ("outline", VStr "#0000ff")]).
Proof.
  run_draw triangle_app E.
  exact (triangle_geometry triangle_app _ _ empty_canvas_wf E eq_refl).
Defined.

Lemma arc_mirror_witness :
  exists loc st',
    draw_shape_locals arc_mirror_app = Ret loc st'
    /\ canvas_find 2 (canvas st')
       = Some (mk_item "arc" [700; 200; 685; 215]
                 [("fill", VStr "#0000ff"); ("outline", VStr "#0000ff")]).
Proof.
  run_draw arc_mirror_app E.
  exact (proj1 (proj2 (arc_mirror_drops_angles arc_mirror_app _ _
                         empty_canvas_wf E eq_refl eq_refl))).
Defined.

(** Mirroring the triangle of the witness above twice. *)
Lemma mirrored_coords_involutive_witness :
  mirrored_coords 800 (mirrored_coords 800 [100; 200; 88; 189; 90; 191])
  = [100; 200; 88; 189; 90; 191].
Proof.
  apply mirrored_coords_involutive.
  - vm_compute. discriminate.
  - repeat constructor; vm_compute; discriminate.
Defined.


Lemma paused_ticks_witness :
  frame_count (ticks 3 paused_app) = 0
  /\ canvas (ticks 3 paused_app) = empty_canvas.
Proof.
  destruct (paused_ticks_freeze 3 paused_app eq_refl eq_refl)
    as (F & _ & C & _).
  split; [exact F | exact C].
Defined.

Lemma undo_removes_last_record_witness :
  exists st',
    undo_last_shape line_drawn_app = Ret tt st'
    /\ draw_history st' = []
    /\ c_items (canvas st') = [].
Proof.
  destruct (undo_removes_last_record line_drawn_app []
              (mk_record "line" [1%nat] None)
              ltac:(vm_compute; reflexivity))
    as (st' & E & H & C & _).
  exists st'. split; [exact E |]. split; [exact H |].
  rewrite C. vm_compute. reflexivity.
Defined.



(** The emptied meme text, a clear, and a new text that does not show. *)
Lemma cleared_meme_text_witness :
  exists st1 st2,
    clear_canvas emptied_meme_app = Ret tt st1
    /\ add_meme_text "again" st1 = Ret tt st2
    /\ meme_text (SETTINGS st2) = "again"%string
    /\ status_label st2 = "Meme text updated"%string
    /\ meme_text_id st2 = Some 1%nat
    /\ canvas st2 = canvas st1
    /\ canvas_find 1 (canvas st2) = None
    /\ reconcile_meme st2 = Ret tt st2.
Proof.
  apply (cleared_meme_text_stays_hidden emptied_meme_app 1 "again").
  - reflexivity.
  - reflexivity.
  - vm_compute. repeat constructor.
Defined.

(** The first meme text of the initial application. *)
Lemma add_meme_text_witness :
  exists st' id it,
    add_meme_text "hello" (initial_app []) = Ret tt st'
    /\ meme_text (SETTINGS st') = "hello"%string
    /\ meme_text_id st' = Some id
    /\ top_item (canvas st') = Some (id, it)
    /\ item_text it = Some (VStr "hello").
Proof.
  destruct (add_meme_text_shows_text (initial_app []) "hello" I)
    as (st' & id & it & E & H1 & H2 & H3 & H4 & _).
  exists st', id, it. repeat (split; [assumption |]). assumption.
Defined.

(** On the canvas whose width was set to -5 no draw succeeds. *)
Lemma empty_range_witness :
  exists st',
    draw_shape broken_burst_app = Raise ValueError st'
    /\ canvas st' = canvas broken_burst_app
    /\ draw_history st' = draw_history broken_burst_app
    /\ frame_count st' = frame_count broken_burst_app.
Proof.
  apply (empty_range_fails_every_draw broken_burst_app).
  left. vm_compute. reflexivity.
Defined.
